(** * Cart synchronisation, checkout totals and notification queue

    A shallow embedding of the storefront's client-side cart logic:
    - [Js]            the fragment of the JavaScript platform the components
                      rely on (values, coercions, JSON, localStorage, events);
    - [Notifications] the [useNotifications] hook (notification list);
    - [CartBadge]     the navigation-bar cart counter (components/cart.jsx);
    - [Products]      the catalog (components/products.jsx);
    - [Checkout]      the checkout form and order summary;
    - [Contact]       the contact form (components/contact_input.jsx);
    - [Overlay]       the product overlay of the catalog and its carousel;
    - [Menu]          the navigation menu (public/script.js);
    - [Scope]         the texts, values and numbers on which the model of
                      the platform is exact.

    React state is passed explicitly: a handler is a function from the
    component state and the browser state to their successors, written in a
    state-and-exception monad so that [try], [catch] and [finally] keep the
    shape they have in the source. *)

From Stdlib Require Import ZArith NArith Ascii String List Bool Lia.
From stdpp Require Import base gmap strings list.

(** ** The JavaScript platform *)

Module Js.

(** *** Numbers

    A finite number [Dec m e] denotes the decimal [m * 10^-e]; every JSON
    number literal and every result of [+], [-] and [*] on such numbers is of
    this form.  Arithmetic is exact: rounding to binary64, overflow to
    [Infinity] and the sign of zero are outside the model.  The platform
    agrees with it on the whole numbers of magnitude up to 2^53 (see
    [Scope]). *)

Inductive JsNumber : Type :=
| NaN
| Infinity (negative : bool)
| Dec (m : Z) (e : nat).

Definition Int (z : Z) : JsNumber := Dec z 0.

Definition pow10 (e : nat) : Z := (10 ^ Z.of_nat e)%Z.

Definition num_neg (a : JsNumber) : JsNumber :=
  match a with
  | NaN => NaN
  | Infinity s => Infinity (negb s)
  | Dec m e => Dec (- m) e
  end.

Definition num_add (a b : JsNumber) : JsNumber :=
  match a, b with
  | NaN, _ | _, NaN => NaN
  | Infinity s, Infinity t => if Bool.eqb s t then Infinity s else NaN
  | Infinity s, Dec _ _ | Dec _ _, Infinity s => Infinity s
  | Dec m1 e1, Dec m2 e2 =>
      let e := Nat.max e1 e2 in
      Dec (m1 * pow10 (e - e1) + m2 * pow10 (e - e2)) e
  end.

Definition num_sub (a b : JsNumber) : JsNumber := num_add a (num_neg b).

Definition num_mul (a b : JsNumber) : JsNumber :=
  match a, b with
  | NaN, _ | _, NaN => NaN
  | Infinity s, Infinity t => Infinity (xorb s t)
  | Infinity s, Dec m _ | Dec m _, Infinity s =>
      if (m =? 0)%Z then NaN else Infinity (xorb s (m <? 0)%Z)
  | Dec m1 e1, Dec m2 e2 => Dec (m1 * m2) (e1 + e2)
  end.

(** [a < b] on numbers; a comparison with [NaN] is false. *)
Definition num_lt (a b : JsNumber) : bool :=
  match a, b with
  | NaN, _ | _, NaN => false
  | Infinity s, Infinity t => s && negb t
  | Infinity s, Dec _ _ => s
  | Dec _ _, Infinity t => negb t
  | Dec m1 e1, Dec m2 e2 => (m1 * pow10 e2 <? m2 * pow10 e1)%Z
  end.

(** [a === b] on numbers. *)
Definition num_eqb (a b : JsNumber) : bool :=
  match a, b with
  | Infinity s, Infinity t => Bool.eqb s t
  | Dec m1 e1, Dec m2 e2 => (m1 * pow10 e2 =? m2 * pow10 e1)%Z
  | _, _ => false
  end.

(** ToBoolean on numbers: [NaN] and zero are falsy. *)
Definition num_truthy (a : JsNumber) : bool :=
  match a with
  | NaN => false
  | Infinity _ => true
  | Dec m _ => negb (m =? 0)%Z
  end.

(** *** Decimal digits *)

Definition is_digit (c : ascii) : bool :=
  (48 <=? N_of_ascii c)%N && (N_of_ascii c <=? 57)%N.

Definition digit_val (c : ascii) : N := (N_of_ascii c - 48)%N.

Definition digit_char (d : N) : ascii := ascii_of_N (48 + d).

Definition N_of_digits (ds : list ascii) : N :=
  fold_left (fun acc c => (acc * 10 + digit_val c)%N) ds 0%N.

Fixpoint digits_fuel (fuel : nat) (n : N) (acc : list ascii) : list ascii :=
  match fuel with
  | O => acc
  | S f =>
      let acc' := digit_char (n mod 10) :: acc in
      if (n / 10 =? 0)%N then acc' else digits_fuel f (n / 10) acc'
  end.

Definition digits_of_N (n : N) : list ascii :=
  digits_fuel (S (N.to_nat (N.size n))) n [].

(** The representation of a finite number without trailing fractional
    zeros: [Dec 150 2] and [Dec 15 1] both print as ["1.5"]. *)
Fixpoint strip_zeros (m : Z) (e : nat) : Z * nat :=
  match e with
  | O => (m, O)
  | S e' => if (m mod 10 =? 0)%Z then strip_zeros (m / 10) e' else (m, e)
  end.

Definition print_dec (m : Z) (e : nat) : list ascii :=
  let '(m', e') := strip_zeros m e in
  let ds := digits_of_N (Z.abs_N m') in
  let padded := repeat "0"%char (S e' - length ds) ++ ds in
  let k := (length padded - e')%nat in
  let body :=
    match e' with
    | O => padded
    | S _ => take k padded ++ "."%char :: drop k padded
    end in
  if (m' <? 0)%Z then "-"%char :: body else body.

(** Number::toString.  Magnitudes from 1e21 and below 1e-6 are printed in
    positional notation as well, where the platform switches to exponent
    notation; both texts denote the same number. *)
Definition num_to_string (a : JsNumber) : string :=
  match a with
  | NaN => "NaN"
  | Infinity false => "Infinity"
  | Infinity true => "-Infinity"
  | Dec m e => string_of_list_ascii (print_dec m e)
  end.

(** *** Values

    The values the components handle are those born from JSON texts (the
    stored cart, the catalog records) together with [undefined] and the
    numbers computed from them.  An object is its list of own properties in
    insertion order, with distinct keys (the engine's moving of
    integer-like keys to the front is outside the model); an array carries
    its elements and the named properties assigned to it.  Values are
    compared by content: object identity appears only where a handler
    updates a line in place, and is spelled out there. *)

#[warnings="-register-all"]
Inductive JsValue : Type :=
| JUndefined
| JNull
| JBool (b : bool)
| JNum (n : JsNumber)
| JStr (s : string)
| JArr (elems : list JsValue) (own : list (string * JsValue))
| JObj (props : list (string * JsValue)).

(** Induction over values with the hypothesis for every element of an
    array and every property value of an object. *)
Definition JsValue_nested_ind (P : JsValue -> Prop)
    (Hundefined : P JUndefined) (Hnull : P JNull)
    (Hbool : forall b, P (JBool b)) (Hnum : forall n, P (JNum n))
    (Hstr : forall s, P (JStr s))
    (Harr : forall elems own, Forall P elems -> P (JArr elems own))
    (Hobj : forall props, Forall (fun p => P p.2) props -> P (JObj props))
  : forall v, P v :=
  fix go (v : JsValue) : P v :=
    match v with
    | JUndefined => Hundefined
    | JNull => Hnull
    | JBool b => Hbool b
    | JNum n => Hnum n
    | JStr s => Hstr s
    | JArr elems own =>
        Harr elems own
          ((fix all (vs : list JsValue) : Forall P vs :=
              match vs with
              | [] => List.Forall_nil P
              | x :: vs' => List.Forall_cons P x vs' (go x) (all vs')
              end) elems)
    | JObj props =>
        Hobj props
          ((fix all (ps : list (string * JsValue)) : Forall (fun p => P p.2) ps :=
              match ps with
              | [] => List.Forall_nil _
              | p :: ps' =>
                  List.Forall_cons (fun p => P p.2) p ps' (go p.2) (all ps')
              end) props)
    end.

Fixpoint assoc_get {A : Type} (k : string) (ps : list (string * A)) : option A :=
  match ps with
  | [] => None
  | (k', v) :: ps' => if String.eqb k k' then Some v else assoc_get k ps'
  end.

(** Assigning a property keeps the position of an existing key and appends
    a new one. *)
Fixpoint assoc_put {A : Type} (k : string) (v : A) (ps : list (string * A))
  : list (string * A) :=
  match ps with
  | [] => [(k, v)]
  | (k', v') :: ps' =>
      if String.eqb k k' then (k, v) :: ps' else (k', v') :: assoc_put k v ps'
  end.

(** *** Completions: a call returns normally or throws

    What is thrown is a built-in error or an arbitrary value (the reason of
    a rejected promise). *)

Inductive thrown : Type :=
| TypeError
| SyntaxError
| Reason (v : JsValue).

Inductive completion (A : Type) : Type :=
| Normal (a : A)
| Throw (e : thrown).

Arguments Normal {A} a.
Arguments Throw {A} e.

#[export] Instance completion_ret : MRet completion := @Normal.

#[export] Instance completion_bind : MBind completion :=
  fun A B f c => match c with Normal a => f a | Throw e => Throw e end.

(** [v.k] for a name [k] that is neither an array index nor defined by a
    built-in prototype ([length], [constructor], ...): the components read
    [price], [quantity], [name], [response], [request] and [status] only.
    Reading a property of [null] or [undefined] throws. *)
Definition get_prop (v : JsValue) (k : string) : completion JsValue :=
  match v with
  | JUndefined | JNull => Throw TypeError
  | JObj props => Normal (default JUndefined (assoc_get k props))
  | JArr _ own => Normal (default JUndefined (assoc_get k own))
  | JBool _ | JNum _ | JStr _ => Normal JUndefined
  end.

(** [v.k = x] in strict-mode code (every source file is an ES module):
    assigning to a property of a primitive throws. *)
Definition set_prop (v : JsValue) (k : string) (x : JsValue) : completion JsValue :=
  match v with
  | JObj props => Normal (JObj (assoc_put k x props))
  | JArr elems own => Normal (JArr elems (assoc_put k x own))
  | _ => Throw TypeError
  end.

(** Array.isArray, and the elements of an array. *)
Definition is_array (v : JsValue) : bool :=
  match v with JArr _ _ => true | _ => false end.

Definition array_elems (v : JsValue) : list JsValue :=
  match v with JArr elems _ => elems | _ => [] end.

(** ToBoolean. *)
Definition truthy (v : JsValue) : bool :=
  match v with
  | JUndefined | JNull => false
  | JBool b => b
  | JNum n => num_truthy n
  | JStr s => negb (String.eqb s "")
  | JArr _ _ | JObj _ => true
  end.

(** [a || b]. *)
Definition js_or (a b : JsValue) : JsValue := if truthy a then a else b.

(** *** Strings

    A string is the sequence of bytes of its UTF-8 encoding.  White space is
    recognised in the ASCII range (TAB, LF, VT, FF, CR, SP); the platform
    knows white space outside that range too, which [Scope] lists, so
    [trim], the class [\s] and the conversion of a string to a number are
    those of the platform on the texts that have none of it. *)

Definition is_ws (c : ascii) : bool :=
  let n := N_of_ascii c in
  ((9 <=? n)%N && (n <=? 13)%N) || (n =? 32)%N.

(** The double quote. *)
Definition dquote : ascii := "034"%char.

(** [c] is one of the characters of [cs]. *)
Definition one_of (cs : string) (c : ascii) : bool :=
  existsb (Ascii.eqb c) (list_ascii_of_string cs).

Fixpoint drop_ws (s : list ascii) : list ascii :=
  match s with
  | c :: s' => if is_ws c then drop_ws s' else s
  | [] => []
  end.

Definition trim_chars (s : list ascii) : list ascii :=
  rev (drop_ws (rev (drop_ws s))).

(** String.prototype.trim *)
Definition trim (s : string) : string :=
  string_of_list_ascii (trim_chars (list_ascii_of_string s)).

(** Array.prototype.join on strings. *)
Definition join (sep : string) (ss : list string) : string :=
  String.concat sep ss.

(** *** Numeric literals *)

Fixpoint span_digits (s : list ascii) : list ascii * list ascii :=
  match s with
  | c :: s' =>
      if is_digit c then let '(ds, r) := span_digits s' in (c :: ds, r)
      else ([], s)
  | [] => ([], [])
  end.

Definition scan_sign (s : list ascii) : bool * list ascii :=
  match s with
  | c :: s' =>
      if Ascii.eqb c "-" then (true, s')
      else if Ascii.eqb c "+" then (false, s')
      else (false, s)
  | [] => (false, s)
  end.

(** The exponent part [e±ddd], when one is present with at least one
    digit. *)
Definition scan_exponent (s : list ascii) : option Z * list ascii :=
  match s with
  | c :: s' =>
      if Ascii.eqb c "e" || Ascii.eqb c "E" then
        let '(neg, s1) := scan_sign s' in
        match span_digits s1 with
        | ([], _) => (None, s)
        | (ds, r) =>
            let x := Z.of_N (N_of_digits ds) in
            (Some (if neg then (- x)%Z else x), r)
        end
      else (None, s)
  | [] => (None, [])
  end.

(** Integer digits, optional fraction (the digits after a dot, when there
    is a dot), optional exponent, and the unread rest. *)
Definition scan_decimal (s : list ascii)
  : list ascii * option (list ascii) * option Z * list ascii :=
  let '(i, s1) := span_digits s in
  let '(f, s2) :=
    match s1 with
    | c :: s1' =>
        if Ascii.eqb c "." then let '(fd, r) := span_digits s1' in (Some fd, r)
        else (None, s1)
    | [] => (None, s1)
    end in
  let '(x, s3) := scan_exponent s2 in
  (i, f, x, s3).

Definition dec_value (neg : bool) (i : list ascii) (f : option (list ascii))
    (x : option Z) : JsNumber :=
  let fd := default [] f in
  let mant := Z.of_N (N_of_digits (i ++ fd)) in
  let mant := if neg then (- mant)%Z else mant in
  let x := default 0%Z x in
  if (0 <=? x)%Z then Dec (mant * 10 ^ x) (length fd)
  else Dec mant (length fd + Z.to_nat (- x)).

Definition radix_digit (radix : N) (c : ascii) : option N :=
  let n := N_of_ascii c in
  let d :=
    if is_digit c then Some (n - 48)%N
    else if (97 <=? n)%N && (n <=? 102)%N then Some (n - 87)%N
    else if (65 <=? n)%N && (n <=? 70)%N then Some (n - 55)%N
    else None in
  match d with
  | Some d => if (d <? radix)%N then Some d else None
  | None => None
  end.

Fixpoint radix_value (radix : N) (s : list ascii) (acc : N) : option N :=
  match s with
  | [] => Some acc
  | c :: s' =>
      match radix_digit radix c with
      | Some d => radix_value radix s' (acc * radix + d)%N
      | None => None
      end
  end.

(** [0x], [0o] and [0b] literals of StringToNumber. *)
Definition nondecimal_literal (s : list ascii) : option JsNumber :=
  match s with
  | "0"%char :: p :: (_ :: _) as ds =>
      let radix :=
        if Ascii.eqb p "x" || Ascii.eqb p "X" then Some 16%N
        else if Ascii.eqb p "o" || Ascii.eqb p "O" then Some 8%N
        else if Ascii.eqb p "b" || Ascii.eqb p "B" then Some 2%N
        else None in
      match radix with
      | Some r => (fun n => Int (Z.of_N n)) <$> radix_value r ds 0%N
      | None => None
      end
  | _ => None
  end.

Definition decimal_literal (s : list ascii) : option JsNumber :=
  let '(neg, s1) := scan_sign s in
  if decide (s1 = list_ascii_of_string "Infinity") then Some (Infinity neg)
  else
    match scan_decimal s1 with
    | (i, f, x, []) =>
        match i, default [] f with
        | [], [] => None
        | _, _ => Some (dec_value neg i f x)
        end
    | _ => None
    end.

(** StringToNumber: the empty or blank string is 0, a string that is not a
    numeric literal is [NaN]. *)
Definition string_to_number (s : string) : JsNumber :=
  match trim_chars (list_ascii_of_string s) with
  | [] => Int 0
  | t =>
      match nondecimal_literal t with
      | Some n => n
      | None => default NaN (decimal_literal t)
      end
  end.

(** *** ToString and ToNumber

    Both are total here.  On the platform the conversion of an object calls
    its [toString], and throws a TypeError when the object has an own
    property of that name that is not a function; [Scope] names the values
    on which this cannot happen. *)

Fixpoint to_string (v : JsValue) : string :=
  match v with
  | JUndefined => "undefined"
  | JNull => "null"
  | JBool true => "true"
  | JBool false => "false"
  | JNum n => num_to_string n
  | JStr s => s
  | JArr elems _ =>
      join ","
        (map (fun x => match x with
                       | JUndefined | JNull => ""
                       | _ => to_string x
                       end) elems)
  | JObj _ => "[object Object]"
  end.

(** ToNumber; an object or array is first converted to its string. *)
Definition to_number (v : JsValue) : JsNumber :=
  match v with
  | JUndefined => NaN
  | JNull => Int 0
  | JBool true => Int 1
  | JBool false => Int 0
  | JNum n => n
  | JStr s => string_to_number s
  | JArr _ _ | JObj _ => string_to_number (to_string v)
  end.

(** *** JSON texts

    [JSON.parse] and [JSON.stringify] as a lexer, a parser over tokens and a
    printer.  The grammar is that of ECMA-404: white space is SP, TAB, LF
    and CR; a string has no raw control character; a number has no leading
    zero. *)

Inductive token : Type :=
| TLBrace | TRBrace | TLBracket | TRBracket | TColon | TComma
| TString (s : string)
| TNumber (n : JsNumber)
| TTrue | TFalse | TNull.

Definition is_json_ws (c : ascii) : bool :=
  let n := N_of_ascii c in
  (n =? 32)%N || (n =? 9)%N || (n =? 10)%N || (n =? 13)%N.

(** UTF-8 bytes of a code point below 0x110000. *)
Definition utf8_encode (cp : N) : list ascii :=
  let cont (n : N) := ascii_of_N (128 + n mod 64) in
  if (cp <? 128)%N then [ascii_of_N cp]
  else if (cp <? 2048)%N then [ascii_of_N (192 + cp / 64); cont cp]
  else if (cp <? 65536)%N then
    [ascii_of_N (224 + cp / 4096); cont (cp / 64)%N; cont cp]
  else
    [ascii_of_N (240 + cp / 262144); cont (cp / 4096)%N; cont (cp / 64)%N;
     cont cp].

Definition hex4 (a b c d : ascii) : option N :=
  radix_value 16 [a; b; c; d] 0%N.

Definition is_high_surrogate (cu : N) : bool :=
  (55296 <=? cu)%N && (cu <? 56320)%N.

Definition is_low_surrogate (cu : N) : bool :=
  (56320 <=? cu)%N && (cu <? 57344)%N.

Definition simple_escape (c : ascii) : option ascii :=
  if Ascii.eqb c dquote then Some dquote
  else if Ascii.eqb c "\" then Some "\"%char
  else if Ascii.eqb c "/" then Some "/"%char
  else if Ascii.eqb c "b" then Some "008"%char
  else if Ascii.eqb c "f" then Some "012"%char
  else if Ascii.eqb c "n" then Some "010"%char
  else if Ascii.eqb c "r" then Some "013"%char
  else if Ascii.eqb c "t" then Some "009"%char
  else None.

(** The characters of a string literal after its opening quote, decoded,
    and the text after the closing quote. *)
Fixpoint lex_string (s : list ascii) : option (list ascii * list ascii) :=
  match s with
  | [] => None
  | c :: s' =>
      if Ascii.eqb c dquote then Some ([], s')
      else if Ascii.eqb c "\" then
        match s' with
        | "u"%char :: h1 :: h2 :: h3 :: h4 :: s2 =>
            match hex4 h1 h2 h3 h4 with
            | None => None
            | Some cu =>
                let single :=
                  match lex_string s2 with
                  | Some (str, r) => Some (utf8_encode cu ++ str, r)
                  | None => None
                  end in
                if is_high_surrogate cu then
                  match s2 with
                  | "\"%char :: "u"%char :: g1 :: g2 :: g3 :: g4 :: s3 =>
                      match hex4 g1 g2 g3 g4 with
                      | Some lo =>
                          if is_low_surrogate lo then
                            let cp := (65536 + (cu - 55296) * 1024 + (lo - 56320))%N in
                            match lex_string s3 with
                            | Some (str, r) => Some (utf8_encode cp ++ str, r)
                            | None => None
                            end
                          else single
                      | None => single
                      end
                  | _ => single
                  end
                else single
            end
        | e :: s2 =>
            match simple_escape e with
            | Some d =>
                match lex_string s2 with
                | Some (str, r) => Some (d :: str, r)
                | None => None
                end
            | None => None
            end
        | [] => None
        end
      else if (N_of_ascii c <? 32)%N then None
      else
        match lex_string s' with
        | Some (str, r) => Some (c :: str, r)
        | None => None
        end
  end.

(** A number token: [-? int frac? exp?] with [int] either ["0"] or free of
    leading zeros and [frac] non-empty when there is a dot. *)
Definition lex_number (s : list ascii) : option (JsNumber * list ascii) :=
  let '(neg, s1) :=
    match s with
    | c :: s' => if Ascii.eqb c "-" then (true, s') else (false, s)
    | [] => (false, s)
    end in
  let '(i, f, x, r) := scan_decimal s1 in
  let int_ok :=
    match i with
    | [] => false
    | d :: i' =>
        negb (Ascii.eqb d "0") || match i' with [] => true | _ :: _ => false end
    end in
  let frac_ok := match f with Some [] => false | _ => true end in
  if int_ok && frac_ok then Some (dec_value neg i f x, r) else None.

Fixpoint strip_prefix (p s : list ascii) : option (list ascii) :=
  match p, s with
  | [], _ => Some s
  | a :: p', b :: s' => if Ascii.eqb a b then strip_prefix p' s' else None
  | _ :: _, [] => None
  end.

Definition punctuation (c : ascii) : option token :=
  if Ascii.eqb c "{" then Some TLBrace
  else if Ascii.eqb c "}" then Some TRBrace
  else if Ascii.eqb c "[" then Some TLBracket
  else if Ascii.eqb c "]" then Some TRBracket
  else if Ascii.eqb c ":" then Some TColon
  else if Ascii.eqb c "," then Some TComma
  else None.

Definition keyword (s : list ascii) : option (token * list ascii) :=
  match strip_prefix (list_ascii_of_string "true") s with
  | Some r => Some (TTrue, r)
  | None =>
      match strip_prefix (list_ascii_of_string "false") s with
      | Some r => Some (TFalse, r)
      | None =>
          match strip_prefix (list_ascii_of_string "null") s with
          | Some r => Some (TNull, r)
          | None => None
          end
      end
  end.

(** The first token of a text that does not start with white space. *)
Definition lex_token (s : list ascii) : option (token * list ascii) :=
  match s with
  | [] => None
  | c :: s' =>
      match punctuation c with
      | Some t => Some (t, s')
      | None =>
          if Ascii.eqb c dquote then
            match lex_string s' with
            | Some (str, r) => Some (TString (string_of_list_ascii str), r)
            | None => None
            end
          else if Ascii.eqb c "-" || is_digit c then
            match lex_number s with
            | Some (n, r) => Some (TNumber n, r)
            | None => None
            end
          else keyword s
      end
  end.

Fixpoint lex (fuel : nat) (s : list ascii) : option (list token) :=
  match fuel with
  | O => None
  | S fuel' =>
      match s with
      | [] => Some []
      | c :: s' =>
          if is_json_ws c then lex fuel' s'
          else
            match lex_token s with
            | Some (t, r) => cons t <$> lex fuel' r
            | None => None
            end
      end
  end.

(** A value, and the tokens after it.  An object keeps one property per
    key: a repeated key overwrites the value at the key's first position. *)
Fixpoint parse_value (fuel : nat) (ts : list token) : option (JsValue * list token) :=
  match fuel with
  | O => None
  | S fuel' =>
      match ts with
      | TNull :: r => Some (JNull, r)
      | TTrue :: r => Some (JBool true, r)
      | TFalse :: r => Some (JBool false, r)
      | TNumber n :: r => Some (JNum n, r)
      | TString s :: r => Some (JStr s, r)
      | TLBracket :: TRBracket :: r => Some (JArr [] [], r)
      | TLBracket :: r =>
          match parse_elements fuel' r with
          | Some (vs, r') => Some (JArr vs [], r')
          | None => None
          end
      | TLBrace :: TRBrace :: r => Some (JObj [], r)
      | TLBrace :: r =>
          match parse_members fuel' [] r with
          | Some (ps, r') => Some (JObj ps, r')
          | None => None
          end
      | _ => None
      end
  end
with parse_elements (fuel : nat) (ts : list token) : option (list JsValue * list token) :=
  match fuel with
  | O => None
  | S fuel' =>
      match parse_value fuel' ts with
      | Some (v, TComma :: r) =>
          match parse_elements fuel' r with
          | Some (vs, r') => Some (v :: vs, r')
          | None => None
          end
      | Some (v, TRBracket :: r) => Some ([v], r)
      | _ => None
      end
  end
with parse_members (fuel : nat) (acc : list (string * JsValue)) (ts : list token)
  : option (list (string * JsValue) * list token) :=
  match fuel with
  | O => None
  | S fuel' =>
      match ts with
      | TString k :: TColon :: r =>
          match parse_value fuel' r with
          | Some (v, TComma :: r') => parse_members fuel' (assoc_put k v acc) r'
          | Some (v, TRBrace :: r') => Some (assoc_put k v acc, r')
          | _ => None
          end
      | _ => None
      end
  end.

(** JSON.parse: the text is one value, or a [SyntaxError] is thrown. *)
Definition JSON_parse (text : string) : completion JsValue :=
  let s := list_ascii_of_string text in
  match lex (S (length s)) s with
  | Some ts =>
      match parse_value (S (length ts)) ts with
      | Some (v, []) => Normal v
      | _ => Throw SyntaxError
      end
  | None => Throw SyntaxError
  end.

(** QuoteJSONString without the surrounding quotes. *)
Definition hex_digit (n : N) : ascii :=
  if (n <? 10)%N then ascii_of_N (48 + n) else ascii_of_N (87 + n).

Definition escape_char (c : ascii) : list ascii :=
  let n := N_of_ascii c in
  if Ascii.eqb c dquote then ["\"%char; dquote]
  else if Ascii.eqb c "\" then ["\"; "\"]%char
  else if (n =? 8)%N then ["\"; "b"]%char
  else if (n =? 12)%N then ["\"; "f"]%char
  else if (n =? 10)%N then ["\"; "n"]%char
  else if (n =? 13)%N then ["\"; "r"]%char
  else if (n =? 9)%N then ["\"; "t"]%char
  else if (n <? 32)%N then
    ["\"; "u"; "0"; "0"; hex_digit (n / 16); hex_digit (n mod 16)]%char
  else [c].

Definition quote_chars (s : list ascii) : list ascii :=
  dquote :: concat (map escape_char s) ++ [dquote].

Definition token_text (t : token) : list ascii :=
  match t with
  | TLBrace => ["{"%char]
  | TRBrace => ["}"%char]
  | TLBracket => ["["%char]
  | TRBracket => ["]"%char]
  | TColon => [":"%char]
  | TComma => [","%char]
  | TString s => quote_chars (list_ascii_of_string s)
  | TNumber (Dec m e) => print_dec m e
  | TNumber _ => list_ascii_of_string "null"
  | TTrue => list_ascii_of_string "true"
  | TFalse => list_ascii_of_string "false"
  | TNull => list_ascii_of_string "null"
  end.

(** A number token ends where the text ends or continues with a character
    that cannot extend it. *)
Definition number_end (rest : list ascii) : bool :=
  match rest with
  | [] => true
  | c :: _ => negb (is_digit c || one_of ".eE" c)
  end.

Definition text_of (ts : list token) : list ascii :=
  concat (map token_text ts).

(** A token whose text, followed by [rest], is read back as that token. *)
Definition token_fits (t : token) (rest : list ascii) : Prop :=
  match t with
  | TNumber (Dec m e) => strip_zeros m e = (m, e) ∧ number_end rest = true
  | TNumber _ => False
  | _ => True
  end.

Fixpoint tokens_fit (ts : list token) : Prop :=
  match ts with
  | [] => True
  | t :: ts' => token_fits t (text_of ts') ∧ tokens_fit ts'
  end.

Definition is_undefined (v : JsValue) : bool :=
  match v with JUndefined => true | _ => false end.

(** The tokens of a value inside an array or as a property value:
    [undefined] and non-finite numbers become [null]; a property whose value
    is [undefined] is left out; the named properties of an array are not
    serialised. *)
Fixpoint tokens_of (v : JsValue) : list token :=
  match v with
  | JUndefined | JNull => [TNull]
  | JBool true => [TTrue]
  | JBool false => [TFalse]
  | JNum (Dec m e) => [TNumber (Dec m e)]
  | JNum _ => [TNull]
  | JStr s => [TString s]
  | JArr elems _ =>
      TLBracket ::
      (fix elements (vs : list JsValue) : list token :=
         match vs with
         | [] => [TRBracket]
         | [x] => tokens_of x ++ [TRBracket]
         | x :: vs' => tokens_of x ++ TComma :: elements vs'
         end) elems
  | JObj props =>
      TLBrace ::
      (fix members (first : bool) (ps : list (string * JsValue)) : list token :=
         match ps with
         | [] => [TRBrace]
         | (k, x) :: ps' =>
             if is_undefined x then members first ps'
             else
               (if first then [] else [TComma]) ++
               TString k :: TColon :: tokens_of x ++ members false ps'
         end) true props
  end.

Definition elements_tokens : list JsValue -> list token :=
  fix elements (vs : list JsValue) : list token :=
    match vs with
    | [] => [TRBracket]
    | [x] => tokens_of x ++ [TRBracket]
    | x :: vs' => tokens_of x ++ TComma :: elements vs'
    end.

Definition members_tokens : bool -> list (string * JsValue) -> list token :=
  fix members (first : bool) (ps : list (string * JsValue)) : list token :=
    match ps with
    | [] => [TRBrace]
    | (k, x) :: ps' =>
        if is_undefined x then members first ps'
        else
          (if first then [] else [TComma]) ++
          TString k :: TColon :: tokens_of x ++ members false ps'
    end.

(** JSON.stringify(v): a text, or [undefined] ([None]) for [undefined]. *)
Definition JSON_stringify (v : JsValue) : option string :=
  match v with
  | JUndefined => None
  | _ => Some (string_of_list_ascii (text_of (tokens_of v)))
  end.

(** *** Values that a JSON text represents exactly

    No [undefined], no [NaN] or infinity, numbers without trailing
    fractional zeros, arrays without named properties, objects with
    distinct keys. *)

Fixpoint distinct_keys {A : Type} (ps : list (string * A)) : bool :=
  match ps with
  | [] => true
  | (k, _) :: ps' =>
      match assoc_get k ps' with
      | None => distinct_keys ps'
      | Some _ => false
      end
  end.

Fixpoint serializable (v : JsValue) : bool :=
  match v with
  | JUndefined => false
  | JNull | JBool _ | JStr _ => true
  | JNum (Dec m e) => bool_decide (strip_zeros m e = (m, e))
  | JNum _ => false
  | JArr elems own =>
      match own with [] => forallb serializable elems | _ :: _ => false end
  | JObj props =>
      distinct_keys props && forallb (fun p => serializable p.2) props
  end.

(** [a === n] for a number [n]. *)
Definition strict_eq_num (a : JsValue) (n : JsNumber) : bool :=
  match a with JNum m => num_eqb m n | _ => false end.

(** An own property of what a [catch] clause receives; a built-in error
    object has none of the properties the handlers look for. *)
Definition thrown_prop (e : thrown) (k : string) : completion JsValue :=
  match e with
  | Reason v => get_prop v k
  | TypeError | SyntaxError => Normal JUndefined
  end.

(** *** Regular expressions

    Anchored patterns ([^...$], no flags) matched by derivatives. *)

Inductive regex : Type :=
| Void
| Eps
| Chr (p : ascii -> bool)
| Seq (r1 r2 : regex)
| Alt (r1 r2 : regex)
| Star (r : regex).

Definition Opt (r : regex) : regex := Alt r Eps.
Definition Plus (r : regex) : regex := Seq r (Star r).

Fixpoint nullable (r : regex) : bool :=
  match r with
  | Void | Chr _ => false
  | Eps | Star _ => true
  | Seq r1 r2 => nullable r1 && nullable r2
  | Alt r1 r2 => nullable r1 || nullable r2
  end.

Fixpoint deriv (c : ascii) (r : regex) : regex :=
  match r with
  | Void | Eps => Void
  | Chr p => if p c then Eps else Void
  | Seq r1 r2 =>
      if nullable r1 then Alt (Seq (deriv c r1) r2) (deriv c r2)
      else Seq (deriv c r1) r2
  | Alt r1 r2 => Alt (deriv c r1) (deriv c r2)
  | Star r1 => Seq (deriv c r1) (Star r1)
  end.

(** RegExp.prototype.test for an anchored pattern. *)
Definition regex_test (r : regex) (s : string) : bool :=
  nullable (fold_left (fun r c => deriv c r) (list_ascii_of_string s) r).

(** *** Handlers: state passing with exceptions

    The state survives a throw, as the heap does in JavaScript. *)

Definition action (S A : Type) : Type := S -> completion A * S.

#[export] Instance action_ret {S} : MRet (action S) :=
  fun A a s => (Normal a, s).

#[export] Instance action_bind {S} : MBind (action S) :=
  fun A B f m s =>
    match m s with
    | (Normal a, s') => f a s'
    | (Throw e, s') => (Throw e, s')
    end.

Definition lift {S A} (c : completion A) : action S A := fun s => (c, s).

Definition gets {S A} (f : S -> A) : action S A := fun s => (Normal (f s), s).

Definition modify {S} (f : S -> S) : action S unit := fun s => (Normal tt, f s).

(** [try { body } catch (e) { handler e }] *)
Definition try_catch {S A} (body : action S A) (handler : thrown -> action S A)
  : action S A :=
  fun s =>
    match body s with
    | (Throw e, s') => handler e s'
    | completed => completed
    end.

(** [try { body } finally { cleanup }] *)
Definition try_finally {S A} (body : action S A) (cleanup : action S unit)
  : action S A :=
  fun s =>
    let '(r, s1) := body s in
    match cleanup s1 with
    | (Normal _, s2) => (r, s2)
    | (Throw e, s2) => (Throw e, s2)
    end.

(** *** The browser: localStorage, window events, console, network

    Storage access is taken to be reliable (no quota or security error).
    [trace] lists what the page did to its environment, oldest first.
    [clock n] is the value of the [n]-th evaluation of
    [Date.now() + Math.random()]. *)

Inductive effect : Type :=
| SetItem (key value : string)
| Clear
| DispatchEvent (name : string)
| ConsoleError (label : string)
| ConsoleLog (label : string)
| HttpPost (path : string) (body : JsValue).

Record Browser : Type := {
  localStorage : gmap string string;
  trace : list effect;
  clock : nat -> JsNumber;
  ticks : nat
}.

Definition emit (e : effect) (b : Browser) : Browser :=
  {| localStorage := localStorage b; trace := trace b ++ [e];
     clock := clock b; ticks := ticks b |}.

Definition store (f : gmap string string -> gmap string string) (b : Browser)
  : Browser :=
  {| localStorage := f (localStorage b); trace := trace b;
     clock := clock b; ticks := ticks b |}.

Definition tick (b : Browser) : Browser :=
  {| localStorage := localStorage b; trace := trace b;
     clock := clock b; ticks := S (ticks b) |}.

Section BrowserActions.
Context {St : Type}.

Definition in_browser (f : Browser -> Browser) : action (St * Browser) unit :=
  modify (fun w => (w.1, f w.2)).

Definition in_state (f : St -> St) : action (St * Browser) unit :=
  modify (fun w => (f w.1, w.2)).

(** localStorage.getItem(key): the stored string, or [null]. *)
Definition getItem (key : string) : action (St * Browser) (option string) :=
  gets (fun w => localStorage w.2 !! key).

(** localStorage.setItem(key, value) *)
Definition setItem (key value : string) : action (St * Browser) unit :=
  in_browser (fun b => emit (SetItem key value) (store <[key := value]> b)).

(** localStorage.clear() *)
Definition clear : action (St * Browser) unit :=
  in_browser (fun b => emit Clear (store (fun _ => ∅) b)).

(** window.dispatchEvent(new Event(name)).  The event is recorded in the
    trace.  The platform calls the listeners registered for the event
    before [dispatchEvent] returns; here a listener (the [handleCartUpdate]
    of a mounted component) is a step of its own, to be run after the
    handler that dispatched.  The state updates of a handler and of the
    listener it triggers are applied together and the listener's come
    last, so what the page shows after a click is the state after both. *)
Definition dispatchEvent (name : string) : action (St * Browser) unit :=
  in_browser (emit (DispatchEvent name)).

Definition console_error (label : string) : action (St * Browser) unit :=
  in_browser (emit (ConsoleError label)).

Definition console_log (label : string) : action (St * Browser) unit :=
  in_browser (emit (ConsoleLog label)).

(** Date.now() + Math.random() *)
Definition now_plus_random : action (St * Browser) JsNumber :=
  fun w => (Normal (clock w.2 (ticks w.2)), (w.1, tick w.2)).

End BrowserActions.

(** The truthiness of a string that may be missing ([null] from [getItem],
    an absent property): only a non-empty string is truthy. *)
Definition opt_truthy (s : option string) : bool :=
  match s with
  | Some s => negb (String.eqb s "")
  | None => false
  end.

(** Number.prototype.toFixed(2): two fraction digits, ties rounded up in
    magnitude.  This is the rounding of the exact decimal; the platform
    rounds the binary64 value, which can fall on the other side of a tie
    (1.005 is shown as 1.00).  On whole numbers the two agree. *)
Definition to_fixed2 (a : JsNumber) : string :=
  match a with
  | Dec m e =>
      let n := ((Z.abs m * 200 + pow10 e) / (2 * pow10 e))%Z in
      let ds := digits_of_N (Z.to_N n) in
      let padded := repeat "0"%char (3 - length ds) ++ ds in
      let k := (length padded - 2)%nat in
      let body := take k padded ++ "."%char :: drop k padded in
      string_of_list_ascii (if (m <? 0)%Z then "-"%char :: body else body)
  | _ => num_to_string a
  end.

(** The string [setItem] stores for the result of [JSON.stringify]. *)
Definition stored_text (text : option string) : string :=
  default "undefined" text.

End Js.

(** ** The notification hook (useNotifications) *)

Module Notifications.
Import Js.

Inductive kind : Type := success | error | warning | info.

Record Notification : Type := {
  id : JsNumber;
  message : string;
  type : kind;
  duration : Z
}.

(** A component that calls [useNotifications] holds the hook's
    [notifications] state. *)
Class UsesNotifications (St : Type) : Type := {
  notifications : St -> list Notification;
  setNotifications : (list Notification -> list Notification) -> St -> St;
  notifications_set f st : notifications (setNotifications f st) = f (notifications st)
}.

(** [prev => prev.filter(notification => notification.id !== id)] *)
Definition without (id0 : JsNumber) (prev : list Notification) : list Notification :=
  List.filter (fun notification => negb (num_eqb (id notification) id0)) prev.

Section Hook.
Context {St : Type} `{UsesNotifications St}.

Definition addNotification (message : string) (type : option kind)
    (duration : option Z) : action (St * Browser) unit :=
  id ← now_plus_random;
  let newNotification :=
    {| id := id; message := message; type := default success type;
       duration := default 3000%Z duration |} in
  in_state (setNotifications (fun prev => prev ++ [newNotification])).

Definition removeNotification (id : JsNumber) : action (St * Browser) unit :=
  in_state (setNotifications (without id)).

Definition showSuccess (message : string) (duration : option Z) :=
  addNotification message (Some success) duration.
Definition showError (message : string) (duration : option Z) :=
  addNotification message (Some error) duration.
Definition showWarning (message : string) (duration : option Z) :=
  addNotification message (Some warning) duration.
Definition showInfo (message : string) (duration : option Z) :=
  addNotification message (Some info) duration.

(** What reaches the hook from a mounted <Notification>: the auto-dismiss
    timer and the close button both run [handleClose], whose delayed
    callback calls [onClose], bound by the list to
    [removeNotification(notification.id)].  Delays are not modelled, only
    the order in which the callbacks run. *)
Inductive signal : Type :=
| TimerElapsed (id : JsNumber)
| CloseClicked (id : JsNumber).

(** The id the list bound into the [onClose] of that <Notification>. *)
Definition signal_id (s : signal) : JsNumber :=
  match s with
  | TimerElapsed id | CloseClicked id => id
  end.

Definition onClose (s : signal) : action (St * Browser) unit :=
  removeNotification (signal_id s).

(** The callbacks of [ss] run one after the other. *)
Fixpoint deliver (ss : list signal) : action (St * Browser) unit :=
  match ss with
  | [] => mret tt
  | s :: ss' => onClose s;; deliver ss'
  end.

End Hook.

End Notifications.

(** ** Form validation results *)

Module Form.

(** [{ isValid, error, missingFields }]; an absent property is [None]. *)
Record Validation : Type := {
  isValid : bool;
  error : option string;
  missingFields : option (list string)
}.

End Form.

(** ** The cart counter of the navigation bar (components/cart.jsx) *)

Module CartBadge.
Import Js.

Record State : Type := { cart : list JsValue }.

Abbreviation World := (State * Browser)%type.

Definition setCart (c : list JsValue) : action World unit :=
  in_state (fun _ => {| cart := c |}).

Definition loadCartFromStorage : action World unit :=
  savedCart ← getItem "cart";
  if opt_truthy savedCart then
    try_catch
      (parsedCart ← lift (JSON_parse (default "" savedCart));
       setCart (if is_array parsedCart then array_elems parsedCart else []))
      (fun error =>
         console_error "Error parsing cart from localStorage:";;
         setCart [])
  else setCart [].

(** The listener the mount effect registers for "cartUpdated". *)
Definition handleCartUpdate : action World unit := loadCartFromStorage.

End CartBadge.

(** ** The catalog (components/products.jsx)

    The cart of the catalog; its overlay and carousel are in [Overlay]. *)

Module Products.
Import Js Notifications.

Record State : Type := {
  products : list JsValue;
  cart : list JsValue;
  notes : list Notification
}.

Abbreviation World := (State * Browser)%type.

#[global] Instance uses_notifications : UsesNotifications State := {|
  notifications := notes;
  setNotifications f st :=
    {| products := products st; cart := cart st; notes := f (notes st) |};
  notifications_set f st := eq_refl
|}.

Definition setCart (f : list JsValue -> list JsValue) : action World unit :=
  in_state (fun st =>
    {| products := products st; cart := f (cart st); notes := notes st |}).

(** The first effect: initialise the cart from localStorage on mount. *)
Definition load_effect : action World unit :=
  savedCart ← getItem "cart";
  if opt_truthy savedCart then
    try_catch
      (parsedCart ← lift (JSON_parse (default "" savedCart));
       setCart (fun _ => if is_array parsedCart then array_elems parsedCart else []))
      (fun error =>
         console_error "Error parsing cart from localStorage:";;
         setCart (fun _ => []))
  else mret tt.

(** The second effect, run after each render in which [cart] changed. *)
Definition persist_effect : action World unit :=
  cart ← gets (fun w : World => cart w.1);
  if (0 <? length cart)%nat then
    setItem "cart" (stored_text (JSON_stringify (JArr cart [])));;
    dispatchEvent "cartUpdated"
  else mret tt.

Definition addCart (product : JsValue) : action World unit :=
  setCart (fun prev => prev ++ [product]);;
  name ← lift (get_prop product "name");
  showSuccess (to_string name +:+ " added to cart successfully! 🛒") (Some 3000%Z).

End Products.

(** ** The checkout form and order summary *)

Module Checkout.
Import Js Notifications Form.

Record State : Type := {
  cart : list JsValue;
  fName : string;
  lName : string;
  adress : string;
  phone : string;
  building : string;
  apart : string;
  isLoading : bool;
  notes : list Notification
}.

Abbreviation World := (State * Browser)%type.

Definition with_cart (c : list JsValue) (st : State) : State :=
  {| cart := c; fName := fName st; lName := lName st; adress := adress st;
     phone := phone st; building := building st; apart := apart st;
     isLoading := isLoading st; notes := notes st |}.

Definition with_fields (f l a p b ap : string) (st : State) : State :=
  {| cart := cart st; fName := f; lName := l; adress := a; phone := p;
     building := b; apart := ap; isLoading := isLoading st; notes := notes st |}.

Definition with_isLoading (v : bool) (st : State) : State :=
  {| cart := cart st; fName := fName st; lName := lName st; adress := adress st;
     phone := phone st; building := building st; apart := apart st;
     isLoading := v; notes := notes st |}.

#[global] Instance uses_notifications : UsesNotifications State := {|
  notifications := notes;
  setNotifications f st :=
    {| cart := cart st; fName := fName st; lName := lName st;
       adress := adress st; phone := phone st; building := building st;
       apart := apart st; isLoading := isLoading st; notes := f (notes st) |};
  notifications_set f st := eq_refl
|}.

Definition setCart (c : list JsValue) : action World unit :=
  in_state (with_cart c).
Definition setfName (v : string) : action World unit :=
  in_state (fun st => with_fields v (lName st) (adress st) (phone st) (building st) (apart st) st).
Definition setlName (v : string) : action World unit :=
  in_state (fun st => with_fields (fName st) v (adress st) (phone st) (building st) (apart st) st).
Definition setAdress (v : string) : action World unit :=
  in_state (fun st => with_fields (fName st) (lName st) v (phone st) (building st) (apart st) st).
Definition setPhone (v : string) : action World unit :=
  in_state (fun st => with_fields (fName st) (lName st) (adress st) v (building st) (apart st) st).
Definition setBuilding (v : string) : action World unit :=
  in_state (fun st => with_fields (fName st) (lName st) (adress st) (phone st) v (apart st) st).
Definition setApart (v : string) : action World unit :=
  in_state (fun st => with_fields (fName st) (lName st) (adress st) (phone st) (building st) v st).
Definition setIsLoading (v : bool) : action World unit :=
  in_state (with_isLoading v).

Definition loadCartFromStorage : action World unit :=
  savedCart ← getItem "cart";
  if opt_truthy savedCart then
    try_catch
      (parsedCart ← lift (JSON_parse (default "" savedCart));
       setCart (if is_array parsedCart then array_elems parsedCart else []))
      (fun error =>
         console_error "Error parsing cart from localStorage:";;
         setCart [];;
         showError "Error loading cart data. Cart has been reset." (Some 3000%Z))
  else setCart [].

Definition saveCartToStorage (updatedCart : list JsValue) : action World unit :=
  setCart updatedCart;;
  setItem "cart" (stored_text (JSON_stringify (JArr updatedCart [])));;
  dispatchEvent "cartUpdated".

(** The listener the mount effect registers for "cartUpdated"; the mount
    effect itself starts with the same call. *)
Definition handleCartUpdate : action World unit := loadCartFromStorage.

(** The contribution of [cart[i]] to the subtotal:
    [price = Number(cart[i].price) || 0], [qty = cart[i].quantity || 1],
    [price * qty]. *)
Definition line_amount (line : JsValue) : completion JsNumber :=
  p ← get_prop line "price";
  let price := js_or (JNum (to_number p)) (JNum (Int 0)) in
  q ← get_prop line "quantity";
  let qty := js_or q (JNum (Int 1)) in
  mret (num_mul (to_number price) (to_number qty)).

(** The [for] loop of the render function, from index [i] with [n]
    iterations left. *)
Fixpoint subtotal_loop (cart : list JsValue) (i n : nat) (subtotal : JsNumber)
  : completion JsNumber :=
  match n with
  | O => mret subtotal
  | S n' =>
      amount ← line_amount (default JUndefined (cart !! i));
      subtotal_loop cart (S i) n' (num_add subtotal amount)
  end.

Definition subtotal (cart : list JsValue) : completion JsNumber :=
  subtotal_loop cart 0 (length cart) (Int 0).

Definition shipping : JsNumber := Int 20.

(** [subtotal + 20] *)
Definition total (cart : list JsValue) : completion JsNumber :=
  s ← subtotal cart; mret (num_add s shipping).

(** The three amounts of the order totals block. *)
Definition order_totals (cart : list JsValue) : completion (string * string * string) :=
  s ← subtotal cart;
  mret (to_fixed2 s +:+ " L.E", "20.00 L.E", to_fixed2 (num_add s shipping) +:+ " L.E").

(** [cart.filter((_, i) => i !== index)] *)
Fixpoint filter_index {A} (keep : nat -> bool) (i : nat) (l : list A) : list A :=
  match l with
  | [] => []
  | x :: l' =>
      if keep i then x :: filter_index keep (S i) l'
      else filter_index keep (S i) l'
  end.

Definition remove (index : nat) : action World unit :=
  cart ← gets (fun w : World => cart w.1);
  let updatedCart := filter_index (fun i => negb (i =? index)%nat) 0 cart in
  saveCartToStorage updatedCart;;
  showSuccess "Item removed from cart" (Some 2000%Z).

(** [n + 1] and [n - 1], the new values of [n++] and [n--] (exact; the
    platform's are the same for a whole number of magnitude below 2^53). *)
Definition increment (n : JsNumber) : JsNumber := num_add n (Int 1).
Definition decrement (n : JsNumber) : JsNumber := num_sub n (Int 1).

(** [updatedCart[index].quantity++] and [--]: the old value is converted to
    a number and the new number is assigned.  The line object is shared by
    [cart] and its copy [updatedCart], so both arrays see the new quantity;
    the result is either array after the assignment. *)
Definition bump_quantity (step : JsNumber -> JsNumber) (index : nat)
    (cart : list JsValue) : completion (list JsValue) :=
  let line := default JUndefined (cart !! index) in
  old ← get_prop line "quantity";
  line' ← set_prop line "quantity" (JNum (step (to_number old)));
  mret (<[index := line']> cart).

Definition increase (index : nat) : action World unit :=
  cart ← gets (fun w : World => cart w.1);
  updatedCart ← lift (bump_quantity increment index cart);
  in_state (with_cart updatedCart);;
  saveCartToStorage updatedCart.

(** [line.quantity < 1] *)
Definition quantity_below_one (line : JsValue) : completion bool :=
  quantity ← get_prop line "quantity";
  mret (num_lt (to_number quantity) (Int 1)).

Definition decrease (index : nat) : action World unit :=
  cart ← gets (fun w : World => cart w.1);
  updatedCart ← lift (bump_quantity decrement index cart);
  in_state (with_cart updatedCart);;
  low ← lift (quantity_below_one (default JUndefined (updatedCart !! index)));
  if (low : bool) then remove index else saveCartToStorage updatedCart.

(** [/^[+]?[\d\s\-\(\)]+$/] *)
Definition phoneRegex : regex :=
  Seq (Opt (Chr (one_of "+")))
      (Plus (Chr (fun c => is_digit c || is_ws c || one_of "-()" c))).

Definition blank (s : string) : bool := String.eqb (trim s) "".

Definition validateCheckoutForm (st : State) : Validation :=
  let missingFields :=
    (if blank (fName st) then ["First Name"] else []) ++
    (if blank (lName st) then ["Last Name"] else []) ++
    (if blank (adress st) then ["Address"] else []) ++
    (if blank (phone st) then ["Phone Number"] else []) ++
    (if blank (building st) then ["Building Number"] else []) ++
    (if blank (apart st) then ["Apartment Number"] else []) in
  if negb (blank (phone st)) && negb (regex_test phoneRegex (phone st)) then
    {| isValid := false; error := Some "Please enter a valid phone number";
       missingFields := None |}
  else if (length (cart st) =? 0)%nat then
    {| isValid := false;
       error := Some "Your cart is empty. Please add items before checkout.";
       missingFields := None |}
  else if (0 <? length missingFields)%nat then
    {| isValid := false; error := None; missingFields := Some missingFields |}
  else {| isValid := true; error := None; missingFields := None |}.

(** How the promise of [axios.post] settles. *)
Inductive Settlement : Type :=
| Fulfilled (res : JsValue)
| Rejected (reason : JsValue).

(** [await promise] *)
Definition await (outcome : Settlement) : completion JsValue :=
  match outcome with
  | Fulfilled res => Normal res
  | Rejected reason => Throw (Reason reason)
  end.

(** [order()] up to its [await]: [None] when it returned after a failed
    validation, the request body when the request was sent.  The path is
    relative to the configured API base URL. *)
Definition order_begin : action World (option JsValue) :=
  validation ← gets (fun w : World => validateCheckoutForm w.1);
  if negb (isValid validation) then
    match missingFields validation with
    | Some fields =>
        showWarning
          ("Please fill in the following required fields: " +:+ join ", " fields)
          (Some 4000%Z)
    | None =>
        if opt_truthy (error validation)
        then showError (default "" (error validation)) (Some 4000%Z)
        else mret tt
    end;;
    mret None
  else
    setIsLoading true;;
    st ← gets (fun w : World => w.1);
    let body :=
      JObj [("fName", JStr (trim (fName st))); ("lName", JStr (trim (lName st)));
            ("adress", JStr (trim (adress st))); ("phone", JStr (trim (phone st)));
            ("building", JStr (trim (building st)));
            ("apart", JStr (trim (apart st))); ("cart", JArr (cart st) [])] in
    in_browser (emit (HttpPost "/order" body));;
    mret (Some body).

(** [order()] from its [await] on.  [seen] is the state of the render whose
    handler is running: the success message reads the names from it. *)
Definition order_settle (seen : State) (outcome : Settlement) : action World unit :=
  try_finally
    (try_catch
       (res ← lift (await outcome);
        status ← lift (get_prop res "status");
        if strict_eq_num status (Int 200) then
          setfName "";;
          setlName "";;
          setAdress "";;
          setPhone "";;
          setBuilding "";;
          setApart "";;
          clear;;
          setCart [];;
          dispatchEvent "cartUpdated";;
          showSuccess
            ("🎉 Order placed successfully! Thank you " +:+ trim (fName seen) +:+
             " " +:+ trim (lName seen) +:+
             "! Your order will be processed and delivered soon.")
            (Some 6000%Z);;
          console_log "Order response:"
        else
          showError "There was a problem with the server. Please try again later."
            (Some 4000%Z))
       (fun error =>
          console_error "Order submission error:";;
          response ← lift (thrown_prop error "response");
          if truthy response then
            status ← lift (get_prop response "status");
            showError
              ("Server error: " +:+ to_string status +:+ ". Please try again later.")
              (Some 4000%Z)
          else
            request ← lift (thrown_prop error "request");
            if truthy request then
              showError
                "Network error. Please check your internet connection and try again."
                (Some 4000%Z)
            else
              showError "An unexpected error occurred. Please try again."
                (Some 4000%Z)))
    (setIsLoading false).

(** A submission whose request, if one is sent, settles as [respond] says
    before any other handler runs. *)
Definition order (respond : JsValue -> Settlement) : action World unit :=
  seen ← gets (fun w : World => w.1);
  sent ← order_begin;
  match sent with
  | Some body => order_settle seen (respond body)
  | None => mret tt
  end.

End Checkout.

(** ** The contact form (components/contact_input.jsx) *)

Module Contact.
Import Js Notifications Form.

Record State : Type := {
  name : string;
  email : string;
  phone : string;
  message : string;
  isLoading : bool;
  notes : list Notification
}.

Abbreviation World := (State * Browser)%type.

Definition with_fields (n e p m : string) (st : State) : State :=
  {| name := n; email := e; phone := p; message := m;
     isLoading := isLoading st; notes := notes st |}.

Definition with_isLoading (v : bool) (st : State) : State :=
  {| name := name st; email := email st; phone := phone st;
     message := message st; isLoading := v; notes := notes st |}.

#[global] Instance uses_notifications : UsesNotifications State := {|
  notifications := notes;
  setNotifications f st :=
    {| name := name st; email := email st; phone := phone st;
       message := message st; isLoading := isLoading st; notes := f (notes st) |};
  notifications_set f st := eq_refl
|}.

Definition setName (v : string) : action World unit :=
  in_state (fun st => with_fields v (email st) (phone st) (message st) st).
Definition setEmail (v : string) : action World unit :=
  in_state (fun st => with_fields (name st) v (phone st) (message st) st).
Definition setPhone (v : string) : action World unit :=
  in_state (fun st => with_fields (name st) (email st) v (message st) st).
Definition setMessage (v : string) : action World unit :=
  in_state (fun st => with_fields (name st) (email st) (phone st) v st).
Definition setIsLoading (v : bool) : action World unit :=
  in_state (with_isLoading v).

(** [/^[^\s@]+@[^\s@]+\.[^\s@]+$/] *)
Definition emailRegex : regex :=
  let word := Plus (Chr (fun c => negb (is_ws c || one_of "@" c))) in
  Seq word (Seq (Chr (one_of "@")) (Seq word (Seq (Chr (one_of ".")) word))).

(** [/^[+]?[\d\s\-\(\)]+$/] *)
Definition phoneRegex : regex :=
  Seq (Opt (Chr (one_of "+")))
      (Plus (Chr (fun c => is_digit c || is_ws c || one_of "-()" c))).

Definition blank (s : string) : bool := String.eqb (trim s) "".

Definition validateForm (st : State) : Validation :=
  let missingFields :=
    (if blank (name st) then ["Name"] else []) ++
    (if blank (email st) then ["Email"] else []) ++
    (if blank (phone st) then ["Phone"] else []) ++
    (if blank (message st) then ["Message"] else []) in
  if negb (blank (email st)) && negb (regex_test emailRegex (email st)) then
    {| isValid := false; error := Some "Please enter a valid email address";
       missingFields := None |}
  else if negb (blank (phone st)) && negb (regex_test phoneRegex (phone st)) then
    {| isValid := false; error := Some "Please enter a valid phone number";
       missingFields := None |}
  else if (0 <? length missingFields)%nat then
    {| isValid := false; error := None; missingFields := Some missingFields |}
  else {| isValid := true; error := None; missingFields := None |}.

Inductive Settlement : Type :=
| Fulfilled (res : JsValue)
| Rejected (reason : JsValue).

Definition await (outcome : Settlement) : completion JsValue :=
  match outcome with
  | Fulfilled res => Normal res
  | Rejected reason => Throw (Reason reason)
  end.

(** [addContact()] up to its [await]. *)
Definition addContact_begin : action World (option JsValue) :=
  validation ← gets (fun w : World => validateForm w.1);
  if negb (isValid validation) then
    match missingFields validation with
    | Some fields =>
        showWarning
          ("Please fill in the following required fields: " +:+ join ", " fields)
          (Some 4000%Z)
    | None =>
        if opt_truthy (error validation)
        then showError (default "" (error validation)) (Some 4000%Z)
        else mret tt
    end;;
    mret None
  else
    setIsLoading true;;
    st ← gets (fun w : World => w.1);
    let body :=
      JObj [("name", JStr (trim (name st))); ("email", JStr (trim (email st)));
            ("phone", JStr (trim (phone st)));
            ("message", JStr (trim (message st)))] in
    in_browser (emit (HttpPost "/contact" body));;
    mret (Some body).

(** [addContact()] from its [await] on. *)
Definition addContact_settle (seen : State) (outcome : Settlement)
  : action World unit :=
  try_finally
    (try_catch
       (res ← lift (await outcome);
        status ← lift (get_prop res "status");
        if strict_eq_num status (Int 200) then
          setName "";;
          setEmail "";;
          setPhone "";;
          setMessage "";;
          showSuccess
            ("Thank you " +:+ trim (name seen) +:+
             "! Your message has been sent successfully. We'll get back to you soon! 📧")
            (Some 5000%Z)
        else
          showError "There was a problem with the server. Please try again later."
            (Some 4000%Z))
       (fun error =>
          console_error "Contact form submission error:";;
          response ← lift (thrown_prop error "response");
          if truthy response then
            status ← lift (get_prop response "status");
            showError
              ("Server error: " +:+ to_string status +:+ ". Please try again later.")
              (Some 4000%Z)
          else
            request ← lift (thrown_prop error "request");
            if truthy request then
              showError
                "Network error. Please check your internet connection and try again."
                (Some 4000%Z)
            else
              showError "An unexpected error occurred. Please try again."
                (Some 4000%Z)))
    (setIsLoading false).

Definition addContact (respond : JsValue -> Settlement) : action World unit :=
  seen ← gets (fun w : World => w.1);
  sent ← addContact_begin;
  match sent with
  | Some body => addContact_settle seen (respond body)
  | None => mret tt
  end.

End Contact.

(** ** The cart a loader takes from the stored text

    The three loaders agree on it: the elements of the parsed array when
    the stored text is a non-empty string that parses to an array, the
    empty cart otherwise. *)

Definition cart_of_saved (saved : option string) : list Js.JsValue :=
  if Js.opt_truthy saved then
    match Js.JSON_parse (default "" saved) with
    | Js.Normal parsedCart =>
        if Js.is_array parsedCart then Js.array_elems parsedCart else []
    | Js.Throw _ => []
    end
  else [].

(** ** The subtotal as the specification words it

    "Sum over all lines of unit price times quantity", where the unit price
    is the price coerced to a number and counts as 0 when the coercion
    fails, and where a missing quantity counts as 1. *)

Module Spec.
Import Js.

(** A field of a line; [undefined] when there is none. *)
Definition field (line : JsValue) (k : string) : JsValue :=
  match get_prop line k with
  | Normal v => v
  | Throw _ => JUndefined
  end.

(** The price as a number; 0 when it is not a number (and when it is 0). *)
Definition unit_price (line : JsValue) : JsNumber :=
  let n := to_number (field line "price") in
  if num_truthy n then n else Int 0.

(** The quantity as a number; 1 when the field is absent or falsy. *)
Definition quantity (line : JsValue) : JsNumber :=
  let q := field line "quantity" in
  if truthy q then to_number q else Int 1.

Definition amount (line : JsValue) : JsNumber :=
  num_mul (unit_price line) (quantity line).

Definition subtotal (cart : list JsValue) : JsNumber :=
  fold_left (fun sum line => num_add sum (amount line)) cart (Int 0).

End Spec.

(** ** Sample worlds *)

Module Demo.
Import Js Notifications Form.

Definition rose : JsValue :=
  JObj [("name", JStr "Rose"); ("price", JStr "100"); ("quantity", JNum (Int 2))].

Definition jasmine : JsValue :=
  JObj [("name", JStr "Jasmine"); ("price", JNum (Int 50)); ("quantity", JNum (Int 1))].

(** A catalog record: it has no [quantity]. *)
Definition oud : JsValue :=
  JObj [("_id", JStr "p7"); ("name", JStr "Oud"); ("price", JNum (Dec 2495 1));
        ("image1", JStr "oud-1")].

Definition browser (stored : gmap string string) : Browser :=
  {| localStorage := stored; trace := [];
     clock := fun n => Dec (17000000000005 + 10000 * Z.of_nat n) 1; ticks := 0 |}.

Definition checkout (cart : list JsValue) (phone : string) : Checkout.State :=
  {| Checkout.cart := cart; Checkout.fName := "Mona"; Checkout.lName := "Adel";
     Checkout.adress := "12 Corniche Road"; Checkout.phone := phone;
     Checkout.building := "4"; Checkout.apart := "9";
     Checkout.isLoading := false; Checkout.notes := [] |}.

Definition contact : Contact.State :=
  {| Contact.name := "Mona"; Contact.email := "mona@example.com";
     Contact.phone := "+20 (100) 555-0100"; Contact.message := "Hello";
     Contact.isLoading := false; Contact.notes := [] |}.

Definition catalog (cart : list JsValue) : Products.State :=
  {| Products.products := [oud]; Products.cart := cart; Products.notes := [] |}.

Definition ok : JsValue := JObj [("status", JNum (Int 200))].

(** [s] between double quotes. *)
Definition quoted (s : string) : string :=
  String dquote (s +:+ String dquote EmptyString).

(** The text an earlier write left for the cart [[rose]]. *)
Definition rose_text : string := stored_text (JSON_stringify (JArr [rose] [])).

End Demo.

(** ** Where the model of the platform is exact

    The model recognises white space in the ASCII range, converts every
    value to a string and to a number, and computes with exact decimals.
    The platform
    - counts U+00A0, U+1680, U+2000 to U+200A, U+2028, U+2029, U+202F,
      U+205F, U+3000 and U+FEFF as white space as well: in [trim], in the
      class [\s] and when it converts a string to a number;
    - throws a TypeError when it converts an object that has an own
      property [toString] (in a value born from JSON that property is never
      a function) or an array that holds such an object, and prints an
      array that has an own property [join] as an object;
    - rounds every sum and difference to binary64, in which the whole
      numbers of magnitude up to 2^53 are exact, and prints a number with
      [toFixed] from its binary64 value.
    The properties below that depend on one of these are stated for the
    texts, values and numbers on which the model and the platform agree. *)

Module Scope.
Import Js.

(** The code points of the white space outside ASCII. *)
Definition wide_spaces : list N :=
  [0xA0; 0x1680; 0x2000; 0x2001; 0x2002; 0x2003; 0x2004; 0x2005; 0x2006; 0x2007;
   0x2008; 0x2009; 0x200A; 0x2028; 0x2029; 0x202F; 0x205F; 0x3000; 0xFEFF]%N.

(** [s] starts with the bytes of one of them. *)
Definition starts_wide_space (s : list ascii) : bool :=
  existsb
    (fun cp => match strip_prefix (utf8_encode cp) s with Some _ => true | None => false end)
    wide_spaces.

Fixpoint has_wide_space (s : list ascii) : bool :=
  match s with
  | [] => false
  | _ :: s' => starts_wide_space s || has_wide_space s'
  end.

(** A text whose white space, if it has any, is ASCII. *)
Definition plain_text (s : string) : bool :=
  negb (has_wide_space (list_ascii_of_string s)).

Definition has_key {A : Type} (k : string) (ps : list (string * A)) : bool :=
  match assoc_get k ps with Some _ => true | None => false end.

(** A value that the platform converts to a string and to a number as
    [to_string] and [to_number] say. *)
Fixpoint convertible (v : JsValue) : bool :=
  match v with
  | JStr s => plain_text s
  | JObj props => negb (has_key "toString" props)
  | JArr elems own =>
      negb (has_key "toString" own) && negb (has_key "join" own)
      && forallb convertible elems
  | _ => true
  end.

(** A string, or no value. *)
Definition textual (v : JsValue) : bool :=
  match v with
  | JUndefined | JNull | JStr _ => true
  | _ => false
  end.

(** A whole number that binary64 holds together with its neighbours. *)
Definition safe_integer (n : Z) : Prop := (- 2 ^ 53 < n < 2 ^ 53)%Z.

(** A line whose quantity is such a whole number, from 1 up. *)
Definition counted (line : JsValue) : bool :=
  match line with
  | JObj props =>
      match assoc_get "quantity" props with
      | Some (JNum (Dec n 0)) => (1 <=? n)%Z && (n <? 2 ^ 53)%Z
      | _ => false
      end
  | _ => false
  end.

End Scope.

(** ** What a pattern matches

    The strings of a pattern, as the definition of regular expressions has
    them; the derivative matcher is compared with it below. *)

Module Pattern.
Import Js.

Inductive matches : regex -> list ascii -> Prop :=
| matches_eps : matches Eps []
| matches_chr p c : p c = true -> matches (Chr p) [c]
| matches_seq r1 r2 s1 s2 :
    matches r1 s1 -> matches r2 s2 -> matches (Seq r1 r2) (s1 ++ s2)
| matches_alt_l r1 r2 s : matches r1 s -> matches (Alt r1 r2) s
| matches_alt_r r1 r2 s : matches r2 s -> matches (Alt r1 r2) s
| matches_star_nil r : matches (Star r) []
| matches_star_cons r s1 s2 :
    matches r s1 -> matches (Star r) s2 -> matches (Star r) (s1 ++ s2).

(** The character class [[\d\s\-\(\)]] of the phone patterns. *)
Definition phone_char (c : ascii) : bool :=
  is_digit c || is_ws c || one_of "-()" c.

(** An optional [+], then one or more characters of the class. *)
Definition phone_shape (s : string) : bool :=
  let body :=
    match s with
    | String c rest => if Ascii.eqb c "+" then rest else s
    | EmptyString => s
    end in
  negb (String.eqb body "") && forallb phone_char (list_ascii_of_string body).

(** The character class [[^\s@]] of the email pattern. *)
Definition email_char (c : ascii) : bool := negb (is_ws c || one_of "@" c).

(** One or more characters of the class. *)
Definition email_word (s : list ascii) : Prop :=
  s <> [] /\ forallb email_char s = true.

(** The derivative matcher on a list of characters. *)
Definition test_list (r : regex) (l : list ascii) : bool :=
  nullable (fold_left (fun r c => deriv c r) l r).

(** The lower-case form of an ASCII letter. *)
Definition lower (c : ascii) : ascii :=
  let n := N_of_ascii c in
  if (65 <=? n)%N && (n <=? 90)%N then ascii_of_N (n + 32) else c.

(** [s] starts with the lower-case text [p], letter case aside. *)
Fixpoint starts_with (p s : list ascii) : bool :=
  match p, s with
  | [], _ => true
  | _ :: _, [] => false
  | a :: p', b :: s' => Ascii.eqb a (lower b) && starts_with p' s'
  end.

(** [s] starts with [http://] or [https://] in any letter case. *)
Definition has_scheme (s : string) : bool :=
  starts_with (list_ascii_of_string "http://") (list_ascii_of_string s)
  || starts_with (list_ascii_of_string "https://") (list_ascii_of_string s).

End Pattern.

(** ** What the forms ask for

    The fields of each form with the label the validation reports for a
    blank one, in the order of the checks. *)

Module Fields.
Import Js.

Definition checkout (st : Checkout.State) : list (string * string) :=
  [(Checkout.fName st, "First Name"); (Checkout.lName st, "Last Name");
   (Checkout.adress st, "Address"); (Checkout.phone st, "Phone Number");
   (Checkout.building st, "Building Number");
   (Checkout.apart st, "Apartment Number")].

Definition contact (st : Contact.State) : list (string * string) :=
  [(Contact.name st, "Name"); (Contact.email st, "Email");
   (Contact.phone st, "Phone"); (Contact.message st, "Message")].

(** The labels of the fields that are empty or white space only. *)
Definition blank_labels (fields : list (string * string)) : list string :=
  map snd (List.filter (fun f => String.eqb (trim f.1) "") fields).

End Fields.

(** ** How a request can fail

    What the two submit handlers tell the user when the request does not
    end in a response with status 200, read off their [else] branch and
    their [catch] clause. *)

Module Failure.
Import Js.

Definition nullish (v : JsValue) : bool :=
  match v with JUndefined | JNull => true | _ => false end.

(** [res.status === 200] for a response [res] that has properties. *)
Definition accepted (res : JsValue) : bool :=
  match get_prop res "status" with
  | Normal status => strict_eq_num status (Int 200)
  | Throw _ => false
  end.

Definition server_problem : string :=
  "There was a problem with the server. Please try again later.".

Definition network_error : string :=
  "Network error. Please check your internet connection and try again.".

Definition unexpected : string :=
  "An unexpected error occurred. Please try again.".

(** The message for a response that was not accepted. *)
Definition of_response (res : JsValue) : string :=
  if nullish res then unexpected else server_problem.

(** The message for a rejection whose reason has properties. *)
Definition of_rejection (reason : JsValue) : string :=
  let response := Spec.field reason "response" in
  if truthy response then
    "Server error: " +:+ to_string (Spec.field response "status") +:+
    ". Please try again later."
  else if truthy (Spec.field reason "request") then network_error
  else unexpected.

End Failure.

(** ** What JSON keeps of a value

    [kept v] is the value that the text of [v] denotes: inside an array
    [undefined] and the non-finite numbers become [null], a property whose
    value is [undefined] is gone, and so are the named properties of an
    array.  A finite number is kept (in the representation without
    trailing fractional zeros). *)

Module Json.
Import Js.

Fixpoint kept (v : JsValue) : JsValue :=
  match v with
  | JUndefined | JNull => JNull
  | JBool b => JBool b
  | JNum (Dec m e) => JNum (Dec (strip_zeros m e).1 (strip_zeros m e).2)
  | JNum _ => JNull
  | JStr s => JStr s
  | JArr elems _ => JArr (map kept elems) []
  | JObj props =>
      JObj ((fix members (ps : list (string * JsValue)) : list (string * JsValue) :=
               match ps with
               | [] => []
               | (k, x) :: ps' =>
                   if is_undefined x then members ps' else (k, kept x) :: members ps'
               end) props)
  end.

Definition kept_members : list (string * JsValue) -> list (string * JsValue) :=
  fix members (ps : list (string * JsValue)) : list (string * JsValue) :=
    match ps with
    | [] => []
    | (k, x) :: ps' =>
        if is_undefined x then members ps' else (k, kept x) :: members ps'
    end.

(** Every object in [v] has distinct keys. *)
Fixpoint well_keyed (v : JsValue) : bool :=
  match v with
  | JArr elems own =>
      forallb well_keyed elems
  | JObj props => distinct_keys props && forallb (fun p => well_keyed p.2) props
  | _ => true
  end.

End Json.

(** ** The [%] of numbers *)

Module Numeric.
Import Js.

(** [a % b]: the remainder has the sign of [a]; it is [NaN] when [a] is
    not finite or [b] is zero, and [a] when only [b] is infinite. *)
Definition num_rem (a b : JsNumber) : JsNumber :=
  match a, b with
  | NaN, _ | _, NaN | Infinity _, _ => NaN
  | Dec _ _, Infinity _ => a
  | Dec m1 e1, Dec m2 e2 =>
      let e := Nat.max e1 e2 in
      let x := (m1 * pow10 (e - e1))%Z in
      let y := (m2 * pow10 (e - e2))%Z in
      if (y =? 0)%Z then NaN else Dec (Z.rem x y) e
  end.

End Numeric.

(** ** The product overlay of the catalog (components/products.jsx)

    The overlay, the product it shows and the position of its image
    carousel.  A handler reads [overlay] and [selectedProduct] from the
    render that created it ([seen]) and updates the current state; for a
    button of the current render the two are the same. *)

Module Overlay.
Import Js Numeric.

Record State : Type := {
  overlay : bool;
  selectedProduct : JsValue;
  currentImageIndex : JsNumber
}.

Definition setOverlay (v : bool) : action State unit :=
  modify (fun st =>
    {| overlay := v; selectedProduct := selectedProduct st;
       currentImageIndex := currentImageIndex st |}).

Definition setSelectedProduct (product : JsValue) : action State unit :=
  modify (fun st =>
    {| overlay := overlay st; selectedProduct := product;
       currentImageIndex := currentImageIndex st |}).

Definition setCurrentImageIndex (f : JsNumber -> JsNumber) : action State unit :=
  modify (fun st =>
    {| overlay := overlay st; selectedProduct := selectedProduct st;
       currentImageIndex := f (currentImageIndex st) |}).

(** The third effect: [if (overlay && selectedProduct) setCurrentImageIndex(0)]. *)
Definition reset_effect : action State unit :=
  st ← gets (fun st : State => st);
  if overlay st && truthy (selectedProduct st)
  then setCurrentImageIndex (fun _ => Int 0)
  else mret tt.

(** [/^https?:\/\//i]: anchored at the start only, so anything may follow;
    the letters in either case. *)
Definition absoluteUrl : regex :=
  let letter cs := Chr (one_of cs) in
  Seq (letter "hH") (Seq (letter "tT") (Seq (letter "tT") (Seq (letter "pP")
    (Seq (Opt (letter "sS")) (Seq (letter ":") (Seq (letter "/") (Seq (letter "/")
      (Star (Chr (fun _ => true)))))))))).

Definition resolveImageSrc (imageRef : JsValue) : JsValue :=
  if negb (truthy imageRef) then JStr ""
  else
    let isAbsoluteUrl := regex_test absoluteUrl (to_string imageRef) in
    if isAbsoluteUrl then imageRef
    else JStr ("/images/" +:+ to_string imageRef +:+ ".jpeg").

Definition getProductImages (seen : State) : completion (list JsValue) :=
  if negb (truthy (selectedProduct seen)) then mret []
  else
    image1 ← get_prop (selectedProduct seen) "image1";
    image2 ← get_prop (selectedProduct seen) "image2";
    image3 ← get_prop (selectedProduct seen) "image3";
    mret (map resolveImageSrc (List.filter truthy [image1; image2; image3])).

(** [images.length] as a number. *)
Definition count (images : list JsValue) : JsNumber := Int (Z.of_nat (length images)).

(** [(prev) => (prev + 1) % images.length] *)
Definition nextImage (seen : State) : action State unit :=
  images ← lift (getProductImages seen);
  if (length images =? 0)%nat then mret tt
  else setCurrentImageIndex (fun prev => num_rem (num_add prev (Int 1)) (count images)).

(** [(prev) => (prev - 1 + images.length) % images.length] *)
Definition prevImage (seen : State) : action State unit :=
  images ← lift (getProductImages seen);
  if (length images =? 0)%nat then mret tt
  else
    setCurrentImageIndex
      (fun prev => num_rem (num_add (num_sub prev (Int 1)) (count images)) (count images)).

Definition handleKeyDown (seen : State) (key : string) : action State unit :=
  if negb (overlay seen) then mret tt
  else if String.eqb key "ArrowLeft" then prevImage seen
  else if String.eqb key "ArrowRight" then nextImage seen
  else if String.eqb key "Escape" then setOverlay false
  else mret tt.

(** The click handler of a card's Quick View button. *)
Definition quickView (product : JsValue) : action State unit :=
  setSelectedProduct product;;
  setOverlay true.

End Overlay.

(** ** The navigation menu (public/script.js)

    The class list of [#nav__links] and the [class] attribute of the icon
    inside [#menu-btn]; both elements are taken to exist. *)

Module Menu.

Record State : Type := {
  navLinks : list string;
  menuBtnIcon : string
}.

(** DOMTokenList: [contains], [remove] and [toggle]. *)
Definition contains (token : string) (classList : list string) : bool :=
  existsb (String.eqb token) classList.

Definition remove (token : string) (classList : list string) : list string :=
  List.filter (fun t => negb (String.eqb token t)) classList.

Definition toggle (token : string) (classList : list string) : list string :=
  if contains token classList then remove token classList
  else classList ++ [token].

(** The click listener of the menu button. *)
Definition onMenuClick (st : State) : State :=
  let classList := toggle "open" (navLinks st) in
  let isOpen := contains "open" classList in
  {| navLinks := classList;
     menuBtnIcon := if isOpen then "ri-close-line" else "ri-menu-line" |}.

(** The click listener of the links. *)
Definition onLinksClick (st : State) : State :=
  {| navLinks := remove "open" (navLinks st); menuBtnIcon := "ri-menu-line" |}.

Inductive click : Type := MenuButton | Links.

Definition on (c : click) : State -> State :=
  match c with
  | MenuButton => onMenuClick
  | Links => onLinksClick
  end.

End Menu.

(** * Properties *)

Import Js Notifications Form.

#[global] Arguments JSON_parse : simpl never.
#[global] Arguments JSON_stringify : simpl never.
#[global] Arguments string_to_number : simpl never.
#[global] Arguments num_to_string : simpl never.
#[global] Arguments to_fixed2 : simpl never.
#[global] Arguments trim : simpl never.
#[global] Arguments regex_test : simpl never.

(** Unfolds the monadic plumbing of a handler applied to a world. *)
Ltac run :=
  unfold mbind, mret, action_bind, action_ret, completion_bind, completion_ret,
    lift, gets, modify, in_state, in_browser;
  cbn.

Ltac run_in H :=
  unfold mbind, mret, action_bind, action_ret, completion_bind, completion_ret,
    lift, gets, modify, in_state, in_browser in H;
  cbn in H.

(** ** The notification list *)

Lemma without_elem (i : JsNumber) (l : list Notification) (n : Notification) :
  n ∈ without i l ↔ n ∈ l ∧ num_eqb (id n) i = false.
Proof.
  unfold without. rewrite !list_elem_of_In, filter_In, negb_true_iff. tauto.
Qed.

Lemma without_absent (i : JsNumber) (l : list Notification) :
  (∀ n, n ∈ l → num_eqb (id n) i = false) → without i l = l.
Proof.
  induction l as [|n l IH]; intros Hl; [done|].
  simpl. rewrite (Hl n) by left. simpl. f_equal.
  apply IH. intros m Hm. apply Hl. by right.
Qed.

Lemma without_idem (i : JsNumber) (l : list Notification) :
  without i (without i l) = without i l.
Proof.
  apply without_absent. intros n Hn. by apply without_elem in Hn as [_ ?].
Qed.

Lemma without_sublist (i : JsNumber) (l : list Notification) :
  sublist (without i l) l.
Proof.
  induction l as [|n l IH]; simpl; [constructor|].
  destruct (negb _); by constructor.
Qed.

Lemma without_snoc (i : JsNumber) (l : list Notification) (n : Notification) :
  num_eqb (id n) i = true → without i (l ++ [n]) = without i l.
Proof.
  intros Hn. unfold without. rewrite List.filter_app. simpl. rewrite Hn. simpl.
  apply app_nil_r.
Qed.

Lemma removeNotification_active {St : Type} `{UsesNotifications St}
    (i : JsNumber) (w : St * Browser) :
  notifications (removeNotification i w).2.1 = without i (notifications w.1).
Proof. destruct w as [st b]. unfold removeNotification. run. apply notifications_set. Qed.

(** Callbacks that all carry the id [i] return normally and leave the list
    without [i], however many they are (one at least). *)
Lemma deliver_same_id {St : Type} `{UsesNotifications St}
    (i : JsNumber) (ss : list signal) :
  (∀ s, s ∈ ss → signal_id s = i) →
  ∀ w : St * Browser,
    (deliver ss w).1 = Normal tt ∧
    notifications (deliver ss w).2.1
    = match ss with [] => notifications w.1 | _ => without i (notifications w.1) end.
Proof.
  induction ss as [|s ss IH]; intros Hss w; [done|].
  assert (Hs : signal_id s = i) by (apply Hss; left).
  assert (Hrest : ∀ s', s' ∈ ss → signal_id s' = i) by (intros s' Hs'; apply Hss; by right).
  specialize (IH Hrest (removeNotification i w).2). destruct IH as [Hret Hact].
  assert (Hstep : deliver (s :: ss) w = deliver ss (removeNotification i w).2).
  { destruct w as [st b]. cbn [deliver]. unfold onClose. rewrite Hs.
    unfold removeNotification. run. reflexivity. }
  rewrite Hstep. split; [exact Hret|]. rewrite Hact.
  destruct ss; rewrite removeNotification_active; [done|apply without_idem].
Qed.

(** C5.  Removing a notification id is idempotent.  [removeNotification i]
    returns normally; afterwards exactly the notifications whose id is not
    [i] remain, in their order; when no active notification bears [i]
    nothing changes; a second removal changes nothing.  Hence, for a
    notification enqueued with a stamp that is a number borne by no other
    active notification, the expiry of its timer brings the active list
    back to what it was before, so does a dismissal, and the timer firing
    after the dismissal leaves the list as the dismissal left it; in
    general any non-empty run of callbacks for that stamp, in any order,
    ends with the list as it was before the notification was enqueued. *)
Theorem notification_removal_idempotent
    {St : Type} `{UsesNotifications St} (w : St * Browser) (i : JsNumber)
    (message : string) (type : option kind) (duration : option Z) :
  let active (w : St * Browser) := notifications w.1 in
  let removed := (removeNotification i w).2 in
  let stamp := clock w.2 (ticks w.2) in
  let enqueued := (addNotification message type duration w).2 in
  let expired := (onClose (TimerElapsed stamp) enqueued).2 in
  let dismissed := (onClose (CloseClicked stamp) enqueued).2 in
  let fired_later := (onClose (TimerElapsed stamp) dismissed).2 in
  (removeNotification i w).1 = Normal tt ∧
  (∀ n, n ∈ active removed ↔ n ∈ active w ∧ num_eqb (id n) i = false) ∧
  sublist (active removed) (active w) ∧
  ((∀ n, n ∈ active w → num_eqb (id n) i = false) → active removed = active w) ∧
  active (removeNotification i removed).2 = active removed ∧
  (onClose (TimerElapsed stamp) dismissed).1 = Normal tt ∧
  active fired_later = active dismissed ∧
  (num_eqb stamp stamp = true →
   (∀ n, n ∈ active w → num_eqb (id n) stamp = false) →
   length (active enqueued) = S (length (active w)) ∧
   active expired = active w ∧
   active dismissed = active w ∧
   ∀ s ss, (∀ s', s' ∈ s :: ss → signal_id s' = stamp) →
     (deliver (s :: ss) enqueued).1 = Normal tt ∧
     active (deliver (s :: ss) enqueued).2 = active w).
Proof.
  cbv zeta. unfold onClose, signal_id.
  split; [by destruct w|].
  split; [intros n; rewrite removeNotification_active; apply without_elem|].
  split; [rewrite removeNotification_active; apply without_sublist|].
  split; [rewrite removeNotification_active; apply without_absent|].
  split; [rewrite !removeNotification_active; apply without_idem|].
  split; [by destruct w|].
  split; [rewrite !removeNotification_active; apply without_idem|].
  intros Hnum Hfresh.
  assert (Hadd : notifications (addNotification message type duration w).2.1
                 = notifications w.1
                   ++ [{| id := clock w.2 (ticks w.2); message := message;
                          type := default success type;
                          duration := default 3000%Z duration |}]).
  { destruct w as [st b]. unfold addNotification, now_plus_random. run.
    by rewrite notifications_set. }
  assert (Hgone : without (clock w.2 (ticks w.2))
                    (notifications (addNotification message type duration w).2.1)
                  = notifications w.1).
  { rewrite Hadd, without_snoc by done. by apply without_absent. }
  split; [rewrite Hadd, length_app; simpl; lia|].
  split; [by rewrite removeNotification_active|].
  split; [by rewrite removeNotification_active|].
  intros s ss Hss.
  destruct (deliver_same_id (clock w.2 (ticks w.2)) (s :: ss) Hss
              (addNotification message type duration w).2) as [Hret Hact].
  split; [exact Hret|]. by rewrite Hact.
Qed.

Lemma notification_removal_idempotent_witness :
  let w : Checkout.World := (Demo.checkout [Demo.rose] "0100", Demo.browser ∅) in
  let stamp := clock w.2 (ticks w.2) in
  let enqueued := (addNotification "Saved" None None w).2 in
  num_eqb stamp stamp = true ∧
  (∀ n, n ∈ notifications w.1 → num_eqb (id n) stamp = false) ∧
  length (notifications enqueued.1) = 1 ∧
  notifications (onClose (TimerElapsed stamp) enqueued).2.1 = [] ∧
  notifications (onClose (CloseClicked stamp) enqueued).2.1 = [].
Proof.
  intros w stamp enqueued.
  assert (Hnum : num_eqb stamp stamp = true) by reflexivity.
  assert (Hfresh : ∀ n, n ∈ notifications w.1 → num_eqb (id n) stamp = false)
    by (intros n Hn; inversion Hn).
  destruct (notification_removal_idempotent w stamp "Saved" None None)
    as (_ & _ & _ & _ & _ & _ & _ & Hrun).
  destruct (Hrun Hnum Hfresh) as (Hlen & Hexp & Hdis & _).
  split; [exact Hnum|]. split; [exact Hfresh|].
  split; [exact Hlen|]. split; [exact Hexp|exact Hdis].
Defined.

(** ** The submission guard *)

Lemma try_finally_state {S A : Type} (body : action S A) (cleanup : action S unit)
    (P : S → Prop) :
  (∀ s, P (cleanup s).2) → ∀ s, P (try_finally body cleanup s).2.
Proof.
  intros Hc s. unfold try_finally. destruct (body s) as [r s1].
  specialize (Hc s1). by destruct (cleanup s1) as [[[]|e] s2].
Qed.

Lemma order_settle_releases (seen : Checkout.State) (outcome : Checkout.Settlement)
    (w : Checkout.World) :
  Checkout.isLoading (Checkout.order_settle seen outcome w).2.1 = false.
Proof.
  unfold Checkout.order_settle.
  by apply (try_finally_state _ _ (λ w : Checkout.World, Checkout.isLoading w.1 = false)).
Qed.

Lemma addContact_settle_releases (seen : Contact.State) (outcome : Contact.Settlement)
    (w : Contact.World) :
  Contact.isLoading (Contact.addContact_settle seen outcome w).2.1 = false.
Proof.
  unfold Contact.addContact_settle.
  by apply (try_finally_state _ _ (λ w : Contact.World, Contact.isLoading w.1 = false)).
Qed.

Lemma order_begin_valid (w : Checkout.World) :
  isValid (Checkout.validateCheckoutForm w.1) = true →
  ∃ body, Checkout.order_begin w
          = (Normal (Some body),
             (Checkout.with_isLoading true w.1, emit (HttpPost "/order" body) w.2)).
Proof.
  intros Hv. destruct w as [st b]. unfold Checkout.order_begin. run.
  simpl in Hv. rewrite Hv. simpl. unfold Checkout.setIsLoading. run.
  eexists. reflexivity.
Qed.

Lemma addContact_begin_valid (w : Contact.World) :
  isValid (Contact.validateForm w.1) = true →
  ∃ body, Contact.addContact_begin w
          = (Normal (Some body),
             (Contact.with_isLoading true w.1, emit (HttpPost "/contact" body) w.2)).
Proof.
  intros Hv. destruct w as [st b]. unfold Contact.addContact_begin. run.
  simpl in Hv. rewrite Hv. simpl. unfold Contact.setIsLoading. run.
  eexists. reflexivity.
Qed.

(** C6.  A submission that passes validation sets [isLoading] and then
    sends its request: when the function suspends, the flag is set and the
    request is the last thing the page did.  However the request settles
    (any response, any rejection reason, including those that make the
    [catch] clause itself throw) and whatever the state is by then, the
    rest of the function ends with [isLoading] false; so does the whole
    submission.  This holds for the checkout form and for the contact
    form. *)
Theorem submission_guard_released
    (w : Checkout.World) (respond : JsValue → Checkout.Settlement)
    (seen : Checkout.State) (outcome : Checkout.Settlement) (later : Checkout.World)
    (w' : Contact.World) (respond' : JsValue → Contact.Settlement)
    (seen' : Contact.State) (outcome' : Contact.Settlement) (later' : Contact.World) :
  (isValid (Checkout.validateCheckoutForm w.1) = true →
   ∃ body suspended,
     Checkout.order_begin w = (Normal (Some body), suspended) ∧
     Checkout.isLoading suspended.1 = true ∧
     trace suspended.2 = trace w.2 ++ [HttpPost "/order" body] ∧
     Checkout.isLoading (Checkout.order_settle seen outcome later).2.1 = false ∧
     Checkout.isLoading (Checkout.order respond w).2.1 = false) ∧
  (isValid (Contact.validateForm w'.1) = true →
   ∃ body suspended,
     Contact.addContact_begin w' = (Normal (Some body), suspended) ∧
     Contact.isLoading suspended.1 = true ∧
     trace suspended.2 = trace w'.2 ++ [HttpPost "/contact" body] ∧
     Contact.isLoading (Contact.addContact_settle seen' outcome' later').2.1 = false ∧
     Contact.isLoading (Contact.addContact respond' w').2.1 = false).
Proof.
  split; intros Hv.
  - destruct (order_begin_valid w Hv) as [body Hb].
    exists body, (Checkout.with_isLoading true w.1, emit (HttpPost "/order" body) w.2).
    split; [exact Hb|]. split; [done|]. split; [done|].
    split; [apply order_settle_releases|].
    unfold Checkout.order. run. rewrite Hb. apply order_settle_releases.
  - destruct (addContact_begin_valid w' Hv) as [body Hb].
    exists body, (Contact.with_isLoading true w'.1, emit (HttpPost "/contact" body) w'.2).
    split; [exact Hb|]. split; [done|]. split; [done|].
    split; [apply addContact_settle_releases|].
    unfold Contact.addContact. run. rewrite Hb. apply addContact_settle_releases.
Qed.

Lemma submission_guard_released_witness :
  let w : Checkout.World := (Demo.checkout [Demo.rose] "0100", Demo.browser ∅) in
  let w' : Contact.World := (Demo.contact, Demo.browser ∅) in
  let fails := JObj [("request", JObj [])] in
  isValid (Checkout.validateCheckoutForm w.1) = true ∧
  isValid (Contact.validateForm w'.1) = true ∧
  Checkout.isLoading (Checkout.order (λ _, Checkout.Rejected fails) w).2.1 = false ∧
  Contact.isLoading (Contact.addContact (λ _, Contact.Rejected JUndefined) w').2.1 = false.
Proof.
  intros w w' fails.
  assert (Hv : isValid (Checkout.validateCheckoutForm w.1) = true) by reflexivity.
  assert (Hv' : isValid (Contact.validateForm w'.1) = true) by reflexivity.
  destruct (submission_guard_released
              w (λ _, Checkout.Rejected fails) w.1 (Checkout.Fulfilled Demo.ok) w
              w' (λ _, Contact.Rejected JUndefined) w'.1 (Contact.Fulfilled Demo.ok) w')
    as [Hc Hk].
  destruct (Hc Hv) as (_ & _ & _ & _ & _ & _ & Hreleased).
  destruct (Hk Hv') as (_ & _ & _ & _ & _ & _ & Hreleased').
  split; [exact Hv|]. split; [exact Hv'|]. split; [exact Hreleased|exact Hreleased'].
Defined.

(** ** Checkout with an empty cart *)

(** C7, as the code has it.  A submission with an empty cart returns
    without sending anything: the trace and the storage are as before,
    the cart, the form fields and [isLoading] are unchanged, and exactly one
    notification of kind [error] is appended.  Its message is the
    empty-cart message, unless the phone field is non-blank and malformed:
    the phone check comes first and then the message is the phone one. *)
Theorem empty_cart_submission_rejected
    (w : Checkout.World) (respond : JsValue → Checkout.Settlement) :
  Checkout.cart w.1 = [] →
  let phone := Checkout.phone w.1 in
  let malformed :=
    negb (Checkout.blank phone) && negb (regex_test Checkout.phoneRegex phone) in
  ∃ (after : Checkout.World) (n : Notification),
    Checkout.order respond w = (Normal tt, after) ∧
    trace after.2 = trace w.2 ∧
    localStorage after.2 = localStorage w.2 ∧
    Checkout.cart after.1 = Checkout.cart w.1 ∧
    (Checkout.fName after.1, Checkout.lName after.1, Checkout.adress after.1)
      = (Checkout.fName w.1, Checkout.lName w.1, Checkout.adress w.1) ∧
    (Checkout.phone after.1, Checkout.building after.1, Checkout.apart after.1)
      = (Checkout.phone w.1, Checkout.building w.1, Checkout.apart w.1) ∧
    Checkout.isLoading after.1 = Checkout.isLoading w.1 ∧
    Checkout.notes after.1 = Checkout.notes w.1 ++ [n] ∧
    type n = Notifications.error ∧
    message n =
      (if malformed then "Please enter a valid phone number"
       else "Your cart is empty. Please add items before checkout.").
Proof.
  destruct w as [st b]. simpl. intros Hcart.
  unfold Checkout.order, Checkout.order_begin. run.
  unfold Checkout.validateCheckoutForm. rewrite Hcart. simpl.
  destruct (negb (Checkout.blank (Checkout.phone st)) &&
            negb (regex_test Checkout.phoneRegex (Checkout.phone st))); simpl;
    unfold showError, addNotification, now_plus_random; run;
    eexists _, _; (split; [reflexivity|]); simpl; rewrite ?Hcart;
    repeat split; reflexivity.
Qed.

Lemma empty_cart_submission_rejected_witness :
  let w : Checkout.World := (Demo.checkout [] "0100", Demo.browser ∅) in
  Checkout.cart w.1 = [] ∧
  ∃ after n,
    Checkout.order (λ _, Checkout.Fulfilled Demo.ok) w = (Normal tt, after) ∧
    trace after.2 = [] ∧
    Checkout.notes after.1 = [n] ∧
    message n = "Your cart is empty. Please add items before checkout.".
Proof.
  intros w.
  assert (Hcart : Checkout.cart w.1 = []) by reflexivity.
  split; [exact Hcart|].
  destruct (empty_cart_submission_rejected w (λ _, Checkout.Fulfilled Demo.ok) Hcart)
    as (after & n & Hrun & Htrace & _ & _ & _ & _ & _ & Hnotes & _ & Hmsg).
  exists after, n. split; [exact Hrun|]. split; [exact Htrace|].
  split; [exact Hnotes|exact Hmsg].
Defined.

(** C7 as stated fails: with an empty cart and the phone field "abc" the
    user is told about the phone number, and no notification carries the
    empty-cart message. *)
Lemma empty_cart_message_counterexample :
  let w : Checkout.World := (Demo.checkout [] "abc", Demo.browser ∅) in
  let after := (Checkout.order (λ _, Checkout.Fulfilled Demo.ok) w).2 in
  Checkout.cart w.1 = [] ∧
  map message (Checkout.notes after.1) = ["Please enter a valid phone number"] ∧
  ¬ ∃ n, n ∈ Checkout.notes after.1 ∧
         message n = "Your cart is empty. Please add items before checkout.".
Proof.
  split; [reflexivity|]. split; [reflexivity|].
  intros (n & Hn & Hmsg). vm_compute in Hn.
  apply list_elem_of_In in Hn. destruct Hn as [<-|[]]. discriminate Hmsg.
Qed.

(** ** Order completion *)

(** C10.  When the request is fulfilled with status 200 the rest of
    [order] empties the whole of localStorage with [localStorage.clear()]:
    no key is left, whatever was stored.  It then sets the cart state to
    the empty cart and dispatches "cartUpdated"; the form fields are reset
    and [isLoading] is released. *)
Theorem order_success_clears_all_storage
    (seen : Checkout.State) (res : JsValue) (status : JsNumber) (w : Checkout.World) :
  get_prop res "status" = Normal (JNum status) →
  num_eqb status (Int 200) = true →
  ∃ after : Checkout.World,
    Checkout.order_settle seen (Checkout.Fulfilled res) w = (Normal tt, after) ∧
    localStorage after.2 = ∅ ∧
    (∀ key, localStorage after.2 !! key = None) ∧
    Checkout.cart after.1 = [] ∧
    trace after.2
      = trace w.2 ++ [Clear; DispatchEvent "cartUpdated"; ConsoleLog "Order response:"] ∧
    Checkout.isLoading after.1 = false.
Proof.
  intros Hstatus H200. destruct w as [st b].
  unfold Checkout.order_settle, try_finally, try_catch, Checkout.await. run.
  rewrite Hstatus. simpl. rewrite H200. cbn.
  eexists. split; [reflexivity|]. simpl.
  split; [done|]. split; [intros key; apply lookup_empty|].
  split; [done|]. split; [|done].
  by rewrite <- !app_assoc.
Qed.

Lemma order_success_clears_all_storage_witness :
  let stored : gmap string string :=
    <["cart" := Demo.rose_text]> (<["theme" := "dark"]> ∅) in
  let w : Checkout.World := (Demo.checkout [Demo.rose] "0100", Demo.browser stored) in
  get_prop Demo.ok "status" = Normal (JNum (Int 200)) ∧
  num_eqb (Int 200) (Int 200) = true ∧
  localStorage w.2 !! "theme" = Some "dark" ∧
  ∃ after,
    Checkout.order_settle w.1 (Checkout.Fulfilled Demo.ok) w = (Normal tt, after) ∧
    localStorage after.2 !! "theme" = None ∧
    localStorage after.2 !! "cart" = None.
Proof.
  intros stored w.
  assert (Hs : get_prop Demo.ok "status" = Normal (JNum (Int 200))) by reflexivity.
  assert (H200 : num_eqb (Int 200) (Int 200) = true) by reflexivity.
  split; [exact Hs|]. split; [exact H200|]. split; [reflexivity|].
  destruct (order_success_clears_all_storage w.1 Demo.ok (Int 200) w Hs H200)
    as (after & Hrun & _ & Hnone & _).
  exists after. split; [exact Hrun|]. split; apply Hnone.
Defined.

(** ** Writing the cart *)

Lemma stringify_array (elems : list JsValue) (own : list (string * JsValue)) :
  ∃ text, JSON_stringify (JArr elems own) = Some text.
Proof. eexists. reflexivity. Qed.

(** C1, as the code has it.  [saveCartToStorage] of the checkout
    serialises every cart, the empty one included, stores the text under
    "cart" and then dispatches "cartUpdated".  The persist effect of the
    catalog does the same for a non-empty cart only: its guard
    [cart.length > 0] makes it leave the storage as it is and dispatch
    nothing when the cart is empty. *)
Theorem cart_write_persists_and_broadcasts
    (updatedCart : list JsValue) (w : Checkout.World) (p : Products.World) :
  (∃ text after,
     JSON_stringify (JArr updatedCart []) = Some text ∧
     Checkout.saveCartToStorage updatedCart w = (Normal tt, after) ∧
     Checkout.cart after.1 = updatedCart ∧
     localStorage after.2 = <["cart" := text]> (localStorage w.2) ∧
     localStorage after.2 !! "cart" = Some text ∧
     trace after.2 = trace w.2 ++ [SetItem "cart" text; DispatchEvent "cartUpdated"]) ∧
  (Products.cart p.1 ≠ [] →
   ∃ text after,
     JSON_stringify (JArr (Products.cart p.1) []) = Some text ∧
     Products.persist_effect p = (Normal tt, after) ∧
     after.1 = p.1 ∧
     localStorage after.2 = <["cart" := text]> (localStorage p.2) ∧
     localStorage after.2 !! "cart" = Some text ∧
     trace after.2 = trace p.2 ++ [SetItem "cart" text; DispatchEvent "cartUpdated"]) ∧
  (Products.cart p.1 = [] → Products.persist_effect p = (Normal tt, p)).
Proof.
  destruct w as [st b], p as [pst pb]. cbn. split; [|split].
  - destruct (stringify_array updatedCart []) as [text Htext].
    exists text. eexists. split; [exact Htext|].
    unfold Checkout.saveCartToStorage, Checkout.setCart, setItem, dispatchEvent.
    run. rewrite Htext. cbn. split; [reflexivity|]. cbn.
    split; [done|]. split; [done|]. split; [apply lookup_insert_eq|].
    by rewrite <- app_assoc.
  - intros Hne. destruct (stringify_array (Products.cart pst) []) as [text Htext].
    exists text. eexists. split; [exact Htext|].
    unfold Products.persist_effect, setItem, dispatchEvent. run.
    rewrite Htext. destruct (Products.cart pst); [done|]. cbn.
    split; [reflexivity|]. cbn.
    split; [done|]. split; [done|]. split; [apply lookup_insert_eq|].
    by rewrite <- app_assoc.
  - intros Hnil. unfold Products.persist_effect. run. by rewrite Hnil.
Qed.

Lemma cart_write_persists_and_broadcasts_witness :
  let p : Products.World := (Demo.catalog [Demo.oud], Demo.browser ∅) in
  let q : Products.World := (Demo.catalog [], Demo.browser ∅) in
  Products.cart p.1 ≠ [] ∧
  Products.cart q.1 = [] ∧
  (∃ text, localStorage (Products.persist_effect p).2.2 !! "cart" = Some text) ∧
  Products.persist_effect q = (Normal tt, q).
Proof.
  intros p q.
  assert (Hp : Products.cart p.1 ≠ []) by discriminate.
  assert (Hq : Products.cart q.1 = []) by reflexivity.
  split; [exact Hp|]. split; [exact Hq|]. split.
  - destruct (cart_write_persists_and_broadcasts [] (Demo.checkout [] "", Demo.browser ∅) p)
      as (_ & Hsome & _).
    destruct (Hsome Hp) as (text & after & _ & Hrun & _ & _ & Hstored & _).
    exists text. rewrite Hrun. exact Hstored.
  - destruct (cart_write_persists_and_broadcasts [] (Demo.checkout [] "", Demo.browser ∅) q)
      as (_ & _ & Hnone).
    exact (Hnone Hq).
Defined.

(** C1 as stated fails for the catalog: with an empty cart in its state
    and a non-empty cart in the storage, the persist effect stores nothing
    and dispatches nothing, so the stale cart stays. *)
Lemma catalog_skips_empty_cart_counterexample :
  let stale := Demo.rose_text in
  let p : Products.World := (Demo.catalog [], Demo.browser {["cart" := stale]}) in
  let after := (Products.persist_effect p).2 in
  Products.cart p.1 = [] ∧
  JSON_stringify (JArr (Products.cart p.1) []) = Some "[]" ∧
  localStorage after.2 !! "cart" = Some stale ∧
  localStorage after.2 !! "cart" ≠ Some "[]" ∧
  trace after.2 = [].
Proof.
  repeat split; try reflexivity. discriminate.
Qed.

(** ** Quantities: the steps of [decrease] and [remove] *)

Lemma filter_index_keeps {A : Type} (l : list A) (k index : nat) :
  index < k → Checkout.filter_index (λ i, negb (i =? index)%nat) k l = l.
Proof.
  revert k. induction l as [|x l IH]; intros k Hk; [done|].
  cbn [Checkout.filter_index]. destruct (Nat.eqb_spec k index); [lia|].
  cbn [negb]. f_equal. apply IH. lia.
Qed.

Lemma filter_index_delete {A : Type} (l : list A) (k j : nat) :
  Checkout.filter_index (λ i, negb (i =? k + j)%nat) k l = delete j l.
Proof.
  revert k j. induction l as [|x l IH]; intros k j; [done|].
  cbn [Checkout.filter_index]. destruct (Nat.eqb_spec k (k + j)) as [Heq|Hne]; cbn [negb].
  - assert (j = 0) as -> by lia. rewrite Nat.add_0_r.
    apply filter_index_keeps. lia.
  - destruct j as [|j]; [lia|]. cbn. f_equal.
    replace (k + S j) with (S k + j) by lia. apply IH.
Qed.

Lemma filter_index_removes {A : Type} (l : list A) (index : nat) :
  Checkout.filter_index (λ i, negb (i =? index)%nat) 0 l = delete index l.
Proof. apply (filter_index_delete l 0 index). Qed.

Lemma delete_insert_same {A : Type} (l : list A) (i : nat) (x : A) :
  delete i (<[i := x]> l) = delete i l.
Proof.
  revert i. induction l as [|y l IH]; intros [|i]; simpl; try done.
  f_equal. apply IH.
Qed.

Lemma assoc_get_put {A : Type} (k : string) (v : A) (ps : list (string * A)) :
  assoc_get k (assoc_put k v ps) = Some v.
Proof.
  induction ps as [|[k' v'] ps IH]; simpl.
  - by rewrite String.eqb_refl.
  - destruct (String.eqb k k') eqn:E; simpl; rewrite ?String.eqb_refl, ?E; done.
Qed.

Lemma get_set_prop (line line' : JsValue) (k : string) (x : JsValue) :
  set_prop line k x = Normal line' → get_prop line' k = Normal x.
Proof.
  destruct line; simpl; intros [= <-]; simpl; by rewrite assoc_get_put.
Qed.

(** A successful [quantity++] or [quantity--] happened on an existing line
    and left the new quantity, a number, in that line. *)
Lemma bump_quantity_inv (step : JsNumber → JsNumber) (index : nat)
    (cart updated : list JsValue) :
  Checkout.bump_quantity step index cart = Normal updated →
  ∃ line old line',
    cart !! index = Some line ∧
    get_prop line "quantity" = Normal old ∧
    get_prop line' "quantity" = Normal (JNum (step (to_number old))) ∧
    updated = <[index := line']> cart ∧
    updated !! index = Some line'.
Proof.
  unfold Checkout.bump_quantity. intros Hb.
  destruct (cart !! index) as [line|] eqn:Hline; [|discriminate Hb].
  cbn in Hb. unfold mbind, completion_bind in Hb.
  destruct (get_prop line "quantity") as [old|] eqn:Hold; [|discriminate Hb].
  destruct (set_prop line "quantity" _) as [line'|] eqn:Hset; [|discriminate Hb].
  injection Hb as <-. exists line, old, line'.
  split; [done|]. split; [done|]. split; [by eapply get_set_prop|]. split; [done|].
  apply list_lookup_insert_eq. by eapply lookup_lt_Some.
Qed.

Lemma bump_quantity_run (step : JsNumber → JsNumber) (index : nat) (cart : list JsValue)
    (line : JsValue) (q : JsNumber) :
  cart !! index = Some line →
  get_prop line "quantity" = Normal (JNum q) →
  ∃ line', Checkout.bump_quantity step index cart = Normal (<[index := line']> cart).
Proof.
  intros Hline Hq. unfold Checkout.bump_quantity. rewrite Hline. cbn.
  unfold mbind, completion_bind. rewrite Hq.
  destruct line; try discriminate Hq; cbn; eexists; reflexivity.
Qed.

Lemma pow10_pos (e : nat) : (0 < pow10 e)%Z.
Proof. unfold pow10. apply Z.pow_pos_nonneg; lia. Qed.

Lemma one_less_is_below_one (q : JsNumber) :
  num_eqb q (Int 1) = true → num_lt (Checkout.decrement q) (Int 1) = true.
Proof.
  destruct q as [| |m e]; try discriminate.
  unfold Checkout.decrement, num_sub, Int. simpl. intros Hq.
  apply Z.eqb_eq in Hq. apply Z.ltb_lt.
  rewrite Nat.max_0_r, Nat.sub_diag, Nat.sub_0_r.
  change (10 ^ Z.of_nat e)%Z with (pow10 e) in *. change (pow10 0) with 1%Z in *.
  pose proof (pow10_pos e). lia.
Qed.

Lemma saveCartToStorage_run (updatedCart : list JsValue) (w : Checkout.World) :
  ∃ text,
    JSON_stringify (JArr updatedCart []) = Some text ∧
    Checkout.saveCartToStorage updatedCart w
      = (Normal tt,
         (Checkout.with_cart updatedCart w.1,
          emit (DispatchEvent "cartUpdated")
            (emit (SetItem "cart" text) (store <["cart" := text]> w.2)))).
Proof.
  destruct w as [st b]. destruct (stringify_array updatedCart []) as [text Htext].
  exists text. split; [exact Htext|].
  unfold Checkout.saveCartToStorage, Checkout.setCart, setItem, dispatchEvent.
  run. by rewrite Htext.
Qed.

(** What a successful write leaves behind. *)
Lemma remove_run (index : nat) (w : Checkout.World) :
  ∃ after text,
    Checkout.remove index w = (Normal tt, after) ∧
    Checkout.cart after.1 = delete index (Checkout.cart w.1) ∧
    JSON_stringify (JArr (delete index (Checkout.cart w.1)) []) = Some text ∧
    localStorage after.2 !! "cart" = Some text ∧
    trace after.2 = trace w.2 ++ [SetItem "cart" text; DispatchEvent "cartUpdated"].
Proof.
  destruct w as [st b]. unfold Checkout.remove. run.
  rewrite filter_index_removes.
  destruct (saveCartToStorage_run (delete index (Checkout.cart st)) (st, b))
    as (text & Htext & Hsave).
  rewrite Hsave. cbn. unfold showSuccess, addNotification, now_plus_random. run.
  eexists _, text. split; [reflexivity|]. cbn.
  split; [done|]. split; [done|]. split; [apply lookup_insert_eq|].
  by rewrite <- app_assoc.
Qed.

Lemma decrease_low (index : nat) (w : Checkout.World) (updated : list JsValue) :
  Checkout.bump_quantity Checkout.decrement index (Checkout.cart w.1) = Normal updated →
  Checkout.quantity_below_one (default JUndefined (updated !! index)) = Normal true →
  Checkout.decrease index w = Checkout.remove index (Checkout.with_cart updated w.1, w.2).
Proof.
  intros Hb Hlow. destruct w as [st b]. unfold Checkout.decrease. run.
  cbn in Hb. rewrite Hb. cbn. rewrite Hlow. reflexivity.
Qed.

Lemma decrease_high (index : nat) (w : Checkout.World) (updated : list JsValue) :
  Checkout.bump_quantity Checkout.decrement index (Checkout.cart w.1) = Normal updated →
  Checkout.quantity_below_one (default JUndefined (updated !! index)) = Normal false →
  Checkout.decrease index w
  = Checkout.saveCartToStorage updated (Checkout.with_cart updated w.1, w.2).
Proof.
  intros Hb Hlow. destruct w as [st b]. unfold Checkout.decrease. run.
  cbn in Hb. rewrite Hb. cbn. rewrite Hlow. reflexivity.
Qed.

(** ** The subtotal *)

Lemma line_amount_spec (line : JsValue) :
  line ≠ JNull → line ≠ JUndefined →
  Checkout.line_amount line = Normal (Spec.amount line).
Proof.
  intros Hnull Hundef. unfold Checkout.line_amount, Spec.amount, Spec.unit_price,
    Spec.quantity, Spec.field.
  destruct line; try done; cbn;
    repeat match goal with
           | |- context [js_or ?a ?b] => unfold js_or; cbn
           | |- context [if ?c then _ else _] => destruct c; cbn
           end; reflexivity.
Qed.

Lemma subtotal_loop_S (cart : list JsValue) (i n : nat) (sum : JsNumber) :
  Checkout.subtotal_loop cart i (S n) sum
  = amount ← Checkout.line_amount (default JUndefined (cart !! i));
    Checkout.subtotal_loop cart (S i) n (num_add sum amount).
Proof. reflexivity. Qed.

Lemma subtotal_loop_spec (cart : list JsValue) (n i : nat) (sum : JsNumber) :
  (∀ line, line ∈ cart → line ≠ JNull ∧ line ≠ JUndefined) →
  i + n = length cart →
  Checkout.subtotal_loop cart i n sum
  = Normal (fold_left (λ sum line, num_add sum (Spec.amount line)) (drop i cart) sum).
Proof.
  intros Hlines. revert i sum. induction n as [|n IH]; intros i sum Hlen.
  - rewrite drop_ge by lia. reflexivity.
  - destruct (lookup_lt_is_Some_2 cart i) as [line Hline]; [lia|].
    rewrite subtotal_loop_S, Hline.
    change (default JUndefined (Some line)) with line.
    destruct (Hlines line) as [Hnull Hundef]; [by eapply list_elem_of_lookup_2|].
    rewrite (line_amount_spec line Hnull Hundef). cbn.
    rewrite IH by lia. by rewrite (drop_S _ _ _ Hline).
Qed.

Lemma subtotal_spec (cart : list JsValue) :
  (∀ line, line ∈ cart → line ≠ JNull ∧ line ≠ JUndefined) →
  Checkout.subtotal cart = Normal (Spec.subtotal cart).
Proof.
  intros Hlines. unfold Checkout.subtotal.
  by rewrite (subtotal_loop_spec cart (length cart) 0 (Int 0) Hlines).
Qed.

Lemma num_mul_one (x : JsNumber) : num_mul x (Int 1) = x.
Proof.
  destruct x as [|s|m e]; cbn; [done| |].
  - by rewrite xorb_false_r.
  - by rewrite Z.mul_1_r, Nat.add_0_r.
Qed.

Lemma subtotal_snoc (cart : list JsValue) (line : JsValue) (s a : JsNumber) :
  Checkout.subtotal cart = Normal s →
  Checkout.line_amount line = Normal a →
  Checkout.subtotal (cart ++ [line]) = Normal (num_add s a).
Proof.
  unfold Checkout.subtotal. rewrite length_app. cbn [length].
  replace (length cart + 1) with (S (length cart)) by lia.
  assert (Hloop : ∀ n i sum,
            i + n = length cart →
            Checkout.subtotal_loop (cart ++ [line]) i (S n) sum
            = s' ← Checkout.subtotal_loop cart i n sum;
              a' ← Checkout.line_amount line; mret (num_add s' a')).
  { induction n as [|n IH]; intros i sum Hlen.
    - rewrite subtotal_loop_S, lookup_app_r by lia.
      replace (i - length cart) with 0 by lia. cbn.
      unfold mbind, completion_bind. by destruct (Checkout.line_amount line).
    - destruct (lookup_lt_is_Some_2 cart i) as [x Hx]; [lia|].
      rewrite (subtotal_loop_S (cart ++ [line]) i), (subtotal_loop_S cart i).
      rewrite lookup_app_l by lia. rewrite Hx.
      change (default JUndefined (Some x)) with x.
      destruct (Checkout.line_amount x) as [ax|e]; [|done].
      exact (IH (S i) (num_add sum ax) ltac:(lia)). }
  intros Hs Ha. rewrite (Hloop (length cart) 0 (Int 0)) by lia.
  rewrite Hs, Ha. reflexivity.
Qed.

(** C9.  A line whose [quantity] is absent or falsy counts as quantity 1:
    its amount is its unit price.  [addCart] appends the catalog record
    itself, adding no field; so for a record without a [quantity] the new
    line has none, and the subtotal of the new cart is the subtotal of the
    old one plus the unit price of the record. *)
Theorem absent_quantity_counts_as_one
    (w : Products.World) (props : list (string * JsValue)) (s : JsNumber) :
  let product := JObj props in
  assoc_get "quantity" props = None →
  Checkout.subtotal (Products.cart w.1) = Normal s →
  (∀ line q, get_prop line "quantity" = Normal q → truthy q = false →
     Checkout.line_amount line = Normal (Spec.unit_price line)) ∧
  ∃ after,
    Products.addCart product w = (Normal tt, after) ∧
    Products.cart after.1 = Products.cart w.1 ++ [product] ∧
    get_prop product "quantity" = Normal JUndefined ∧
    Checkout.line_amount product = Normal (Spec.unit_price product) ∧
    Checkout.subtotal (Products.cart after.1)
      = Normal (num_add s (Spec.unit_price product)).
Proof.
  intros product Hnone Hs.
  assert (Hfalsy : ∀ line q, get_prop line "quantity" = Normal q → truthy q = false →
            Checkout.line_amount line = Normal (Spec.unit_price line)).
  { intros line q Hq Hf.
    assert (line ≠ JNull ∧ line ≠ JUndefined) as [Hnull Hundef]
      by (split; intros ->; discriminate Hq).
    rewrite (line_amount_spec line Hnull Hundef). f_equal.
    unfold Spec.amount, Spec.quantity, Spec.field. rewrite Hq, Hf.
    apply num_mul_one. }
  split; [exact Hfalsy|].
  assert (Hq : get_prop product "quantity" = Normal JUndefined)
    by (cbn; by rewrite Hnone).
  pose proof (Hfalsy product JUndefined Hq eq_refl) as Hamount.
  destruct w as [st b]. unfold Products.addCart, Products.setCart, showSuccess,
    addNotification, now_plus_random. run.
  eexists. split; [reflexivity|]. cbn.
  split; [done|]. split; [done|]. split; [done|].
  by apply subtotal_snoc.
Qed.

Lemma absent_quantity_counts_as_one_witness :
  let w : Products.World := (Demo.catalog [Demo.rose], Demo.browser ∅) in
  let props := [("_id", JStr "p7"); ("name", JStr "Oud"); ("price", JNum (Dec 2495 1));
                ("image1", JStr "oud-1")] in
  assoc_get "quantity" props = None ∧
  Checkout.subtotal (Products.cart w.1) = Normal (Int 200) ∧
  ∃ after,
    Products.addCart Demo.oud w = (Normal tt, after) ∧
    Products.cart after.1 = [Demo.rose; Demo.oud] ∧
    Checkout.subtotal (Products.cart after.1) = Normal (Dec 4495 1).
Proof.
  intros w props.
  assert (Hnone : assoc_get "quantity" props = None) by reflexivity.
  assert (Hs : Checkout.subtotal (Products.cart w.1) = Normal (Int 200)) by reflexivity.
  split; [exact Hnone|]. split; [exact Hs|].
  destruct (absent_quantity_counts_as_one w props (Int 200) Hnone Hs)
    as (_ & after & Hrun & Hcart & _ & _ & Hsub).
  exists after. split; [exact Hrun|]. split; [exact Hcart|exact Hsub].
Defined.

(** ** JSON texts: printing then parsing *)

Lemma digit_char_val (d : N) : (d < 10)%N → digit_val (digit_char d) = d.
Proof.
  intros Hd. unfold digit_val, digit_char.
  rewrite N_ascii_embedding by lia. lia.
Qed.

Lemma digit_char_is_digit (d : N) : (d < 10)%N → is_digit (digit_char d) = true.
Proof.
  intros Hd. unfold is_digit, digit_char.
  rewrite N_ascii_embedding by lia.
  apply andb_true_iff. split; apply N.leb_le; lia.
Qed.

Lemma N_of_digits_app (ds1 ds2 : list ascii) :
  N_of_digits (ds1 ++ ds2)
  = fold_left (λ acc c, (acc * 10 + digit_val c)%N) ds2 (N_of_digits ds1).
Proof. unfold N_of_digits. apply fold_left_app. Qed.

(** The digits of [n] on top of [acc]: they denote [n], are digits, and
    start with a zero only for [n = 0]. *)
Lemma digits_fuel_spec (fuel : nat) (n : N) (acc : list ascii) :
  (n < 2 ^ N.of_nat fuel)%N → fuel ≠ 0 →
  ∃ ds, digits_fuel fuel n acc = ds ++ acc ∧
        N_of_digits ds = n ∧
        forallb is_digit ds = true ∧
        ds ≠ [] ∧
        (n ≠ 0%N → ∃ d ds', ds = d :: ds' ∧ d ≠ "0"%char) ∧
        (n = 0%N → ds = ["0"%char]).
Proof.
  revert n acc. induction fuel as [|fuel IH]; intros n acc Hn Hf; [done|].
  cbn [digits_fuel].
  assert (Hmod : (n mod 10 < 10)%N) by (apply N.mod_lt; lia).
  destruct (N.eqb_spec (n / 10) 0) as [Hz|Hnz].
  - exists [digit_char (n mod 10)]. split; [done|].
    assert (Hsmall : (n < 10)%N).
    { destruct (N.lt_ge_cases n 10) as [|Hge]; [done|].
      pose proof (N.Div0.div_le_mono 10 n 10 Hge) as Hd.
      rewrite N.div_same in Hd by lia. lia. }
    rewrite N.mod_small in * by done.
    split; [cbn; rewrite digit_char_val by done; lia|].
    split; [cbn; by rewrite digit_char_is_digit|].
    split; [done|]. split.
    + intros Hne. exists (digit_char n), []. split; [done|].
      intros Heq. apply (f_equal digit_val) in Heq.
      rewrite digit_char_val in Heq by done.
      change (digit_val "0"%char) with 0%N in Heq. lia.
    + by intros ->.
  - assert (Hdiv : (n / 10 < 2 ^ N.of_nat fuel)%N).
    { rewrite Nat2N.inj_succ, N.pow_succ_r' in Hn.
      apply N.Div0.div_lt_upper_bound.
      revert Hn. generalize (2 ^ N.of_nat fuel)%N. lia. }
    assert (Hfuel : fuel ≠ 0).
    { intros ->. change (2 ^ N.of_nat 0)%N with 1%N in Hdiv.
      apply Hnz. by apply N.lt_1_r. }
    destruct (IH (n / 10)%N (digit_char (n mod 10) :: acc) Hdiv Hfuel)
      as (ds & Hds & Hval & Hdig & Hne & Hhead & _).
    exists (ds ++ [digit_char (n mod 10)]).
    split; [by rewrite Hds, <- app_assoc|].
    split.
    { rewrite N_of_digits_app. cbn. rewrite Hval, digit_char_val by done.
      rewrite (N.div_mod n 10) at 3 by lia. apply N.add_cancel_r, N.mul_comm. }
    split.
    { rewrite forallb_app, Hdig. cbn. by rewrite digit_char_is_digit. }
    split; [by destruct ds|]. split.
    + intros _. destruct (Hhead Hnz) as (d & ds' & -> & Hd).
      exists d, (ds' ++ [digit_char (n mod 10)]). by split.
    + intros ->. cbn in Hnz. done.
Qed.

Lemma digits_of_N_spec (n : N) :
  N_of_digits (digits_of_N n) = n ∧
  forallb is_digit (digits_of_N n) = true ∧
  digits_of_N n ≠ [] ∧
  (n ≠ 0%N → ∃ d ds', digits_of_N n = d :: ds' ∧ d ≠ "0"%char) ∧
  (n = 0%N → digits_of_N n = ["0"%char]).
Proof.
  unfold digits_of_N.
  destruct (digits_fuel_spec (S (N.to_nat (N.size n))) n []) as (ds & Hds & H); [|done|].
  - rewrite Nat2N.inj_succ, N2Nat.id, N.pow_succ_r'.
    pose proof (N.size_gt n) as Hs.
    revert Hs. generalize (2 ^ N.size n)%N. lia.
  - rewrite app_nil_r in Hds. by rewrite Hds.
Qed.

Lemma span_digits_app (ds rest : list ascii) :
  forallb is_digit ds = true →
  match rest with c :: _ => is_digit c = false | [] => True end →
  span_digits (ds ++ rest) = (ds, rest).
Proof.
  intros Hds Hrest. induction ds as [|d ds IH]; cbn.
  - destruct rest as [|c rest]; [done|]. cbn. by rewrite Hrest.
  - cbn in Hds. apply andb_true_iff in Hds as [Hd Hds]. by rewrite Hd, IH.
Qed.

Lemma N_of_digits_zeros (k : nat) (ds : list ascii) :
  N_of_digits (repeat "0"%char k ++ ds) = N_of_digits ds.
Proof.
  induction k as [|k IH]; [done|].
  unfold N_of_digits in *. cbn [repeat app fold_left]. exact IH.
Qed.

Lemma is_digit_not_minus (d : ascii) : is_digit d = true → Ascii.eqb d "-" = false.
Proof. intros Hd. destruct (Ascii.eqb_spec d "-") as [->|]; [discriminate Hd|done]. Qed.

Lemma number_end_digit (rest : list ascii) :
  number_end rest = true →
  match rest with c :: _ => is_digit c = false | [] => True end.
Proof.
  destruct rest as [|c rest]; [done|]. cbn. intros H.
  apply negb_true_iff, orb_false_iff in H. tauto.
Qed.

Lemma number_end_scan (rest : list ascii) :
  number_end rest = true →
  match rest with
  | c :: _ => Ascii.eqb c "." = false ∧ Ascii.eqb c "e" = false ∧ Ascii.eqb c "E" = false
  | [] => True
  end.
Proof.
  destruct rest as [|c rest]; [done|]. cbn. intros H.
  apply negb_true_iff, orb_false_iff in H as [_ H].
  rewrite !orb_false_r in H. apply orb_false_iff in H as [H1 H].
  apply orb_false_iff in H as [H2 H3]. done.
Qed.

Lemma scan_exponent_end (rest : list ascii) :
  number_end rest = true → scan_exponent rest = (None, rest).
Proof.
  intros H. pose proof (number_end_scan rest H) as Hs.
  destruct rest as [|c rest]; [done|]. destruct Hs as (_ & He & HE).
  cbn. by rewrite He, HE.
Qed.

(** The integer part and the fraction that [print_dec] writes for the
    digits [ds] of a mantissa at scale [e]. *)
Lemma padded_split (ds : list ascii) (e : nat) (d : ascii) (ds' : list ascii) :
  ds = d :: ds' → (length ds ≤ e → True) →
  let padded := repeat "0"%char (S e - length ds) ++ ds in
  let k := length padded - e in
  length (drop k padded) = e ∧
  ∃ i i', take k padded = i :: i' ∧
          (length ds ≤ e → i = "0"%char ∧ i' = []) ∧
          (e < length ds → i = d).
Proof.
  intros -> _ padded k.
  assert (Hlen : length padded = Nat.max (S e) (S (length ds'))).
  { unfold padded. rewrite length_app, repeat_length. cbn [length]. lia. }
  split; [rewrite length_drop; lia|].
  destruct (le_lt_dec (S (length ds')) e) as [Hle|Hgt].
  - assert (k = 1) as -> by (unfold k; lia).
    assert (S e - length (d :: ds') = S (e - length (d :: ds'))) as Hrep
      by (cbn [length]; lia).
    unfold padded. rewrite Hrep. cbn [repeat app take].
    exists "0"%char, []. split; [done|]. split; [done|]. cbn [length]. lia.
  - assert (S e - length (d :: ds') = 0) as Hrep by (cbn [length]; lia).
    unfold k, padded. rewrite Hrep. cbn [repeat app length].
    replace (S (length ds') - e) with (S (length ds' - e)) by lia.
    cbn [take]. exists d, (take (length ds' - e) ds'). split; [done|].
    split; [cbn [length]; lia|done].
Qed.

Lemma strip_zeros_nonzero (m : Z) (e : nat) :
  strip_zeros m (S e) = (m, S e) → m ≠ 0%Z.
Proof.
  cbn [strip_zeros]. intros H ->. change (0 mod 10 =? 0)%Z with true in H.
  cbn [strip_zeros] in H.
  assert (Hle : ∀ m' e', (strip_zeros m' e').2 ≤ e').
  { clear. intros m' e'. revert m'. induction e' as [|e' IH]; intros m'; [done|].
    cbn [strip_zeros]. destruct (m' mod 10 =? 0)%Z; [|done].
    specialize (IH (m' / 10)%Z). lia. }
  specialize (Hle (0 / 10)%Z e). rewrite H in Hle. cbn in Hle. lia.
Qed.

(** The value of a literal without exponent whose digits denote [|m|]. *)
Lemma dec_value_plain (m : Z) (i : list ascii) (f : option (list ascii)) :
  N_of_digits (i ++ default [] f) = Z.abs_N m →
  dec_value (m <? 0)%Z i f None = Dec m (length (default [] f)).
Proof.
  intros Hval. unfold dec_value. rewrite Hval, N2Z.inj_abs_N.
  change (default 0%Z None) with 0%Z. change (0 <=? 0)%Z with true. cbv iota.
  rewrite Z.pow_0_r, Z.mul_1_r. f_equal.
  destruct (Z.ltb_spec m 0); lia.
Qed.

Lemma lex_number_print (m : Z) (e : nat) (rest : list ascii) :
  strip_zeros m e = (m, e) → number_end rest = true →
  lex_number (print_dec m e ++ rest) = Some (Dec m e, rest).
Proof.
  intros Hcanon Hend. unfold print_dec. rewrite Hcanon.
  destruct (digits_of_N_spec (Z.abs_N m)) as (Hval & Hdig & Hne & Hhead & Hzero).
  set (ds := digits_of_N (Z.abs_N m)) in *.
  destruct ds as [|d ds'] eqn:Hds; [done|]. clear Hne.
  assert (Hd : is_digit d = true) by (cbn in Hdig; by apply andb_true_iff in Hdig as [? _]).
  pose proof (number_end_digit rest Hend) as Hrest.
  pose proof (scan_exponent_end rest Hend) as Hexp.
  assert (Hsign : ∀ body, (∃ c body', body = c :: body' ∧ is_digit c = true) →
            lex_number ((if (m <? 0)%Z then "-"%char :: body else body) ++ rest)
            = (let '(i, f, x, r) := scan_decimal (body ++ rest) in
               let int_ok :=
                 match i with
                 | [] => false
                 | d :: i' =>
                     negb (Ascii.eqb d "0") || match i' with [] => true | _ :: _ => false end
                 end in
               let frac_ok := match f with Some [] => false | _ => true end in
               if int_ok && frac_ok then Some (dec_value (m <? 0)%Z i f x, r) else None)).
  { intros body (c & body' & -> & Hc). unfold lex_number.
    destruct (m <? 0)%Z; cbn [app].
    - reflexivity.
    - by rewrite (is_digit_not_minus c Hc). }
  destruct e as [|e].
  - (* an integer *)
    replace (1 - length (d :: ds')) with 0 by (cbn [length]; lia).
    cbn [repeat app]. rewrite Hsign by (by exists d, ds').
    unfold scan_decimal. rewrite (span_digits_app (d :: ds') rest Hdig Hrest).
    assert (Hdot : (match rest with
                    | c :: s1' =>
                        if Ascii.eqb c "." then let '(fd, r) := span_digits s1' in (Some fd, r)
                        else (None, rest)
                    | [] => (None, rest)
                    end) = (None, rest)).
    { pose proof (number_end_scan rest Hend) as Hs.
      destruct rest as [|c rest']; [done|]. destruct Hs as (-> & _). done. }
    rewrite Hdot, Hexp.
    assert (Hint : negb (Ascii.eqb d "0") || match ds' with [] => true | _ :: _ => false end = true).
    { destruct (N.eq_dec (Z.abs_N m) 0%N) as [Hz|Hnz].
      - specialize (Hzero Hz). injection Hzero as -> ->. done.
      - destruct (Hhead Hnz) as (d0 & ds0 & [= <- <-] & Hd0).
        destruct (Ascii.eqb_spec d "0"); done. }
    rewrite Hint. cbn [andb].
    rewrite dec_value_plain by (cbn [default from_option Datatypes.id]; by rewrite app_nil_r).
    reflexivity.
  - (* a fraction *)
    destruct (padded_split (d :: ds') (S e) d ds' eq_refl (λ _, I))
      as (Hfrac & i & i' & Htake & Hshort & Hlong).
    set (padded := repeat "0"%char (S (S e) - length (d :: ds')) ++ d :: ds') in *.
    set (k := length padded - S e) in *.
    assert (Hpd : forallb is_digit padded = true).
    { unfold padded. rewrite forallb_app, Hdig, andb_true_r.
      generalize (S (S e) - length (d :: ds')). intros n. by induction n. }
    assert (Hi : forallb is_digit (take k padded) = true ∧
                 forallb is_digit (drop k padded) = true).
    { rewrite <- (take_drop k padded), forallb_app in Hpd.
      by apply andb_true_iff in Hpd. }
    destruct Hi as [Hti Hdr].
    rewrite Hsign.
    2:{ exists i, (i' ++ "."%char :: drop k padded). rewrite Htake. split; [done|].
        rewrite Htake in Hti. cbn in Hti. by apply andb_true_iff in Hti as [? _]. }
    unfold scan_decimal. rewrite <- app_assoc. cbn [app].
    rewrite (span_digits_app (take k padded) ("."%char :: drop k padded ++ rest) Hti eq_refl).
    cbn [Ascii.eqb Bool.eqb]. rewrite (span_digits_app (drop k padded) rest Hdr Hrest).
    rewrite Hexp. rewrite Htake.
    assert (Hint : negb (Ascii.eqb i "0") || match i' with [] => true | _ :: _ => false end = true).
    { destruct (le_lt_dec (length (d :: ds')) (S e)) as [Hle|Hgt].
      - destruct (Hshort Hle) as [-> ->]. done.
      - rewrite (Hlong Hgt).
        pose proof (strip_zeros_nonzero m e Hcanon) as Hm.
        destruct (Hhead ltac:(lia)) as (d0 & ds0 & [= <- <-] & Hd0).
        destruct (Ascii.eqb_spec d "0"); done. }
    rewrite Hint. cbn [andb].
    destruct (drop k padded) as [|f0 fs] eqn:Hdrop; [cbn in Hfrac; lia|].
    cbn [andb]. rewrite dec_value_plain.
    + cbn [default from_option Datatypes.id length] in *. by rewrite Hfrac.
    + cbn [default from_option Datatypes.id].
      rewrite <- Htake, <- Hdrop, take_drop. unfold padded.
      by rewrite N_of_digits_zeros.
Qed.

Lemma hex4_control (n : N) :
  (n < 32)%N →
  hex4 "0" "0" (hex_digit (n / 16)) (hex_digit (n mod 16)) = Some n.
Proof.
  intros Hn. destruct n as [|p]; [reflexivity|].
  do 5 (try (destruct p as [p|p|]; try (exfalso; lia))); reflexivity.
Qed.

Lemma ascii_of_code (c : ascii) (n : N) : N_of_ascii c = n → c = ascii_of_N n.
Proof. intros <-. by rewrite ascii_N_embedding. Qed.

Lemma lex_string_escape (c : ascii) (tail str r : list ascii) :
  lex_string tail = Some (str, r) →
  lex_string (escape_char c ++ tail) = Some (c :: str, r).
Proof.
  intros H. unfold escape_char.
  destruct (Ascii.eqb_spec c dquote) as [->|Hquote].
  { cbn [app lex_string Ascii.eqb Bool.eqb simple_escape dquote]. cbv iota. by rewrite H. }
  destruct (Ascii.eqb_spec c "\") as [->|Hback].
  { cbn [app lex_string Ascii.eqb Bool.eqb simple_escape]. cbv iota. by rewrite H. }
  destruct (N.eqb_spec (N_of_ascii c) 8) as [->%ascii_of_code|_].
  { cbn [app lex_string Ascii.eqb Bool.eqb simple_escape]. cbv iota. by rewrite H. }
  destruct (N.eqb_spec (N_of_ascii c) 12) as [->%ascii_of_code|_].
  { cbn [app lex_string Ascii.eqb Bool.eqb simple_escape]. cbv iota. by rewrite H. }
  destruct (N.eqb_spec (N_of_ascii c) 10) as [->%ascii_of_code|_].
  { cbn [app lex_string Ascii.eqb Bool.eqb simple_escape]. cbv iota. by rewrite H. }
  destruct (N.eqb_spec (N_of_ascii c) 13) as [->%ascii_of_code|_].
  { cbn [app lex_string Ascii.eqb Bool.eqb simple_escape]. cbv iota. by rewrite H. }
  destruct (N.eqb_spec (N_of_ascii c) 9) as [->%ascii_of_code|_].
  { cbn [app lex_string Ascii.eqb Bool.eqb simple_escape]. cbv iota. by rewrite H. }
  destruct (N.ltb_spec (N_of_ascii c) 32) as [Hctl|Hraw].
  - cbn [app lex_string Ascii.eqb Bool.eqb]. cbv iota.
    rewrite (hex4_control _ Hctl), H.
    assert (Hlow : is_high_surrogate (N_of_ascii c) = false).
    { unfold is_high_surrogate. apply andb_false_iff. left. apply N.leb_gt. lia. }
    rewrite Hlow. unfold utf8_encode.
    assert (Hshort : (N_of_ascii c <? 128)%N = true) by (apply N.ltb_lt; lia).
    rewrite Hshort. by rewrite ascii_N_embedding.
  - cbn [app lex_string].
    destruct (Ascii.eqb_spec c dquote); [done|].
    destruct (Ascii.eqb_spec c "\"); [done|].
    destruct (N.ltb_spec (N_of_ascii c) 32); [lia|]. by rewrite H.
Qed.

Lemma lex_string_quote (s rest : list ascii) :
  lex_string (concat (map escape_char s) ++ dquote :: rest) = Some (s, rest).
Proof.
  induction s as [|c s IH]; [done|].
  cbn [map concat]. rewrite <- app_assoc. by apply lex_string_escape.
Qed.

(** The text of a token is not empty, starts with no white space, and is
    read back as the token when what follows fits. *)
Lemma lex_token_text (t : token) (rest : list ascii) :
  token_fits t rest →
  ∃ c cs, token_text t = c :: cs ∧ is_json_ws c = false ∧
          lex_token (token_text t ++ rest) = Some (t, rest).
Proof.
  intros Hfit. destruct t as [| | | | | |s|n| | |]; try (by eexists _, _).
  - (* a string *)
    eexists _, _. split; [reflexivity|]. split; [done|].
    cbn [token_text quote_chars app lex_token punctuation Ascii.eqb Bool.eqb].
    cbv iota. rewrite <- app_assoc. cbn [app].
    rewrite lex_string_quote. by rewrite string_of_list_ascii_of_string.
  - (* a number *)
    destruct n as [| |m e]; try done. destruct Hfit as [Hcanon Hend].
    pose proof (lex_number_print m e rest Hcanon Hend) as Hlex.
    cbn [token_text].
    assert (Hhead : ∃ c cs, print_dec m e = c :: cs ∧
                            (Ascii.eqb c "-" || is_digit c = true)).
    { unfold print_dec. rewrite Hcanon.
      destruct (digits_of_N_spec (Z.abs_N m)) as (_ & Hdig & Hne & _).
      destruct (digits_of_N (Z.abs_N m)) as [|d ds] eqn:Hds; [done|].
      destruct (m <? 0)%Z; [by eexists _, _|].
      destruct e as [|e].
      - replace (1 - length (d :: ds)) with 0 by (cbn [length]; lia).
        exists d, ds. split; [done|]. cbn in Hdig.
        apply andb_true_iff in Hdig as [-> _]. apply orb_true_r.
      - destruct (padded_split (d :: ds) (S e) d ds eq_refl (λ _, I))
          as (_ & i & i' & Htake & Hshort & Hlong).
        rewrite Htake. exists i, (i' ++ "."%char :: drop
          (length (repeat "0"%char (S (S e) - length (d :: ds)) ++ d :: ds) - S e)
          (repeat "0"%char (S (S e) - length (d :: ds)) ++ d :: ds)).
        split; [done|].
        destruct (le_lt_dec (length (d :: ds)) (S e)) as [Hle|Hgt].
        + by destruct (Hshort Hle) as [-> _].
        + rewrite (Hlong Hgt). cbn in Hdig.
          apply andb_true_iff in Hdig as [-> _]. apply orb_true_r. }
    destruct Hhead as (c & cs & Hpr & Hc). rewrite Hpr in *.
    exists c, cs. split; [done|].
    assert (Hkind : punctuation c = None ∧ Ascii.eqb c dquote = false ∧ is_json_ws c = false).
    { destruct c as [[] [] [] [] [] [] [] []]; try done. }
    destruct Hkind as (Hp & Hq & Hw). split; [done|].
    cbn [app lex_token]. rewrite Hp, Hq, Hc.
    change (c :: cs ++ rest) with ((c :: cs) ++ rest). by rewrite Hlex.
Qed.

Lemma text_of_cons (t : token) (ts : list token) :
  text_of (t :: ts) = token_text t ++ text_of ts.
Proof. reflexivity. Qed.

Lemma lex_text_of (ts : list token) (fuel : nat) :
  tokens_fit ts → length (text_of ts) < fuel → lex fuel (text_of ts) = Some ts.
Proof.
  revert fuel. induction ts as [|t ts IH]; intros fuel Hfit Hfuel.
  - destruct fuel; [lia|done].
  - destruct Hfit as [Ht Hts].
    destruct (lex_token_text t (text_of ts) Ht) as (c & cs & Htext & Hws & Hlex).
    rewrite text_of_cons in *. rewrite Htext in *.
    destruct fuel as [|fuel]; [lia|].
    cbn [lex app]. rewrite Hws. change (c :: cs ++ text_of ts) with ((c :: cs) ++ text_of ts).
    rewrite Hlex. rewrite IH; [done|done|].
    rewrite length_app in Hfuel. cbn [length] in Hfuel. lia.
Qed.

Lemma tokens_of_arr (elems : list JsValue) (own : list (string * JsValue)) :
  tokens_of (JArr elems own) = TLBracket :: elements_tokens elems.
Proof. reflexivity. Qed.

Lemma tokens_of_obj (props : list (string * JsValue)) :
  tokens_of (JObj props) = TLBrace :: members_tokens true props.
Proof. reflexivity. Qed.

Lemma elements_tokens_cons (x : JsValue) (vs : list JsValue) :
  elements_tokens (x :: vs)
  = tokens_of x ++ match vs with [] => [TRBracket] | _ :: _ => TComma :: elements_tokens vs end.
Proof. by destruct vs. Qed.

Lemma members_tokens_cons (first : bool) (k : string) (x : JsValue)
    (ps : list (string * JsValue)) :
  is_undefined x = false →
  members_tokens first ((k, x) :: ps)
  = (if first then [] else [TComma]) ++
    TString k :: TColon :: tokens_of x ++ members_tokens false ps.
Proof. intros Hx. cbn [members_tokens]. by rewrite Hx. Qed.

Lemma serializable_defined (x : JsValue) : serializable x = true → is_undefined x = false.
Proof. by destruct x. Qed.

(** The first token of a value opens the value. *)
Lemma tokens_of_head (v : JsValue) :
  ∃ t ts, tokens_of v = t :: ts ∧
          t ≠ TRBracket ∧ t ≠ TRBrace ∧ t ≠ TComma ∧ t ≠ TColon.
Proof.
  destruct v as [| |[]|[| |]|s|elems own|props]; try (by eexists _, _).
Qed.

Lemma tokens_of_fit (v : JsValue) :
  serializable v = true →
  ∀ ts, tokens_fit ts → number_end (text_of ts) = true → tokens_fit (tokens_of v ++ ts).
Proof.
  induction v as [| |b|n|s|elems own IH|props IH] using JsValue_nested_ind;
    intros Hser ts Hts Hend; try discriminate Hser.
  - done.
  - by destruct b.
  - destruct n as [| |m e]; try discriminate Hser.
    cbn in Hser. apply bool_decide_eq_true in Hser. cbn. by repeat split.
  - done.
  - (* an array *)
    cbn in Hser. destruct own; [|discriminate Hser].
    rewrite tokens_of_arr. cbn [app tokens_fit]. split; [done|].
    clear Hend. induction elems as [|x vs IHvs]; [cbn; by repeat split|].
    cbn [forallb] in Hser. apply andb_true_iff in Hser as [Hx Hvs].
    apply Forall_cons in IH as [IHx IH].
    rewrite elements_tokens_cons, <- app_assoc. apply (IHx Hx).
    + destruct vs; cbn [app tokens_fit]; [by repeat split|].
      split; [done|]. by apply IHvs.
    + by destruct vs.
  - (* an object *)
    cbn in Hser. apply andb_true_iff in Hser as [_ Hser].
    rewrite tokens_of_obj. cbn [app tokens_fit]. split; [done|].
    clear Hend. generalize true as first.
    induction props as [|[k x] ps IHps]; intros first; [cbn; by repeat split|].
    cbn [forallb snd] in Hser. apply andb_true_iff in Hser as [Hx Hps].
    apply Forall_cons in IH as [IHx IH]. cbn [snd] in IHx.
    rewrite members_tokens_cons by (by apply serializable_defined).
    assert (Hrest : tokens_fit (tokens_of x ++ members_tokens false ps ++ ts)).
    { apply (IHx Hx); [by apply IHps|].
      destruct ps as [|[k' x'] ps'].
      - done.
      - cbn [forallb snd] in Hps. apply andb_true_iff in Hps as [Hx' _].
        by rewrite members_tokens_cons by (by apply serializable_defined). }
    rewrite <- !app_assoc. cbn [app]. rewrite <- app_assoc.
    destruct first; cbn [app tokens_fit]; by repeat split.
Qed.

Lemma assoc_get_snoc_none {A : Type} (k k' : string) (x : A) (acc : list (string * A)) :
  assoc_get k acc = None → k ≠ k' → assoc_get k (acc ++ [(k', x)]) = None.
Proof.
  intros Hacc Hne. induction acc as [|[k0 x0] acc IH]; cbn in *.
  - by destruct (String.eqb_spec k k').
  - destruct (String.eqb k k0); [done|]. by apply IH.
Qed.

Lemma assoc_put_fresh {A : Type} (k : string) (x : A) (acc : list (string * A)) :
  assoc_get k acc = None → assoc_put k x acc = acc ++ [(k, x)].
Proof.
  intros Hacc. induction acc as [|[k0 x0] acc IH]; cbn in *; [done|].
  destruct (String.eqb k k0); [done|]. by rewrite IH.
Qed.

Lemma assoc_get_elem {A : Type} (k : string) (x : A) (ps : list (string * A)) :
  (k, x) ∈ ps → assoc_get k ps ≠ None.
Proof.
  induction ps as [|[k0 x0] ps IH]; intros Hin; [by apply elem_of_nil in Hin|].
  cbn. destruct (String.eqb_spec k k0); [done|].
  apply elem_of_cons in Hin as [[= ? ?]|Hin]; [done|by apply IH].
Qed.

Lemma parse_value_S (fuel : nat) (ts : list token) :
  parse_value (S fuel) ts
  = match ts with
    | TNull :: r => Some (JNull, r)
    | TTrue :: r => Some (JBool true, r)
    | TFalse :: r => Some (JBool false, r)
    | TNumber n :: r => Some (JNum n, r)
    | TString s :: r => Some (JStr s, r)
    | TLBracket :: TRBracket :: r => Some (JArr [] [], r)
    | TLBracket :: r =>
        match parse_elements fuel r with
        | Some (vs, r') => Some (JArr vs [], r')
        | None => None
        end
    | TLBrace :: TRBrace :: r => Some (JObj [], r)
    | TLBrace :: r =>
        match parse_members fuel [] r with
        | Some (ps, r') => Some (JObj ps, r')
        | None => None
        end
    | _ => None
    end.
Proof. reflexivity. Qed.

Lemma parse_elements_S (fuel : nat) (ts : list token) :
  parse_elements (S fuel) ts
  = match parse_value fuel ts with
    | Some (v, TComma :: r) =>
        match parse_elements fuel r with
        | Some (vs, r') => Some (v :: vs, r')
        | None => None
        end
    | Some (v, TRBracket :: r) => Some ([v], r)
    | _ => None
    end.
Proof. reflexivity. Qed.

Lemma parse_members_S (fuel : nat) (acc : list (string * JsValue)) (ts : list token) :
  parse_members (S fuel) acc ts
  = match ts with
    | TString k :: TColon :: r =>
        match parse_value fuel r with
        | Some (v, TComma :: r') => parse_members fuel (assoc_put k v acc) r'
        | Some (v, TRBrace :: r') => Some (assoc_put k v acc, r')
        | _ => None
        end
    | _ => None
    end.
Proof. reflexivity. Qed.

Lemma parse_tokens_of (v : JsValue) :
  serializable v = true →
  ∀ rest fuel, length (tokens_of v) < fuel →
    parse_value fuel (tokens_of v ++ rest) = Some (v, rest).
Proof.
  induction v as [| |b|n|s|elems own IH|props IH] using JsValue_nested_ind;
    intros Hser rest fuel Hfuel; try discriminate Hser;
    (destruct fuel as [|fuel]; [lia|]).
  - done.
  - by destruct b.
  - by destruct n.
  - done.
  - (* an array *)
    cbn in Hser. destruct own; [|discriminate Hser].
    rewrite tokens_of_arr in *. cbn [app length] in *.
    destruct elems as [|x vs]; [done|].
    rewrite parse_value_S.
    assert (Helems : ∀ vs fuel,
              Forall (λ v, serializable v = true →
                           ∀ rest fuel, length (tokens_of v) < fuel →
                             parse_value fuel (tokens_of v ++ rest) = Some (v, rest)) vs →
              forallb serializable vs = true → vs ≠ [] →
              length (elements_tokens vs) < fuel →
              parse_elements fuel (elements_tokens vs ++ rest) = Some (vs, rest)).
    { clear. induction vs as [|x vs IHvs]; intros fuel IH Hser Hne Hfuel; [done|].
      destruct fuel as [|fuel]; [lia|].
      cbn [forallb] in Hser. apply andb_true_iff in Hser as [Hx Hvs].
      apply Forall_cons in IH as [IHx IH].
      rewrite elements_tokens_cons, length_app in Hfuel.
      rewrite elements_tokens_cons, <- app_assoc, parse_elements_S.
      destruct vs as [|y vs].
      - cbn [app length] in *. rewrite (IHx Hx) by lia. done.
      - cbn [app length] in *. rewrite (IHx Hx) by lia.
        pose proof (tokens_of_head x) as (t & ts & Hx' & _).
        rewrite Hx' in Hfuel. cbn [length] in Hfuel.
        rewrite IHvs; [done|done|done|done|lia]. }
    destruct (tokens_of_head x) as (t & ts & Hhead & Hnb & _).
    rewrite elements_tokens_cons, Hhead in *. cbn [app].
    assert (Hopen : ∀ (r : list token) (A : Type) (a b : A),
              match t :: r with TRBracket :: _ => a | _ => b end = b)
      by (intros; by destruct t).
    transitivity (match parse_elements fuel (elements_tokens (x :: vs) ++ rest) with
                  | Some (vs', r') => Some (JArr vs' [], r')
                  | None => None
                  end).
    { rewrite elements_tokens_cons, Hhead. cbn [app]. by destruct t. }
    rewrite Helems; [done|done|done|done|].
    rewrite elements_tokens_cons, Hhead. cbn [app length] in Hfuel |- *. lia.
  - (* an object *)
    cbn in Hser. apply andb_true_iff in Hser as [Hkeys Hser].
    rewrite tokens_of_obj in *. cbn [app length] in *.
    destruct props as [|[k x] ps]; [done|].
    rewrite parse_value_S.
    assert (Hmembers : ∀ ps acc k x fuel,
              Forall (λ p : string * JsValue, serializable p.2 = true →
                           ∀ rest fuel, length (tokens_of p.2) < fuel →
                             parse_value fuel (tokens_of p.2 ++ rest) = Some (p.2, rest))
                     ((k, x) :: ps) →
              forallb (λ p : string * JsValue, serializable p.2) ((k, x) :: ps) = true →
              distinct_keys ((k, x) :: ps) = true →
              (∀ k' x', (k', x') ∈ (k, x) :: ps → assoc_get k' acc = None) →
              length (tokens_of x ++ members_tokens false ps) < fuel →
              parse_members fuel acc
                (TString k :: TColon :: tokens_of x ++ members_tokens false ps ++ rest)
              = Some (acc ++ (k, x) :: ps, rest)).
    { clear. induction ps as [|[k2 x2] ps IHps]; intros acc k x fuel IH Hser Hkeys Hacc Hfuel;
        (destruct fuel as [|fuel]; [lia|]);
        cbn [forallb snd] in Hser; apply andb_true_iff in Hser as [Hx Hps];
        apply Forall_cons in IH as [IHx IH]; cbn [snd] in IHx;
        rewrite parse_members_S; rewrite length_app in Hfuel.
      - cbn [members_tokens app length] in *. rewrite (IHx Hx) by lia.
        rewrite assoc_put_fresh; [done|]. apply (Hacc k x). by left.
      - cbn [forallb snd] in Hps.
        pose proof Hps as Hps'. apply andb_true_iff in Hps' as [Hx2 _].
        rewrite members_tokens_cons in * by (by apply serializable_defined).
        cbn [app length] in *. rewrite (IHx Hx) by lia.
        cbn [distinct_keys] in Hkeys.
        destruct (assoc_get k ((k2, x2) :: ps)) eqn:Hk; [discriminate Hkeys|].
        rewrite assoc_put_fresh by (apply (Hacc k x); by left).
        rewrite <- (app_assoc (tokens_of x2)).
        rewrite IHps; [by rewrite <- app_assoc|done|done|done| |].
        + intros k' x' Hin. apply assoc_get_snoc_none.
          * apply (Hacc k' x'). by right.
          * intros ->. by apply assoc_get_elem in Hin.
        + lia. }
    pose proof Hser as Hser'. cbn [forallb snd] in Hser'.
    apply andb_true_iff in Hser' as [Hx _].
    rewrite members_tokens_cons in * by (by apply serializable_defined).
    cbn [app length] in *.
    rewrite <- app_assoc. rewrite Hmembers; [done|done|done|done|done|lia].
Qed.

(** JSON.parse(JSON.stringify(v)) is [v] for a value that JSON represents
    exactly; in particular the text is not empty. *)
Lemma parse_stringify (v : JsValue) :
  serializable v = true →
  ∃ text, JSON_stringify v = Some text ∧ text ≠ "" ∧ JSON_parse text = Normal v.
Proof.
  intros Hser.
  assert (Hfit : tokens_fit (tokens_of v)).
  { rewrite <- (app_nil_r (tokens_of v)). by apply tokens_of_fit. }
  exists (string_of_list_ascii (text_of (tokens_of v))).
  split; [by destruct v|]. split.
  - destruct (tokens_of_head v) as (t & ts & Hv & _). rewrite Hv, text_of_cons.
    destruct (lex_token_text t (text_of ts)) as (c & cs & -> & _).
    { rewrite Hv in Hfit. by destruct Hfit. }
    done.
  - unfold JSON_parse. rewrite list_ascii_of_string_of_list_ascii.
    rewrite lex_text_of by (done || lia).
    rewrite <- (app_nil_r (tokens_of v)) at 2.
    by rewrite parse_tokens_of by (done || lia).
Qed.

(** ** Reading the cart *)

Lemma JSON_parse_empty : JSON_parse "" = Throw SyntaxError.
Proof. reflexivity. Qed.

Lemma checkout_read (w : Checkout.World) :
  ∃ after,
    Checkout.loadCartFromStorage w = (Normal tt, after) ∧
    localStorage after.2 = localStorage w.2 ∧
    Checkout.cart after.1 = cart_of_saved (localStorage w.2 !! "cart").
Proof.
  destruct w as [st b]. unfold Checkout.loadCartFromStorage, cart_of_saved, getItem. run.
  destruct (opt_truthy (localStorage b !! "cart")); [|by eexists].
  unfold try_catch. run.
  destruct (JSON_parse (default "" (localStorage b !! "cart"))) as [v|e].
  - eexists. split; [reflexivity|]. by destruct v.
  - unfold console_error, Checkout.setCart, showError, addNotification, now_plus_random.
    run. by eexists.
Qed.

Lemma badge_read (w : CartBadge.World) :
  ∃ after,
    CartBadge.loadCartFromStorage w = (Normal tt, after) ∧
    localStorage after.2 = localStorage w.2 ∧
    CartBadge.cart after.1 = cart_of_saved (localStorage w.2 !! "cart").
Proof.
  destruct w as [st b]. unfold CartBadge.loadCartFromStorage, cart_of_saved, getItem. run.
  destruct (opt_truthy (localStorage b !! "cart")); [|by eexists].
  unfold try_catch. run.
  destruct (JSON_parse (default "" (localStorage b !! "cart"))) as [v|e].
  - eexists. split; [reflexivity|]. by destruct v.
  - unfold console_error, CartBadge.setCart. run. by eexists.
Qed.

Lemma catalog_read (w : Products.World) :
  ∃ after,
    Products.load_effect w = (Normal tt, after) ∧
    localStorage after.2 = localStorage w.2 ∧
    (opt_truthy (localStorage w.2 !! "cart") = false → after = w) ∧
    (opt_truthy (localStorage w.2 !! "cart") = true →
     Products.cart after.1 = cart_of_saved (localStorage w.2 !! "cart")).
Proof.
  destruct w as [st b]. unfold Products.load_effect, cart_of_saved, getItem. run.
  destruct (opt_truthy (localStorage b !! "cart")); [|by eexists].
  unfold try_catch. run.
  destruct (JSON_parse (default "" (localStorage b !! "cart"))) as [v|e].
  - eexists. split; [reflexivity|]. by destruct v.
  - unfold console_error, Products.setCart. run. by eexists.
Qed.

Lemma cart_of_saved_cases (saved : option string) :
  (opt_truthy saved = false → cart_of_saved saved = []) ∧
  (∀ text e, saved = Some text → JSON_parse text = Throw e → cart_of_saved saved = []) ∧
  (∀ text v, saved = Some text → JSON_parse text = Normal v → is_array v = false →
     cart_of_saved saved = []) ∧
  (∀ text elems own, saved = Some text → JSON_parse text = Normal (JArr elems own) →
     cart_of_saved saved = elems).
Proof.
  unfold cart_of_saved. split; [by intros ->|].
  split; [|split].
  - intros text e -> Hp. cbn. rewrite Hp. by destruct (negb _).
  - intros text v -> Hp Hv. cbn. rewrite Hp. destruct (negb _); [|done].
    by destruct v.
  - intros text elems own -> Hp. cbn. rewrite Hp.
    destruct (String.eqb_spec text "") as [->|]; [|done].
    by rewrite JSON_parse_empty in Hp.
Qed.

(** C3, as the code has it.  No loader throws.  Each returns the empty
    cart when nothing or the empty string is stored, when the stored text
    is not JSON, and when it is JSON for something that is not an array.
    When the text is JSON for an array, the elements of that array are
    returned as they are: they are not checked to be cart lines.  (The
    loader of the catalog leaves its state untouched when nothing is
    stored.) *)
Theorem read_returns_stored_array_or_empty
    (w : Checkout.World) (b : CartBadge.World) (p : Products.World) :
  let outcome (saved : option string) (cart : list JsValue) : Prop :=
    (opt_truthy saved = false → cart = []) ∧
    (∀ text e, saved = Some text → JSON_parse text = Throw e → cart = []) ∧
    (∀ text v, saved = Some text → JSON_parse text = Normal v → is_array v = false →
       cart = []) ∧
    (∀ text elems own, saved = Some text → JSON_parse text = Normal (JArr elems own) →
       cart = elems) in
  (∃ after,
     Checkout.loadCartFromStorage w = (Normal tt, after) ∧
     localStorage after.2 = localStorage w.2 ∧
     outcome (localStorage w.2 !! "cart") (Checkout.cart after.1)) ∧
  (∃ after,
     CartBadge.loadCartFromStorage b = (Normal tt, after) ∧
     localStorage after.2 = localStorage b.2 ∧
     outcome (localStorage b.2 !! "cart") (CartBadge.cart after.1)) ∧
  (∃ after,
     Products.load_effect p = (Normal tt, after) ∧
     localStorage after.2 = localStorage p.2 ∧
     (opt_truthy (localStorage p.2 !! "cart") = false → after = p) ∧
     (opt_truthy (localStorage p.2 !! "cart") = true →
      outcome (localStorage p.2 !! "cart") (Products.cart after.1))).
Proof.
  intros outcome. split; [|split].
  - destruct (checkout_read w) as (after & Hrun & Hsame & Hcart).
    exists after. split; [done|]. split; [done|].
    rewrite Hcart. apply cart_of_saved_cases.
  - destruct (badge_read b) as (after & Hrun & Hsame & Hcart).
    exists after. split; [done|]. split; [done|].
    rewrite Hcart. apply cart_of_saved_cases.
  - destruct (catalog_read p) as (after & Hrun & Hsame & Hkeep & Hcart).
    exists after. split; [done|]. split; [done|]. split; [done|].
    intros Ht. rewrite (Hcart Ht). apply cart_of_saved_cases.
Qed.

Lemma read_returns_stored_array_or_empty_witness :
  let wrapped := "{" +:+ Demo.quoted "items" +:+ ":[1,2]}" in
  let stored : gmap string string := {["cart" := wrapped]} in
  let w : Checkout.World := (Demo.checkout [Demo.rose] "0100", Demo.browser stored) in
  let b : CartBadge.World := ({| CartBadge.cart := [Demo.rose] |}, Demo.browser ∅) in
  let p : Products.World := (Demo.catalog [], Demo.browser {["cart" := "{oops"]}) in
  (∃ v, JSON_parse wrapped = Normal v ∧ is_array v = false) ∧
  opt_truthy (localStorage b.2 !! "cart") = false ∧
  (∃ e, JSON_parse "{oops" = Throw e) ∧
  Checkout.cart (Checkout.loadCartFromStorage w).2.1 = [] ∧
  CartBadge.cart (CartBadge.loadCartFromStorage b).2.1 = [] ∧
  Products.cart (Products.load_effect p).2.1 = [].
Proof.
  intros wrapped stored w b p.
  destruct (read_returns_stored_array_or_empty w b p) as (Hw & Hb & Hp).
  destruct Hw as (after & Hrun & _ & _ & _ & Hobject & _).
  destruct Hb as (after' & Hrun' & _ & Habsent & _).
  destruct Hp as (after'' & Hrun'' & _ & _ & Hcatalog).
  destruct (Hcatalog eq_refl) as (_ & Hbroken & _).
  split; [eexists; split; reflexivity|]. split; [reflexivity|].
  split; [eexists; reflexivity|].
  rewrite Hrun, Hrun', Hrun''.
  split; [exact (Hobject _ _ eq_refl eq_refl eq_refl)|].
  split; [exact (Habsent eq_refl)|exact (Hbroken _ _ eq_refl eq_refl)].
Defined.

(** C3 as stated fails: a stored text that parses to an array whose first
    element is [null] and whose second element is a line with quantity 0 is
    not a sequence of cart lines, yet it is returned as it is, not as the
    empty cart. *)
Lemma read_keeps_invalid_lines_counterexample :
  let text := "[null,{" +:+ Demo.quoted "name" +:+ ":" +:+ Demo.quoted "Rose" +:+ "," +:+
              Demo.quoted "price" +:+ ":" +:+ Demo.quoted "100" +:+ "," +:+
              Demo.quoted "quantity" +:+ ":0}]" in
  let w : Checkout.World := (Demo.checkout [] "0100", Demo.browser {["cart" := text]}) in
  let b : CartBadge.World := ({| CartBadge.cart := [] |}, Demo.browser {["cart" := text]}) in
  let broken :=
    [JNull; JObj [("name", JStr "Rose"); ("price", JStr "100"); ("quantity", JNum (Int 0))]] in
  JSON_parse text = Normal (JArr broken []) ∧
  Checkout.quantity_below_one (default JNull (broken !! 1)) = Normal true ∧
  Checkout.cart (Checkout.loadCartFromStorage w).2.1 = broken ∧
  CartBadge.cart (CartBadge.loadCartFromStorage b).2.1 = broken ∧
  broken ≠ [].
Proof. repeat split; try reflexivity. discriminate. Qed.

(** ** Writing, then reading *)

Lemma serializable_cart (cart : list JsValue) :
  forallb serializable cart = true → serializable (JArr cart []) = true.
Proof. done. Qed.

Lemma cart_of_saved_written (cart : list JsValue) (text : string) :
  forallb serializable cart = true →
  JSON_stringify (JArr cart []) = Some text →
  opt_truthy (Some text) = true ∧ cart_of_saved (Some text) = cart.
Proof.
  intros Hser Htext.
  destruct (parse_stringify (JArr cart []) (serializable_cart cart Hser))
    as (text' & Htext' & Hne & Hparse).
  assert (text' = text) as -> by congruence.
  assert (Ht : opt_truthy (Some text) = true).
  { cbn. by destruct (String.eqb_spec text ""). }
  split; [done|]. unfold cart_of_saved. rewrite Ht. cbn. by rewrite Hparse.
Qed.

(** C8.  For a cart whose lines JSON represents exactly, every loader that
    runs after [saveCartToStorage cart] — the checkout's own, the cart
    counter's, the catalog's — gets [cart] back: the same lines with the
    same fields in the same order (equality of values is equality of
    content).  The checkout's own loader also leaves the rest of its state
    as it was and reports no error.  The same holds for what the catalog's
    persist effect writes for a non-empty cart. *)
Theorem write_then_read_round_trip
    (cart : list JsValue) (w : Checkout.World)
    (badge : CartBadge.State) (catalog : Products.State) (p : Products.World) :
  forallb serializable cart = true →
  let written := (Checkout.saveCartToStorage cart w).2 in
  Checkout.loadCartFromStorage written
    = (Normal tt, (Checkout.with_cart cart w.1, written.2)) ∧
  Checkout.cart (Checkout.loadCartFromStorage written).2.1 = cart ∧
  CartBadge.cart (CartBadge.loadCartFromStorage (badge, written.2)).2.1 = cart ∧
  Products.cart (Products.load_effect (catalog, written.2)).2.1 = cart ∧
  (Products.cart p.1 = cart → cart ≠ [] →
   Checkout.cart (Checkout.loadCartFromStorage (w.1, (Products.persist_effect p).2.2)).2.1
   = cart).
Proof.
  intros Hser written.
  destruct (saveCartToStorage_run cart w) as (text & Htext & Hsave).
  destruct (cart_of_saved_written cart text Hser Htext) as [Ht Hcart].
  assert (Hstored : localStorage written.2 !! "cart" = Some text).
  { unfold written. rewrite Hsave. apply lookup_insert_eq. }
  assert (Hread : ∀ st, Checkout.cart
            (Checkout.loadCartFromStorage (st, written.2)).2.1 = cart).
  { intros st. destruct (checkout_read (st, written.2)) as (after & Hrun & _ & Hc).
    rewrite Hrun. cbn [fst snd] in Hc |- *. by rewrite Hc, Hstored. }
  split; [|split; [|split; [|split]]].
  - destruct (checkout_read written) as (after & Hrun & _ & Hc).
    rewrite Hstored, Hcart in Hc. rewrite Hrun. f_equal.
    revert Hrun Hc. unfold written. rewrite Hsave. cbn.
    unfold Checkout.loadCartFromStorage, getItem. run.
    rewrite lookup_insert_eq. cbn [opt_truthy]. cbn in Ht. rewrite Ht.
    unfold try_catch. run.
    destruct (parse_stringify (JArr cart []) (serializable_cart cart Hser))
      as (text' & Htext' & _ & Hparse).
    assert (text' = text) as -> by congruence.
    rewrite Hparse. cbn. by intros [= <-] _.
  - rewrite <- (Hread written.1). by destruct written.
  - destruct (badge_read (badge, written.2)) as (after & Hrun & _ & Hc).
    rewrite Hrun. cbn [fst snd] in Hc |- *. by rewrite Hc, Hstored.
  - destruct (catalog_read (catalog, written.2)) as (after & Hrun & _ & _ & Hc).
    rewrite Hrun. cbn [fst snd] in Hc |- *. rewrite Hstored in Hc. by rewrite (Hc Ht).
  - intros Hp Hne. destruct p as [pst pb]. cbn in Hp.
    unfold Products.persist_effect, setItem, dispatchEvent. run.
    rewrite Hp, Htext. destruct cart as [|x cart']; [done|]. cbn.
    destruct (checkout_read (w.1, emit (DispatchEvent "cartUpdated")
                (emit (SetItem "cart" text) (store <["cart":=text]> pb))))
      as (after & Hrun & _ & Hc).
    rewrite Hrun. cbn [fst snd] in Hc |- *. rewrite Hc. cbn.
    by rewrite lookup_insert_eq.
Qed.

Lemma write_then_read_round_trip_witness :
  let cart := [Demo.rose; Demo.oud] in
  let w : Checkout.World := (Demo.checkout [] "0100", Demo.browser ∅) in
  let written := (Checkout.saveCartToStorage cart w).2 in
  forallb serializable cart = true ∧
  (∃ text, localStorage written.2 !! "cart" = Some text ∧
           JSON_parse text = Normal (JArr cart [])) ∧
  Checkout.cart (Checkout.loadCartFromStorage written).2.1 = cart ∧
  CartBadge.cart
    (CartBadge.loadCartFromStorage ({| CartBadge.cart := [] |}, written.2)).2.1 = cart.
Proof.
  intros cart w written.
  assert (Hser : forallb serializable cart = true) by reflexivity.
  split; [exact Hser|]. split; [eexists; split; reflexivity|].
  destruct (write_then_read_round_trip cart w {| CartBadge.cart := [] |}
              (Demo.catalog []) (Demo.catalog [], Demo.browser ∅) Hser)
    as (_ & Hcheckout & Hbadge & _).
  split; [exact Hcheckout|exact Hbadge].
Defined.

(** * Further properties *)

(** ** Patterns *)

Import Pattern.

Lemma nullable_matches (r : regex) : nullable r = true ↔ matches r [].
Proof.
  induction r as [| |p|r1 IH1 r2 IH2|r1 IH1 r2 IH2|r IH]; cbn [nullable].
  - split; [discriminate|inversion 1].
  - split; [constructor|done].
  - split; [discriminate|inversion 1].
  - rewrite andb_true_iff, IH1, IH2. split.
    + intros [H1 H2]. exact (matches_seq r1 r2 [] [] H1 H2).
    + inversion 1 as [| |? ? s1 s2 H1 H2 E1 E2| | | |]; subst.
      apply app_eq_nil in E2 as [-> ->]. done.
  - rewrite orb_true_iff, IH1, IH2. split.
    + intros [H|H]; [by apply matches_alt_l|by apply matches_alt_r].
    + inversion 1; subst; [by left|by right].
  - split; [constructor|done].
Qed.

(** A non-empty string of a starred pattern starts with a non-empty
    string of the pattern. *)
Lemma matches_star_cons_inv (r : regex) (c : ascii) (s : list ascii) :
  matches (Star r) (c :: s) →
  ∃ s1 s2, s = s1 ++ s2 ∧ matches r (c :: s1) ∧ matches (Star r) s2.
Proof.
  intros Hm. remember (Star r) as r' eqn:Er. remember (c :: s) as t eqn:Et.
  revert r c s Er Et.
  induction Hm as [|p0 c0| | | | |r0 s1 s2 H1 _ H2 IH2]; intros r' c' s' Er Et;
    try discriminate.
  injection Er as ->. destruct s1 as [|c1 s1]; cbn in Et.
  - by apply IH2.
  - injection Et as <- <-. by exists s1, s2.
Qed.

Lemma deriv_matches (r : regex) (c : ascii) (s : list ascii) :
  matches (deriv c r) s ↔ matches r (c :: s).
Proof.
  revert s. induction r as [| |p|r1 IH1 r2 IH2|r1 IH1 r2 IH2|r IH]; intros s; cbn [deriv].
  - split; inversion 1.
  - split; inversion 1.
  - destruct (p c) eqn:Hp; split.
    + inversion 1; subst. by constructor.
    + inversion 1; subst. constructor.
    + inversion 1.
    + inversion 1; subst. congruence.
  - assert (Hseq : matches (Seq (deriv c r1) r2) s → matches (Seq r1 r2) (c :: s)).
    { inversion 1 as [| |? ? s1 s2 H1 H2| | | |]; subst.
      apply IH1 in H1. exact (matches_seq r1 r2 (c :: s1) s2 H1 H2). }
    assert (Hinv : matches (Seq r1 r2) (c :: s) →
              matches (Seq (deriv c r1) r2) s ∨ (matches r1 [] ∧ matches r2 (c :: s))).
    { inversion 1 as [| |? ? s1 s2 H1 H2 E1 E2| | | |]; subst.
      destruct s1 as [|c1 s1]; cbn in E2.
      - right. subst s2. done.
      - injection E2 as -> <-. left. constructor; [by apply IH1|done]. }
    destruct (nullable r1) eqn:Hn; split.
    + inversion 1; subst; [by apply Hseq|].
      apply (matches_seq r1 r2 [] (c :: s)); [by apply nullable_matches|by apply IH2].
    + intros Hm. destruct (Hinv Hm) as [H|[_ H]];
        [by apply matches_alt_l|apply matches_alt_r; by apply IH2].
    + apply Hseq.
    + intros Hm. destruct (Hinv Hm) as [H|[H _]]; [done|].
      apply nullable_matches in H. congruence.
  - split.
    + inversion 1; subst; [apply matches_alt_l; by apply IH1|apply matches_alt_r; by apply IH2].
    + inversion 1; subst; [apply matches_alt_l; by apply IH1|apply matches_alt_r; by apply IH2].
  - split.
    + inversion 1 as [| |? ? s1 s2 H1 H2| | | |]; subst.
      apply IH in H1. exact (matches_star_cons r (c :: s1) s2 H1 H2).
    + intros Hm. destruct (matches_star_cons_inv r c s Hm) as (s1 & s2 & -> & H1 & H2).
      constructor; [by apply IH|done].
Qed.

Lemma regex_test_matches (r : regex) (s : string) :
  regex_test r s = true ↔ matches r (list_ascii_of_string s).
Proof.
  unfold regex_test. generalize (list_ascii_of_string s) as l. clear s.
  intros l. revert r. induction l as [|c l IH]; intros r; cbn [fold_left].
  - apply nullable_matches.
  - rewrite IH. apply deriv_matches.
Qed.

Lemma matches_star_chr (p : ascii → bool) (s : list ascii) :
  matches (Star (Chr p)) s ↔ forallb p s = true.
Proof.
  split.
  - induction s as [|c s IH]; [done|]. intros Hm.
    destruct (matches_star_cons_inv _ _ _ Hm) as (s1 & s2 & -> & H1 & H2).
    inversion H1; subst. cbn. rewrite andb_true_iff. split; [done|].
    apply IH. exact H2.
  - induction s as [|c s IH]; [constructor|].
    cbn. rewrite andb_true_iff. intros [Hc Hs].
    apply (matches_star_cons (Chr p) [c] s); [by constructor|by apply IH].
Qed.

Lemma matches_plus_chr (p : ascii → bool) (s : list ascii) :
  matches (Plus (Chr p)) s ↔ s ≠ [] ∧ forallb p s = true.
Proof.
  unfold Plus. split.
  - inversion 1 as [| |? ? s1 s2 H1 H2| | | |]; subst. inversion H1; subst.
    split; [done|]. cbn. rewrite andb_true_iff. split; [done|].
    by apply matches_star_chr.
  - intros [Hne Hall]. destruct s as [|c s]; [done|].
    cbn in Hall. apply andb_true_iff in Hall as [Hc Hs].
    apply (matches_seq (Chr p) (Star (Chr p)) [c] s); [by constructor|].
    by apply matches_star_chr.
Qed.

Lemma phone_char_not_plus : phone_char "+" = false.
Proof. reflexivity. Qed.

Lemma matches_phone (r : regex) (l : list ascii) :
  r = Seq (Opt (Chr (one_of "+"))) (Plus (Chr phone_char)) →
  matches r l ↔
  (l ≠ [] ∧ forallb phone_char l = true) ∨
  (∃ body, l = "+"%char :: body ∧ body ≠ [] ∧ forallb phone_char body = true).
Proof.
  intros ->. split.
  - inversion 1 as [| |? ? s1 s2 H1 H2| | | |]; subst.
    apply matches_plus_chr in H2. inversion H1 as [| | |? ? ? Hc|? ? ? He| |]; subst.
    + inversion Hc as [|? c Hp| | | | |]; subst. right. exists s2. split; [|done].
      cbn in Hp. rewrite orb_false_r in Hp. apply Ascii.eqb_eq in Hp. by subst c.
    + inversion He; subst. by left.
  - intros [Hl|(body & -> & Hb)].
    + apply (matches_seq _ _ [] l); [apply matches_alt_r; constructor|].
      by apply matches_plus_chr.
    + apply (matches_seq _ _ ["+"%char] body).
      * apply matches_alt_l. by constructor.
      * by apply matches_plus_chr.
Qed.

Lemma phone_shape_spec (s : string) :
  phone_shape s = true ↔
  (list_ascii_of_string s ≠ [] ∧ forallb phone_char (list_ascii_of_string s) = true) ∨
  (∃ body, list_ascii_of_string s = "+"%char :: body ∧ body ≠ [] ∧
           forallb phone_char body = true).
Proof.
  assert (Hne : ∀ t : string, negb (String.eqb t "") = true ↔ list_ascii_of_string t ≠ []).
  { intros [|c t]; cbn; split; done. }
  unfold phone_shape. destruct s as [|c rest].
  - cbn. split; [done|]. intros [[? _]|(? & ? & _)]; done.
  - destruct (Ascii.eqb_spec c "+") as [->|Hc].
    + rewrite andb_true_iff, Hne. split.
      * intros [H1 H2]. right. by exists (list_ascii_of_string rest).
      * intros [[_ H]|(body & E & H1 & H2)]; [cbn in H; done|].
        cbn in E. injection E as ->. done.
    + rewrite andb_true_iff, Hne. split.
      * intros [H1 H2]. by left.
      * intros [H|(body & E & _)]; [done|]. cbn in E. congruence.
Qed.

Lemma phone_pattern_shape_both (s : string) :
  regex_test Checkout.phoneRegex s = phone_shape s ∧
  regex_test Contact.phoneRegex s = phone_shape s.
Proof.
  assert (H : ∀ r, r = Seq (Opt (Chr (one_of "+"))) (Plus (Chr phone_char)) →
            regex_test r s = phone_shape s).
  { intros r Hr. apply eq_true_iff_eq.
    rewrite regex_test_matches, (matches_phone r _ Hr), phone_shape_spec. done. }
  split; by apply H.
Qed.

(** X1.  On a text whose white space is ASCII, the phone pattern of the
    checkout form and that of the contact form accept the same strings: an
    optional leading [+] followed by one or more characters, each a digit,
    a white-space character, [-], [(] or [)]; so every character of an
    accepted string is of that class or a [+].  A digit is not required,
    and a lone or doubled [+] is refused. *)
Theorem phone_pattern_accepts_shape (s : string) :
  Scope.plain_text s = true →
  regex_test Checkout.phoneRegex s = phone_shape s ∧
  regex_test Contact.phoneRegex s = phone_shape s ∧
  (phone_shape s = true →
   s ≠ "" ∧
   forallb (λ c, phone_char c || Ascii.eqb c "+") (list_ascii_of_string s) = true) ∧
  phone_shape "( )" = true ∧
  phone_shape "+" = false ∧
  phone_shape "++1" = false.
Proof.
  intros _.
  split; [apply phone_pattern_shape_both|]. split; [apply phone_pattern_shape_both|].
  split; [|done].
  assert (Hweak : ∀ l, forallb phone_char l = true →
            forallb (λ c, phone_char c || Ascii.eqb c "+") l = true).
  { induction l as [|c l IH]; [done|]. cbn [forallb]. rewrite !andb_true_iff.
    intros [-> Hl]. split; [done|by apply IH]. }
  unfold phone_shape. destruct s as [|c rest]; [done|].
  destruct (Ascii.eqb c "+") eqn:Hc; rewrite andb_true_iff; intros [_ Hall].
  - split; [done|]. cbn [list_ascii_of_string forallb]. rewrite Hc, orb_true_r.
    by apply Hweak.
  - split; [done|]. by apply Hweak.
Qed.

Lemma phone_pattern_accepts_shape_witness :
  Scope.plain_text "+20 (100) 555-0100" = true ∧
  regex_test Checkout.phoneRegex "+20 (100) 555-0100" = true ∧
  regex_test Contact.phoneRegex "+20 (100) 555-0100" = true.
Proof.
  assert (Hplain : Scope.plain_text "+20 (100) 555-0100" = true) by reflexivity.
  split; [exact Hplain|].
  destruct (phone_pattern_accepts_shape "+20 (100) 555-0100" Hplain) as (Hc & Hd & _).
  split; [rewrite Hc; reflexivity|rewrite Hd; reflexivity].
Defined.

Lemma email_word_no_at (w : list ascii) :
  forallb email_char w = true →
  List.filter (Ascii.eqb "@") w = [] ∧ forallb (λ c, negb (is_ws c)) w = true.
Proof.
  induction w as [|c w IH]; [done|]. cbn [forallb List.filter].
  rewrite andb_true_iff. intros [Hc Hw]. destruct (IH Hw) as [IH1 IH2].
  unfold email_char in Hc. apply negb_true_iff, orb_false_iff in Hc as [Hws Hat].
  cbn in Hat. rewrite orb_false_r in Hat.
  rewrite Ascii.eqb_sym, Hat, Hws. done.
Qed.

Lemma matches_email (l : list ascii) :
  matches Contact.emailRegex l ↔
  ∃ local domain tld,
    l = local ++ "@"%char :: domain ++ "."%char :: tld ∧
    email_word local ∧ email_word domain ∧ email_word tld.
Proof.
  assert (Hone : ∀ ch (s : list ascii),
            matches (Chr (one_of (String ch EmptyString))) s ↔ s = [ch]).
  { intros ch s. split.
    - inversion 1 as [|? c Hp| | | | |]; subst. cbn in Hp. rewrite orb_false_r in Hp.
      apply Ascii.eqb_eq in Hp. by subst.
    - intros ->. constructor. cbn. by rewrite Ascii.eqb_refl. }
  unfold Contact.emailRegex. cbv zeta. split.
  - inversion 1 as [| |? ? a s2 Ha H2| | | |]; subst.
    inversion H2 as [| |? ? at_ s3 Hat H3| | | |]; subst.
    inversion H3 as [| |? ? b s4 Hb H4| | | |]; subst.
    inversion H4 as [| |? ? dot c Hdot Hc| | | |]; subst.
    apply (Hone "@"%char) in Hat as ->. apply (Hone "."%char) in Hdot as ->.
    apply matches_plus_chr in Ha, Hb, Hc.
    exists a, b, c. done.
  - intros (a & b & c & -> & Ha & Hb & Hc).
    apply matches_plus_chr in Ha, Hb, Hc.
    apply (matches_seq _ _ a); [done|].
    apply (matches_seq _ _ ["@"%char]); [by apply Hone|].
    apply (matches_seq _ _ b); [done|].
    apply (matches_seq _ _ ["."%char]); [by apply Hone|done].
Qed.

(** X2.  On a text whose white space is ASCII, the email pattern of the
    contact form accepts exactly the strings made of three non-empty runs
    of characters that are neither white space nor [@], the first two
    separated by [@] and the last two by a dot (the second and third run
    may contain further dots).  So an accepted string has exactly one [@]
    and no white space. *)
Theorem email_pattern_accepts_shape (s : string) :
  let l := list_ascii_of_string s in
  Scope.plain_text s = true →
  (regex_test Contact.emailRegex s = true ↔
   ∃ local domain tld,
     l = local ++ "@"%char :: domain ++ "."%char :: tld ∧
     email_word local ∧ email_word domain ∧ email_word tld) ∧
  (regex_test Contact.emailRegex s = true →
   length (List.filter (Ascii.eqb "@") l) = 1 ∧
   forallb (λ c, negb (is_ws c)) l = true).
Proof.
  intros l _. assert (Hiff := matches_email l).
  split; [by rewrite regex_test_matches|].
  intros Hm. apply regex_test_matches, Hiff in Hm.
  destruct Hm as (a & b & c & E & [_ Ha] & [_ Hb] & [_ Hc]). rewrite E.
  destruct (email_word_no_at a Ha) as [Ha1 Ha2].
  destruct (email_word_no_at b Hb) as [Hb1 Hb2].
  destruct (email_word_no_at c Hc) as [Hc1 Hc2].
  split.
  - rewrite List.filter_app. cbn [List.filter]. rewrite List.filter_app. cbn [List.filter].
    rewrite Ha1, Hb1, Hc1. reflexivity.
  - rewrite forallb_app. cbn [forallb]. rewrite forallb_app. cbn [forallb].
    rewrite Ha2, Hb2, Hc2. reflexivity.
Qed.

Lemma email_pattern_accepts_shape_witness :
  Scope.plain_text "mona@example.com" = true ∧
  regex_test Contact.emailRegex "mona@example.com" = true ∧
  length (List.filter (Ascii.eqb "@") (list_ascii_of_string "mona@example.com")) = 1.
Proof.
  assert (Hplain : Scope.plain_text "mona@example.com" = true) by reflexivity.
  split; [exact Hplain|].
  destruct (email_pattern_accepts_shape "mona@example.com" Hplain) as (_ & Hone).
  split; [reflexivity|]. exact (proj1 (Hone eq_refl)).
Defined.

(** ** Validation *)

Lemma checkout_phone_test (s : string) : regex_test Checkout.phoneRegex s = phone_shape s.
Proof. apply phone_pattern_shape_both. Qed.

Lemma contact_phone_test (s : string) : regex_test Contact.phoneRegex s = phone_shape s.
Proof. apply phone_pattern_shape_both. Qed.

(** The list the validation builds up is the list of the labels of the
    blank fields. *)
Lemma blank_labels_cons (s label : string) (fields : list (string * string)) :
  Fields.blank_labels ((s, label) :: fields)
  = (if String.eqb (trim s) "" then [label] else []) ++ Fields.blank_labels fields.
Proof.
  unfold Fields.blank_labels. cbn [List.filter fst].
  by destruct (String.eqb (trim s) "").
Qed.

Lemma blank_labels_nil (fields : list (string * string)) :
  Fields.blank_labels fields = [] ↔
  Forall (λ s, String.eqb (trim s) "" = false) (map fst fields).
Proof.
  induction fields as [|[s label] fields IH].
  - split; [constructor|done].
  - rewrite blank_labels_cons. cbn [map fst]. rewrite Forall_cons, <- IH.
    destruct (String.eqb (trim s) ""); cbn; split; try done; intros [? ?]; done.
Qed.

Lemma length_pos_nonempty {A : Type} (l : list A) : (0 <? length l)%nat = negb (bool_decide (length l = 0)).
Proof. by destruct l. Qed.

Lemma checkout_validation_cases (st : Checkout.State) :
  Checkout.validateCheckoutForm st
  = let blanks := Fields.blank_labels (Fields.checkout st) in
    if negb (Checkout.blank (Checkout.phone st)) && negb (phone_shape (Checkout.phone st))
    then {| isValid := false; error := Some "Please enter a valid phone number";
            missingFields := None |}
    else match Checkout.cart st, blanks with
         | [], _ =>
             {| isValid := false;
                error := Some "Your cart is empty. Please add items before checkout.";
                missingFields := None |}
         | _ :: _, [] => {| isValid := true; error := None; missingFields := None |}
         | _ :: _, _ :: _ =>
             {| isValid := false; error := None; missingFields := Some blanks |}
         end.
Proof.
  unfold Checkout.validateCheckoutForm, Fields.checkout.
  rewrite checkout_phone_test, !blank_labels_cons.
  change (Fields.blank_labels []) with (@nil string). rewrite app_nil_r.
  unfold Checkout.blank. cbv zeta.
  destruct (negb _ && negb _); [done|].
  destruct (Checkout.cart st) as [|line cart']; [done|].
  cbn [length Nat.eqb].
  match goal with |- context [(0 <? length ?l)%nat] => by destruct l end.
Qed.

(** X3.  The verdict of [validateCheckoutForm] on fields whose white space
    is ASCII.  The form is valid exactly when the cart is not empty, none
    of the six fields is blank and the phone fits the phone pattern.
    Otherwise one problem is reported, in this order of precedence: a
    phone that is not blank and does not fit the pattern; an empty cart;
    the labels of the blank fields, in form order. *)
Theorem checkout_validation_verdict (st : Checkout.State) :
  let v := Checkout.validateCheckoutForm st in
  let phone := Checkout.phone st in
  let malformed := negb (Checkout.blank phone) && negb (phone_shape phone) in
  let blanks := Fields.blank_labels (Fields.checkout st) in
  Forall (λ f, Scope.plain_text f.1 = true) (Fields.checkout st) →
  (isValid v = true ↔
   Checkout.cart st ≠ [] ∧ blanks = [] ∧ phone_shape phone = true) ∧
  (blanks = [] ↔
   Forall (λ f, Checkout.blank f = false)
     [Checkout.fName st; Checkout.lName st; Checkout.adress st; phone;
      Checkout.building st; Checkout.apart st]) ∧
  (malformed = true →
   v = {| isValid := false; error := Some "Please enter a valid phone number";
          missingFields := None |}) ∧
  (malformed = false → Checkout.cart st = [] →
   v = {| isValid := false;
          error := Some "Your cart is empty. Please add items before checkout.";
          missingFields := None |}) ∧
  (malformed = false → Checkout.cart st ≠ [] → blanks ≠ [] →
   v = {| isValid := false; error := None; missingFields := Some blanks |}).
Proof.
  cbv zeta. intros _. rewrite checkout_validation_cases. cbv zeta.
  pose proof (blank_labels_nil (Fields.checkout st)) as Hnil.
  cbn [map fst Fields.checkout] in Hnil.
  split; [|split; [exact Hnil|]].
  - split.
    + destruct (negb _ && negb _) eqn:Hm; [done|].
      destruct (Checkout.cart st) as [|line cart']; [done|].
      destruct (Fields.blank_labels _) as [|b bs] eqn:Hb; [|done].
      intros _. split; [done|]. split; [done|].
      pose proof (proj1 Hnil eq_refl) as HF. rewrite !Forall_cons in HF.
      destruct HF as (_ & _ & _ & Hphone & _).
      apply andb_false_iff in Hm as [Hm|Hm]; apply negb_false_iff in Hm; [|done].
      unfold Checkout.blank in Hm. congruence.
    + intros (Hcart & -> & ->). rewrite andb_false_r.
      by destruct (Checkout.cart st).
  - split; [by intros ->|]. split.
    + intros -> ->. done.
    + intros -> Hcart Hb. destruct (Checkout.cart st); [done|].
      by destruct (Fields.blank_labels _).
Qed.

Lemma checkout_validation_verdict_witness :
  let st := Demo.checkout [Demo.rose] "12 34x" in
  Forall (λ f, Scope.plain_text f.1 = true) (Fields.checkout st) ∧
  Checkout.validateCheckoutForm st
  = {| isValid := false; error := Some "Please enter a valid phone number";
       missingFields := None |}.
Proof.
  intros st.
  assert (Hplain : Forall (λ f, Scope.plain_text f.1 = true) (Fields.checkout st))
    by (repeat constructor).
  split; [exact Hplain|].
  destruct (checkout_validation_verdict st Hplain) as (_ & _ & Hbad & _).
  exact (Hbad eq_refl).
Defined.

Lemma contact_validation_cases (st : Contact.State) :
  Contact.validateForm st
  = let blanks := Fields.blank_labels (Fields.contact st) in
    if negb (Contact.blank (Contact.email st))
       && negb (regex_test Contact.emailRegex (Contact.email st))
    then {| isValid := false; error := Some "Please enter a valid email address";
            missingFields := None |}
    else if negb (Contact.blank (Contact.phone st))
            && negb (phone_shape (Contact.phone st))
    then {| isValid := false; error := Some "Please enter a valid phone number";
            missingFields := None |}
    else match blanks with
         | [] => {| isValid := true; error := None; missingFields := None |}
         | _ :: _ => {| isValid := false; error := None; missingFields := Some blanks |}
         end.
Proof.
  unfold Contact.validateForm, Fields.contact.
  rewrite contact_phone_test, !blank_labels_cons.
  change (Fields.blank_labels []) with (@nil string). rewrite app_nil_r.
  unfold Contact.blank. cbv zeta.
  match goal with |- (if ?c then _ else _) = _ => destruct c; [done|] end.
  match goal with |- (if ?c then _ else _) = _ => destruct c; [done|] end.
  match goal with |- context [(0 <? length ?l)%nat] => by destruct l end.
Qed.

(** X4.  The verdict of [validateForm] on fields whose white space is
    ASCII.  The contact form is valid exactly when none of the four fields
    is blank, the email fits the email pattern and the phone fits the
    phone pattern.  Otherwise one problem is reported, in this order of
    precedence: an email that is not blank and does not fit; a phone that
    is not blank and does not fit; the labels of the blank fields, in form
    order. *)
Theorem contact_validation_verdict (st : Contact.State) :
  let v := Contact.validateForm st in
  let email := Contact.email st in
  let phone := Contact.phone st in
  let bad_email := negb (Contact.blank email) && negb (regex_test Contact.emailRegex email) in
  let bad_phone := negb (Contact.blank phone) && negb (phone_shape phone) in
  let blanks := Fields.blank_labels (Fields.contact st) in
  Forall (λ f, Scope.plain_text f.1 = true) (Fields.contact st) →
  (isValid v = true ↔
   blanks = [] ∧ regex_test Contact.emailRegex email = true ∧ phone_shape phone = true) ∧
  (blanks = [] ↔
   Forall (λ f, Contact.blank f = false) [Contact.name st; email; phone; Contact.message st]) ∧
  (bad_email = true →
   v = {| isValid := false; error := Some "Please enter a valid email address";
          missingFields := None |}) ∧
  (bad_email = false → bad_phone = true →
   v = {| isValid := false; error := Some "Please enter a valid phone number";
          missingFields := None |}) ∧
  (bad_email = false → bad_phone = false → blanks ≠ [] →
   v = {| isValid := false; error := None; missingFields := Some blanks |}).
Proof.
  cbv zeta. intros _. rewrite contact_validation_cases. cbv zeta.
  pose proof (blank_labels_nil (Fields.contact st)) as Hnil.
  cbn [map fst Fields.contact] in Hnil.
  split; [|split; [exact Hnil|]].
  - split.
    + destruct (negb (Contact.blank (Contact.email st)) && negb (regex_test Contact.emailRegex (Contact.email st))) eqn:He; [done|].
      destruct (negb (Contact.blank (Contact.phone st)) && negb (phone_shape (Contact.phone st))) eqn:Hp; [done|].
      destruct (Fields.blank_labels _) as [|b bs] eqn:Hb; [|done].
      intros _. split; [done|].
      pose proof (proj1 Hnil eq_refl) as HF. rewrite !Forall_cons in HF.
      destruct HF as (_ & Hemail & Hphone & _).
      unfold Contact.blank in He, Hp. rewrite Hemail in He. rewrite Hphone in Hp.
      cbn in He, Hp. apply negb_false_iff in He, Hp. done.
    + intros (-> & -> & ->). by rewrite !andb_false_r.
  - split; [by intros ->|]. split.
    + intros -> ->. done.
    + intros -> -> Hb. by destruct (Fields.blank_labels _).
Qed.

Lemma contact_validation_verdict_witness :
  let st := Demo.contact in
  Forall (λ f, Scope.plain_text f.1 = true) (Fields.contact st) ∧
  isValid (Contact.validateForm st) = true.
Proof.
  intros st.
  assert (Hplain : Forall (λ f, Scope.plain_text f.1 = true) (Fields.contact st))
    by (repeat constructor).
  split; [exact Hplain|].
  destruct (contact_validation_verdict st Hplain) as (Hvalid & _).
  apply Hvalid. repeat split.
Defined.

(** What a failed validation yields: a list of missing fields, or an error
    message that is not empty. *)
Lemma checkout_invalid_cases (st : Checkout.State) :
  isValid (Checkout.validateCheckoutForm st) = false →
  (∃ fields, missingFields (Checkout.validateCheckoutForm st) = Some fields) ∨
  (missingFields (Checkout.validateCheckoutForm st) = None ∧
   opt_truthy (error (Checkout.validateCheckoutForm st)) = true).
Proof.
  rewrite checkout_validation_cases. cbv zeta.
  destruct (negb _ && negb _); [by right|].
  destruct (Checkout.cart st); [by right|].
  destruct (Fields.blank_labels _); [done|]. left. by eexists.
Qed.

Lemma contact_invalid_cases (st : Contact.State) :
  isValid (Contact.validateForm st) = false →
  (∃ fields, missingFields (Contact.validateForm st) = Some fields) ∨
  (missingFields (Contact.validateForm st) = None ∧
   opt_truthy (error (Contact.validateForm st)) = true).
Proof.
  rewrite contact_validation_cases. cbv zeta.
  destruct (negb (Contact.blank (Contact.email st)) && negb (regex_test Contact.emailRegex (Contact.email st))); [by right|].
  destruct (negb (Contact.blank (Contact.phone st)) && negb (phone_shape (Contact.phone st))); [by right|].
  destruct (Fields.blank_labels _); [done|]. left. by eexists.
Qed.

(** X5.  An order that fails validation sends nothing and changes nothing
    but the notification list: [order] returns normally, the trace and the
    storage are as before, the state is the old one with exactly one
    notification appended, shown for 4000 ms.  It is a warning that lists
    the missing fields, joined by a comma and a space, when the verdict
    has a list, and otherwise an error with the verdict's message. *)
Theorem invalid_order_sends_nothing
    (w : Checkout.World) (respond : JsValue → Checkout.Settlement) :
  let v := Checkout.validateCheckoutForm w.1 in
  isValid v = false →
  ∃ (after : Checkout.World) (n : Notification),
    Checkout.order respond w = (Normal tt, after) ∧
    trace after.2 = trace w.2 ∧
    localStorage after.2 = localStorage w.2 ∧
    after.1 = setNotifications (λ prev, prev ++ [n]) w.1 ∧
    duration n = 4000%Z ∧
    match missingFields v with
    | Some fields =>
        type n = warning ∧
        message n = "Please fill in the following required fields: " +:+ join ", " fields
    | None => type n = Notifications.error ∧ error v = Some (message n)
    end.
Proof.
  cbv zeta. intros Hv. destruct w as [st b]. cbn [fst snd] in *.
  unfold Checkout.order, Checkout.order_begin. run. rewrite Hv. cbn.
  destruct (checkout_invalid_cases st Hv) as [[fields Hf]|[Hf He]]; rewrite Hf.
  - unfold showWarning, addNotification, now_plus_random. run.
    eexists _, _. split; [reflexivity|]. cbn. repeat split; reflexivity.
  - rewrite He. destruct (error (Checkout.validateCheckoutForm st)) as [e|] eqn:Ee; [|done].
    unfold showError, addNotification, now_plus_random. run.
    eexists _, _. split; [reflexivity|]. cbn. repeat split; reflexivity.
Qed.

Lemma invalid_order_sends_nothing_witness :
  let w : Checkout.World :=
    ({| Checkout.cart := [Demo.rose]; Checkout.fName := "Mona"; Checkout.lName := "  ";
        Checkout.adress := "12 Corniche Road"; Checkout.phone := "0100";
        Checkout.building := ""; Checkout.apart := "9";
        Checkout.isLoading := false; Checkout.notes := [] |}, Demo.browser ∅) in
  isValid (Checkout.validateCheckoutForm w.1) = false ∧
  ∃ after n,
    Checkout.order (λ _, Checkout.Fulfilled Demo.ok) w = (Normal tt, after) ∧
    trace after.2 = [] ∧
    Checkout.notes after.1 = [n] ∧
    message n = "Please fill in the following required fields: Last Name, Building Number".
Proof.
  intros w.
  assert (Hv : isValid (Checkout.validateCheckoutForm w.1) = false) by reflexivity.
  split; [exact Hv|].
  destruct (invalid_order_sends_nothing w (λ _, Checkout.Fulfilled Demo.ok) Hv)
    as (after & n & Hrun & Htrace & _ & Hstate & _ & Hmsg).
  exists after, n. split; [exact Hrun|]. split; [exact Htrace|].
  split; [by rewrite Hstate|]. exact (proj2 Hmsg).
Defined.

(** X6.  A contact message that fails validation sends nothing and
    changes nothing but the notification list: [addContact] returns
    normally, the trace and the storage are as before, the state is the
    old one with exactly one notification appended, shown for 4000 ms: a
    warning that lists the missing fields, or an error with the verdict's
    message. *)
Theorem invalid_contact_sends_nothing
    (w : Contact.World) (respond : JsValue → Contact.Settlement) :
  let v := Contact.validateForm w.1 in
  isValid v = false →
  ∃ (after : Contact.World) (n : Notification),
    Contact.addContact respond w = (Normal tt, after) ∧
    trace after.2 = trace w.2 ∧
    localStorage after.2 = localStorage w.2 ∧
    after.1 = setNotifications (λ prev, prev ++ [n]) w.1 ∧
    duration n = 4000%Z ∧
    match missingFields v with
    | Some fields =>
        type n = warning ∧
        message n = "Please fill in the following required fields: " +:+ join ", " fields
    | None => type n = Notifications.error ∧ error v = Some (message n)
    end.
Proof.
  cbv zeta. intros Hv. destruct w as [st b]. cbn [fst snd] in *.
  unfold Contact.addContact, Contact.addContact_begin. run. rewrite Hv. cbn.
  destruct (contact_invalid_cases st Hv) as [[fields Hf]|[Hf He]]; rewrite Hf.
  - unfold showWarning, addNotification, now_plus_random. run.
    eexists _, _. split; [reflexivity|]. cbn. repeat split; reflexivity.
  - rewrite He. destruct (error (Contact.validateForm st)) as [e|] eqn:Ee; [|done].
    unfold showError, addNotification, now_plus_random. run.
    eexists _, _. split; [reflexivity|]. cbn. repeat split; reflexivity.
Qed.

Lemma invalid_contact_sends_nothing_witness :
  let w : Contact.World :=
    ({| Contact.name := "Mona"; Contact.email := "mona@example"; Contact.phone := "";
        Contact.message := "Hello"; Contact.isLoading := false; Contact.notes := [] |},
     Demo.browser ∅) in
  isValid (Contact.validateForm w.1) = false ∧
  ∃ after n,
    Contact.addContact (λ _, Contact.Fulfilled Demo.ok) w = (Normal tt, after) ∧
    trace after.2 = [] ∧
    Contact.notes after.1 = [n] ∧
    message n = "Please enter a valid email address".
Proof.
  intros w.
  assert (Hv : isValid (Contact.validateForm w.1) = false) by reflexivity.
  split; [exact Hv|].
  destruct (invalid_contact_sends_nothing w (λ _, Contact.Fulfilled Demo.ok) Hv)
    as (after & n & Hrun & Htrace & _ & Hstate & _ & Hmsg).
  exists after, n. split; [exact Hrun|]. split; [exact Htrace|].
  split; [by rewrite Hstate|].
  destruct Hmsg as [_ Hmsg]. by injection Hmsg as <-.
Defined.

(** ** Requests that fail *)

(** X7.  An order whose request does not end in a response with status
    200 keeps the cart and the form.  Whatever the response or the
    rejection reason, the rest of [order] leaves localStorage as it was,
    writes and dispatches nothing (the trace gains at most the console
    error of the [catch] clause), and changes the state only in
    [isLoading], which becomes false, and in the notifications.  Exactly
    one error notification is appended, shown for 4000 ms, with the message
    of the branch taken; the exception is a rejection whose reason is
    [null] or [undefined]: reading [error.response] then throws inside the
    [catch] clause, no notification is added and the function ends with
    that TypeError. *)
Theorem failed_order_keeps_cart_and_form
    (seen : Checkout.State) (outcome : Checkout.Settlement) (w : Checkout.World) :
  let run := Checkout.order_settle seen outcome w in
  let after := run.2 in
  let caught :=
    match outcome with
    | Checkout.Fulfilled res => Failure.nullish res
    | Checkout.Rejected _ => true
    end in
  (∀ res, outcome = Checkout.Fulfilled res → Failure.accepted res = false) →
  localStorage after.2 = localStorage w.2 ∧
  trace after.2
    = trace w.2 ++ (if caught then [ConsoleError "Order submission error:"] else []) ∧
  after.1 = Checkout.with_isLoading false
              (setNotifications (λ _, Checkout.notes after.1) w.1) ∧
  match outcome with
  | Checkout.Rejected reason =>
      if Failure.nullish reason then
        run.1 = Throw TypeError ∧ Checkout.notes after.1 = Checkout.notes w.1
      else
        run.1 = Normal tt ∧
        ∃ n, Checkout.notes after.1 = Checkout.notes w.1 ++ [n] ∧
             type n = Notifications.error ∧ duration n = 4000%Z ∧
             message n = Failure.of_rejection reason
  | Checkout.Fulfilled res =>
      run.1 = Normal tt ∧
      ∃ n, Checkout.notes after.1 = Checkout.notes w.1 ++ [n] ∧
           type n = Notifications.error ∧ duration n = 4000%Z ∧
           message n = Failure.of_response res
  end.
Proof.
  cbv zeta. intros Hnot. destruct w as [st b].
  unfold Checkout.order_settle, try_finally, try_catch, Checkout.await.
  destruct outcome as [res|reason].
  - specialize (Hnot res eq_refl). unfold Failure.accepted in Hnot.
    destruct res; cbn in Hnot; run; rewrite ?Hnot; cbn;
      rewrite ?app_nil_r; repeat split; try reflexivity; eexists; repeat split; reflexivity.
  - unfold Failure.of_rejection, Spec.field.
    destruct reason as [| |x|x|x|elems own|props]; run;
      try (repeat split; try reflexivity; eexists; repeat split; reflexivity).
    + destruct (default JUndefined (assoc_get "response" own)) as [| |x|x|x|es o|ps] eqn:Er;
        cbn; repeat (match goal with |- context [if ?c then _ else _] => destruct c eqn:?; cbn end);
        repeat split; try reflexivity; eexists; repeat split; reflexivity.
    + destruct (default JUndefined (assoc_get "response" props)) as [| |x|x|x|es o|ps] eqn:Er;
        cbn; repeat (match goal with |- context [if ?c then _ else _] => destruct c eqn:?; cbn end);
        repeat split; try reflexivity; eexists; repeat split; reflexivity.
Qed.

Lemma failed_order_keeps_cart_and_form_witness :
  let w : Checkout.World :=
    (Checkout.with_isLoading true (Demo.checkout [Demo.rose] "0100"),
     Demo.browser {["cart" := Demo.rose_text]}) in
  let reason := JObj [("response", JObj [("status", JNum (Int 500))])] in
  let outcome := Checkout.Rejected reason in
  let after := (Checkout.order_settle w.1 outcome w).2 in
  (∀ res, outcome = Checkout.Fulfilled res → Failure.accepted res = false) ∧
  localStorage after.2 !! "cart" = Some Demo.rose_text ∧
  Checkout.cart after.1 = [Demo.rose] ∧
  Checkout.isLoading after.1 = false ∧
  map message (Checkout.notes after.1) = ["Server error: 500. Please try again later."].
Proof.
  intros w reason outcome after.
  assert (Hnot : ∀ res, outcome = Checkout.Fulfilled res → Failure.accepted res = false)
    by (intros res Hres; discriminate Hres).
  split; [exact Hnot|].
  destruct (failed_order_keeps_cart_and_form w.1 outcome w Hnot)
    as (Hstore & _ & Hstate & _ & n & Hnotes & _ & _ & Hmsg).
  fold after in Hstore, Hstate, Hnotes.
  split; [by rewrite Hstore|]. split; [by rewrite Hstate|]. split; [by rewrite Hstate|].
  rewrite Hnotes, map_app. cbn [map]. rewrite Hmsg. reflexivity.
Defined.

(** X8.  A contact message whose request does not end in a response with
    status 200 keeps what the user typed: the rest of [addContact] leaves
    localStorage as it was, changes the state only in [isLoading], which
    becomes false, and in the notifications, and appends exactly one error
    notification with the message of the branch taken (none, and a
    TypeError, when the rejection reason is [null] or [undefined]). *)
Theorem failed_contact_keeps_form
    (seen : Contact.State) (outcome : Contact.Settlement) (w : Contact.World) :
  let run := Contact.addContact_settle seen outcome w in
  let after := run.2 in
  let caught :=
    match outcome with
    | Contact.Fulfilled res => Failure.nullish res
    | Contact.Rejected _ => true
    end in
  (∀ res, outcome = Contact.Fulfilled res → Failure.accepted res = false) →
  localStorage after.2 = localStorage w.2 ∧
  trace after.2
    = trace w.2 ++ (if caught then [ConsoleError "Contact form submission error:"] else []) ∧
  after.1 = Contact.with_isLoading false
              (setNotifications (λ _, Contact.notes after.1) w.1) ∧
  match outcome with
  | Contact.Rejected reason =>
      if Failure.nullish reason then
        run.1 = Throw TypeError ∧ Contact.notes after.1 = Contact.notes w.1
      else
        run.1 = Normal tt ∧
        ∃ n, Contact.notes after.1 = Contact.notes w.1 ++ [n] ∧
             type n = Notifications.error ∧ duration n = 4000%Z ∧
             message n = Failure.of_rejection reason
  | Contact.Fulfilled res =>
      run.1 = Normal tt ∧
      ∃ n, Contact.notes after.1 = Contact.notes w.1 ++ [n] ∧
           type n = Notifications.error ∧ duration n = 4000%Z ∧
           message n = Failure.of_response res
  end.
Proof.
  cbv zeta. intros Hnot. destruct w as [st b].
  unfold Contact.addContact_settle, try_finally, try_catch, Contact.await.
  destruct outcome as [res|reason].
  - specialize (Hnot res eq_refl). unfold Failure.accepted in Hnot.
    destruct res; cbn in Hnot; run; rewrite ?Hnot; cbn;
      rewrite ?app_nil_r; repeat split; try reflexivity; eexists; repeat split; reflexivity.
  - unfold Failure.of_rejection, Spec.field.
    destruct reason as [| |x|x|x|elems own|props]; run;
      try (repeat split; try reflexivity; eexists; repeat split; reflexivity).
    + destruct (default JUndefined (assoc_get "response" own)) as [| |x|x|x|es o|ps] eqn:Er;
        cbn; repeat (match goal with |- context [if ?c then _ else _] => destruct c eqn:?; cbn end);
        repeat split; try reflexivity; eexists; repeat split; reflexivity.
    + destruct (default JUndefined (assoc_get "response" props)) as [| |x|x|x|es o|ps] eqn:Er;
        cbn; repeat (match goal with |- context [if ?c then _ else _] => destruct c eqn:?; cbn end);
        repeat split; try reflexivity; eexists; repeat split; reflexivity.
Qed.

Lemma failed_contact_keeps_form_witness :
  let w : Contact.World := (Contact.with_isLoading true Demo.contact, Demo.browser ∅) in
  let outcome := Contact.Rejected (JObj [("request", JObj [])]) in
  let after := (Contact.addContact_settle w.1 outcome w).2 in
  (∀ res, outcome = Contact.Fulfilled res → Failure.accepted res = false) ∧
  Contact.message after.1 = "Hello" ∧
  Contact.isLoading after.1 = false ∧
  map message (Contact.notes after.1) = [Failure.network_error].
Proof.
  intros w outcome after.
  assert (Hnot : ∀ res, outcome = Contact.Fulfilled res → Failure.accepted res = false)
    by (intros res Hres; discriminate Hres).
  split; [exact Hnot|].
  destruct (failed_contact_keeps_form w.1 outcome w Hnot)
    as (_ & _ & Hstate & _ & n & Hnotes & _ & _ & Hmsg).
  fold after in Hstate, Hnotes.
  split; [by rewrite Hstate|]. split; [by rewrite Hstate|].
  rewrite Hnotes, map_app. cbn [map]. rewrite Hmsg. reflexivity.
Defined.

(** X9.  A contact message that is accepted (status 200) clears the four
    fields, releases [isLoading] and appends one success notification,
    shown for 5000 ms, that thanks the sender by the trimmed name of the
    render that submitted; localStorage and the trace are untouched. *)
Theorem accepted_contact_clears_form
    (seen : Contact.State) (res : JsValue) (w : Contact.World) :
  Failure.accepted res = true →
  ∃ (after : Contact.World) (n : Notification),
    Contact.addContact_settle seen (Contact.Fulfilled res) w = (Normal tt, after) ∧
    localStorage after.2 = localStorage w.2 ∧
    trace after.2 = trace w.2 ∧
    after.1 = {| Contact.name := ""; Contact.email := ""; Contact.phone := "";
                 Contact.message := ""; Contact.isLoading := false;
                 Contact.notes := Contact.notes w.1 ++ [n] |} ∧
    type n = success ∧ duration n = 5000%Z ∧
    message n = "Thank you " +:+ trim (Contact.name seen) +:+
                "! Your message has been sent successfully. We'll get back to you soon! 📧".
Proof.
  intros Hok. destruct w as [st b]. unfold Failure.accepted in Hok.
  unfold Contact.addContact_settle, try_finally, try_catch, Contact.await.
  destruct res; cbn in Hok; try discriminate Hok; run; rewrite Hok; cbn;
    eexists _, _; (split; [reflexivity|]); cbn; repeat split; reflexivity.
Qed.

Lemma accepted_contact_clears_form_witness :
  let w : Contact.World := (Contact.with_isLoading true Demo.contact, Demo.browser ∅) in
  Failure.accepted Demo.ok = true ∧
  ∃ after n,
    Contact.addContact_settle Demo.contact (Contact.Fulfilled Demo.ok) w = (Normal tt, after) ∧
    Contact.message after.1 = "" ∧
    Contact.notes after.1 = [n] ∧
    message n = "Thank you Mona! Your message has been sent successfully. We'll get back to you soon! 📧".
Proof.
  intros w.
  assert (Hok : Failure.accepted Demo.ok = true) by reflexivity.
  split; [exact Hok|].
  destruct (accepted_contact_clears_form Demo.contact Demo.ok w Hok)
    as (after & n & Hrun & _ & _ & Hstate & _ & _ & Hmsg).
  exists after, n. split; [exact Hrun|]. split; [by rewrite Hstate|].
  split; [by rewrite Hstate|]. rewrite Hmsg. reflexivity.
Defined.

(** ** What a stored cart reads back as *)

Import Json.

Lemma kept_obj (props : list (string * JsValue)) :
  kept (JObj props) = JObj (kept_members props).
Proof. reflexivity. Qed.

Lemma strip_zeros_idem (m : Z) (e : nat) :
  strip_zeros (strip_zeros m e).1 (strip_zeros m e).2 = strip_zeros m e.
Proof.
  revert m. induction e as [|e IH]; intros m; [done|].
  cbn [strip_zeros]. destruct (m mod 10 =? 0)%Z eqn:Hm; [apply IH|].
  cbn [fst snd strip_zeros]. by rewrite Hm.
Qed.

Lemma print_dec_strip (m : Z) (e : nat) :
  print_dec (strip_zeros m e).1 (strip_zeros m e).2 = print_dec m e.
Proof.
  unfold print_dec. rewrite strip_zeros_idem. by destruct (strip_zeros m e).
Qed.

Lemma text_of_app (ts ts' : list token) : text_of (ts ++ ts') = text_of ts ++ text_of ts'.
Proof. unfold text_of. by rewrite map_app, concat_app. Qed.

Lemma kept_defined (v : JsValue) : is_undefined (kept v) = false.
Proof. destruct v as [| | |[]| | |]; done. Qed.

(** A value and what JSON keeps of it have the same text. *)
Lemma text_of_kept (v : JsValue) :
  text_of (tokens_of (kept v)) = text_of (tokens_of v).
Proof.
  induction v as [| |b|n|s|elems own IH|props IH] using JsValue_nested_ind; try done.
  - destruct n as [| |m e]; try done. cbn. by rewrite print_dec_strip.
  - cbn [kept]. rewrite !tokens_of_arr, !text_of_cons. f_equal.
    induction IH as [|x vs Hx Hvs IHvs]; [done|].
    cbn [map]. rewrite !elements_tokens_cons, !text_of_app, Hx. f_equal.
    destruct vs as [|y vs]; [done|]. cbn [map]. rewrite !text_of_cons. f_equal.
    exact IHvs.
  - rewrite kept_obj, !tokens_of_obj, !text_of_cons. f_equal.
    generalize true as first.
    induction IH as [|[k x] ps Hx Hps IHps]; intros first; [done|].
    cbn [kept_members]. destruct (is_undefined x) eqn:Hu.
    + cbn [members_tokens]. rewrite Hu. apply IHps.
    + rewrite !members_tokens_cons by (done || apply kept_defined).
      rewrite !text_of_app, !text_of_cons, !text_of_app. cbn [snd] in Hx.
      by rewrite Hx, IHps.
Qed.

Lemma kept_members_get_none (k : string) (ps : list (string * JsValue)) :
  assoc_get k ps = None → assoc_get k (kept_members ps) = None.
Proof.
  induction ps as [|[k0 x0] ps IH]; [done|]. cbn.
  destruct (String.eqb k k0) eqn:Hk; [done|]. intros Hps.
  destruct (is_undefined x0); cbn; rewrite ?Hk; by apply IH.
Qed.

Lemma kept_members_distinct (ps : list (string * JsValue)) :
  distinct_keys ps = true → distinct_keys (kept_members ps) = true.
Proof.
  induction ps as [|[k0 x0] ps IH]; [done|]. cbn.
  destruct (assoc_get k0 ps) eqn:Hk; [done|]. intros Hps.
  destruct (is_undefined x0); cbn; [by apply IH|].
  rewrite (kept_members_get_none _ _ Hk). by apply IH.
Qed.

Lemma strip_zeros_canonical (m : Z) (e : nat) :
  strip_zeros (strip_zeros m e).1 (strip_zeros m e).2
  = ((strip_zeros m e).1, (strip_zeros m e).2).
Proof. rewrite strip_zeros_idem. by destruct (strip_zeros m e). Qed.

(** What JSON keeps of a value with distinct keys is represented
    exactly. *)
Lemma kept_serializable (v : JsValue) :
  well_keyed v = true → serializable (kept v) = true.
Proof.
  induction v as [| |b|n|s|elems own IH|props IH] using JsValue_nested_ind; try done.
  - intros _. destruct n as [| |m e]; try done. cbn.
    apply bool_decide_eq_true. apply strip_zeros_canonical.
  - cbn [well_keyed kept serializable]. intros Hk.
    induction IH as [|x vs Hx Hvs IHvs]; [done|].
    cbn in Hk |- *. apply andb_true_iff in Hk as [Hkx Hkvs].
    rewrite (Hx Hkx). by apply IHvs.
  - rewrite kept_obj. cbn [well_keyed serializable].
    rewrite !andb_true_iff. intros [Hd Hk]. split; [by apply kept_members_distinct|].
    clear Hd. induction IH as [|[k x] ps Hx Hps IHps]; [done|].
    cbn in Hk. apply andb_true_iff in Hk as [Hkx Hkps]. cbn [kept_members].
    destruct (is_undefined x); [by apply IHps|].
    cbn in Hx |- *. rewrite (Hx Hkx). by apply IHps.
Qed.

(** JSON.parse(JSON.stringify(v)) is what JSON keeps of [v]. *)
Lemma parse_stringify_kept (v : JsValue) :
  well_keyed v = true → is_undefined v = false →
  ∃ text, JSON_stringify v = Some text ∧ text ≠ "" ∧ JSON_parse text = Normal (kept v).
Proof.
  intros Hk Hu.
  destruct (parse_stringify (kept v) (kept_serializable v Hk)) as (text & Htext & Hne & Hparse).
  exists text. split; [|done].
  rewrite <- Htext. unfold JSON_stringify.
  destruct v; try done; destruct (kept _) eqn:Hkept; try done;
    try (by rewrite <- Hkept, text_of_kept);
    try (by destruct n).
Qed.

Lemma kept_exact (v : JsValue) : serializable v = true → kept v = v.
Proof.
  induction v as [| |b|n|s|elems own IH|props IH] using JsValue_nested_ind; try done.
  - destruct n as [| |m e]; try done. cbn. intros Hs.
    apply bool_decide_eq_true in Hs. by rewrite Hs.
  - cbn [serializable kept]. destruct own; [|done]. intros Hs. f_equal.
    induction IH as [|x vs Hx Hvs IHvs]; [done|].
    cbn in Hs |- *. apply andb_true_iff in Hs as [Hsx Hsvs].
    rewrite (Hx Hsx). f_equal. by apply IHvs.
  - rewrite kept_obj. cbn [serializable]. rewrite andb_true_iff. intros [_ Hs]. f_equal.
    induction IH as [|[k x] ps Hx Hps IHps]; [done|].
    cbn in Hs, Hx. apply andb_true_iff in Hs as [Hsx Hsps]. cbn [kept_members].
    rewrite (serializable_defined x Hsx), (Hx Hsx). f_equal. by apply IHps.
Qed.

Lemma cart_of_saved_kept (cart : list JsValue) (text : string) :
  forallb well_keyed cart = true →
  JSON_stringify (JArr cart []) = Some text →
  cart_of_saved (Some text) = map kept cart.
Proof.
  intros Hk Htext.
  destruct (parse_stringify_kept (JArr cart []) Hk eq_refl) as (text' & Htext' & Hne & Hparse).
  assert (text' = text) as -> by congruence.
  unfold cart_of_saved. cbn [opt_truthy default from_option].
  destruct (String.eqb_spec text ""); [done|]. cbn. by rewrite Hparse.
Qed.

(** X14.  Whatever cart [saveCartToStorage] writes (objects with distinct
    keys), each loader that runs next reads back what JSON keeps of it, line
    by line: same number of lines, [undefined] and non-finite numbers as
    [null], properties whose value is [undefined] gone.  The checkout's
    loader reports no error.  For a cart that JSON represents exactly this
    is the cart itself. *)
Theorem written_cart_reads_back_as_kept
    (cart : list JsValue) (w : Checkout.World) (badge : CartBadge.State)
    (catalog : Products.State) :
  forallb well_keyed cart = true →
  let written := (Checkout.saveCartToStorage cart w).2 in
  Checkout.cart (Checkout.loadCartFromStorage written).2.1 = map kept cart ∧
  CartBadge.cart (CartBadge.loadCartFromStorage (badge, written.2)).2.1 = map kept cart ∧
  Products.cart (Products.load_effect (catalog, written.2)).2.1 = map kept cart ∧
  Checkout.notes (Checkout.loadCartFromStorage written).2.1 = Checkout.notes w.1 ∧
  length (map kept cart) = length cart ∧
  (forallb serializable cart = true → map kept cart = cart).
Proof.
  intros Hk written.
  destruct (saveCartToStorage_run cart w) as (text & Htext & Hsave).
  pose proof (cart_of_saved_kept cart text Hk Htext) as Hcart.
  assert (Hstored : localStorage written.2 !! "cart" = Some text).
  { unfold written. rewrite Hsave. apply lookup_insert_eq. }
  assert (Ht : opt_truthy (Some text) = true).
  { destruct (parse_stringify_kept (JArr cart []) Hk eq_refl) as (text' & Htext' & Hne & _).
    assert (text' = text) as -> by congruence.
    cbn. by destruct (String.eqb_spec text ""). }
  split; [|split; [|split; [|split; [|split]]]].
  - destruct (checkout_read written) as (after & Hrun & _ & Hc).
    rewrite Hrun. cbn [fst snd]. by rewrite Hc, Hstored.
  - destruct (badge_read (badge, written.2)) as (after & Hrun & _ & Hc).
    rewrite Hrun. cbn [fst snd] in Hc |- *. by rewrite Hc, Hstored.
  - destruct (catalog_read (catalog, written.2)) as (after & Hrun & _ & _ & Hc).
    rewrite Hrun. cbn [fst snd] in Hc |- *. rewrite Hstored in Hc. by rewrite (Hc Ht).
  - unfold written. rewrite Hsave. destruct w as [st b]. cbn.
    unfold Checkout.loadCartFromStorage, getItem. run.
    rewrite lookup_insert_eq. cbn [opt_truthy] in Ht |- *. rewrite Ht.
    destruct (parse_stringify_kept (JArr cart []) Hk eq_refl) as (text' & Htext' & _ & Hparse).
    assert (text' = text) as -> by congruence.
    unfold try_catch. run. by rewrite Hparse.
  - by rewrite length_map.
  - intros Hs. clear -Hs. induction cart as [|x cart IH]; [done|].
    cbn in Hs |- *. apply andb_true_iff in Hs as [Hx Hc].
    by rewrite (kept_exact x Hx), IH.
Qed.

Lemma written_cart_reads_back_as_kept_witness :
  let sparse :=
    JObj [("name", JStr "Musk"); ("price", JNum (Dec 1500 1)); ("note", JUndefined);
          ("quantity", JNum NaN)] in
  let cart := [Demo.rose; sparse; JUndefined] in
  let w : Checkout.World := (Demo.checkout [] "0100", Demo.browser ∅) in
  let written := (Checkout.saveCartToStorage cart w).2 in
  forallb well_keyed cart = true ∧
  Checkout.cart (Checkout.loadCartFromStorage written).2.1
  = [Demo.rose;
     JObj [("name", JStr "Musk"); ("price", JNum (Int 150)); ("quantity", JNull)];
     JNull].
Proof.
  intros sparse cart w written.
  assert (Hk : forallb well_keyed cart = true) by reflexivity.
  split; [exact Hk|].
  destruct (written_cart_reads_back_as_kept cart w {| CartBadge.cart := [] |}
              (Demo.catalog []) Hk) as (Hread & _).
  exact Hread.
Defined.

(** *** Keys and lines *)

Lemma assoc_get_put_other {A : Type} (k k' : string) (v : A) (ps : list (string * A)) :
  k ≠ k' → assoc_get k (assoc_put k' v ps) = assoc_get k ps.
Proof.
  intros Hk. induction ps as [|[k0 v0] ps IH]; cbn.
  - by destruct (String.eqb_spec k k').
  - destruct (String.eqb_spec k' k0) as [->|Hne]; cbn.
    + by destruct (String.eqb_spec k k0).
    + destruct (String.eqb_spec k k0); [done|apply IH].
Qed.

Lemma assoc_get_put_none {A : Type} (k k' : string) (v : A) (ps : list (string * A)) :
  k ≠ k' → assoc_get k ps = None → assoc_get k (assoc_put k' v ps) = None.
Proof. intros Hk Hnone. by rewrite assoc_get_put_other. Qed.

Lemma distinct_keys_put {A : Type} (k : string) (v : A) (ps : list (string * A)) :
  distinct_keys ps = true → distinct_keys (assoc_put k v ps) = true.
Proof.
  induction ps as [|[k0 v0] ps IH]; [done|]. cbn [distinct_keys assoc_put].
  destruct (assoc_get k0 ps) eqn:Hk0; [done|]. intros Hps.
  destruct (String.eqb_spec k k0) as [->|Hne]; cbn [distinct_keys].
  - by rewrite Hk0.
  - rewrite assoc_get_put_none by done. by apply IH.
Qed.

Lemma well_keyed_put (k : string) (v : JsValue) (ps : list (string * JsValue)) :
  well_keyed (JObj ps) = true → well_keyed v = true →
  well_keyed (JObj (assoc_put k v ps)) = true.
Proof.
  cbn [well_keyed]. rewrite !andb_true_iff. intros [Hd Hall] Hv.
  split; [by apply distinct_keys_put|].
  clear Hd. induction ps as [|[k0 v0] ps IH]; cbn [assoc_put forallb snd].
  - by rewrite Hv.
  - cbn [forallb snd] in Hall. apply andb_true_iff in Hall as [H0 Hps].
    destruct (String.eqb k k0); cbn [forallb snd].
    + by rewrite Hv, Hps.
    + by rewrite H0, IH.
Qed.

Lemma forallb_lookup {A : Type} (p : A → bool) (l : list A) (i : nat) (x : A) :
  forallb p l = true → l !! i = Some x → p x = true.
Proof.
  intros Hall Hx. rewrite forallb_forall in Hall. apply Hall.
  apply list_elem_of_In. by eapply list_elem_of_lookup_2.
Qed.

Lemma forallb_insert {A : Type} (p : A → bool) (l : list A) (i : nat) (x : A) :
  forallb p l = true → p x = true → forallb p (<[i := x]> l) = true.
Proof.
  revert i. induction l as [|y l IH]; intros [|i]; cbn; try done.
  - rewrite !andb_true_iff. intros [_ Hl] Hx. done.
  - rewrite !andb_true_iff. intros [Hy Hl] Hx. split; [done|by apply IH].
Qed.

Lemma forallb_delete {A : Type} (p : A → bool) (l : list A) (i : nat) :
  forallb p l = true → forallb p (delete i l) = true.
Proof.
  revert i. induction l as [|y l IH]; intros [|i]; cbn; try done.
  - rewrite andb_true_iff. by intros [_ Hl].
  - rewrite !andb_true_iff. intros [Hy Hl]. split; [done|by apply IH].
Qed.

Lemma serializable_well_keyed (v : JsValue) : serializable v = true → well_keyed v = true.
Proof.
  induction v as [| |b|n|s|elems own IH|props IH] using JsValue_nested_ind; try done.
  - cbn [serializable well_keyed]. destruct own; [|done]. intros Hs.
    induction IH as [|x vs Hx Hvs IHvs]; [done|].
    cbn in Hs |- *. apply andb_true_iff in Hs as [Hsx Hsvs].
    rewrite (Hx Hsx). by apply IHvs.
  - cbn [serializable well_keyed]. rewrite !andb_true_iff. intros [Hd Hs].
    split; [done|]. clear Hd.
    induction IH as [|[k x] ps Hx Hps IHps]; [done|].
    cbn in Hs, Hx |- *. apply andb_true_iff in Hs as [Hsx Hsps].
    rewrite (Hx Hsx). by apply IHps.
Qed.

Lemma serializable_cart_well_keyed (cart : list JsValue) :
  forallb serializable cart = true → forallb well_keyed cart = true.
Proof.
  induction cart as [|x cart IH]; [done|]. cbn. rewrite !andb_true_iff.
  intros [Hx Hc]. split; [by apply serializable_well_keyed|by apply IH].
Qed.

Lemma map_kept_exact (cart : list JsValue) :
  forallb serializable cart = true → map kept cart = cart.
Proof.
  induction cart as [|x cart IH]; [done|]. cbn. rewrite andb_true_iff.
  intros [Hx Hc]. by rewrite (kept_exact x Hx), IH.
Qed.

(** The listener of the checkout after a write: the cart of the state is
    what JSON keeps of the written cart, and nothing else changes. *)
Lemma listener_reads_written (st : Checkout.State) (b : Browser)
    (cart : list JsValue) (text : string) :
  forallb well_keyed cart = true →
  JSON_stringify (JArr cart []) = Some text →
  localStorage b !! "cart" = Some text →
  Checkout.handleCartUpdate (st, b)
  = (Normal tt, (Checkout.with_cart (map kept cart) st, b)).
Proof.
  intros Hk Htext Hstored.
  destruct (parse_stringify_kept (JArr cart []) Hk eq_refl) as (text' & Htext' & Hne & Hparse).
  assert (text' = text) as -> by congruence.
  unfold Checkout.handleCartUpdate, Checkout.loadCartFromStorage, getItem. run.
  rewrite Hstored. cbn [opt_truthy].
  destruct (String.eqb_spec text ""); [done|]. cbn [negb default from_option].
  unfold try_catch. run. by rewrite Hparse.
Qed.

(** *** What a JSON text denotes has distinct keys *)

Lemma parsed_well_keyed (fuel : nat) :
  (∀ ts v r, parse_value fuel ts = Some (v, r) → well_keyed v = true) ∧
  (∀ ts vs r, parse_elements fuel ts = Some (vs, r) → forallb well_keyed vs = true) ∧
  (∀ acc ts ps r, parse_members fuel acc ts = Some (ps, r) →
     well_keyed (JObj acc) = true → well_keyed (JObj ps) = true).
Proof.
  induction fuel as [|fuel (IHv & IHe & IHm)]; [by repeat split|].
  split; [|split].
  - intros ts v r. rewrite parse_value_S. intros H.
    repeat case_match; simplify_eq; try done;
      first [by eapply IHm | cbn [well_keyed]; by eapply IHe].
  - intros ts vs r. rewrite parse_elements_S. intros H.
    repeat case_match; simplify_eq; cbn [forallb]; apply andb_true_iff;
      (split; [by eapply IHv|first [done | by eapply IHe]]).
  - intros acc ts ps r. rewrite parse_members_S. intros H Hacc.
    repeat case_match; simplify_eq;
      first [ apply well_keyed_put; [done|by eapply IHv]
            | eapply IHm; [done|]; apply well_keyed_put; [done|by eapply IHv] ].
Qed.

Lemma JSON_parse_well_keyed (text : string) (v : JsValue) :
  JSON_parse text = Normal v → well_keyed v = true.
Proof.
  unfold JSON_parse. intros H. repeat case_match; simplify_eq.
  by eapply (proj1 (parsed_well_keyed _)).
Qed.

Lemma cart_of_saved_well_keyed (saved : option string) :
  forallb well_keyed (cart_of_saved saved) = true.
Proof.
  unfold cart_of_saved. destruct (opt_truthy saved); [|done].
  destruct (JSON_parse _) as [v|e] eqn:Hp; [|done].
  apply JSON_parse_well_keyed in Hp. by destruct v.
Qed.

(** ** The quantity buttons *)

Lemma bump_quantity_object (step : JsNumber → JsNumber) (index : nat)
    (cart : list JsValue) (props : list (string * JsValue)) :
  cart !! index = Some (JObj props) →
  Checkout.bump_quantity step index cart
  = Normal (<[index :=
       JObj (assoc_put "quantity"
               (JNum (step (to_number (default JUndefined (assoc_get "quantity" props)))))
               props)]> cart).
Proof. intros Hline. unfold Checkout.bump_quantity. by rewrite Hline. Qed.

Lemma saved_cart (updatedCart : list JsValue) (w : Checkout.World) :
  ∃ after text,
    Checkout.saveCartToStorage updatedCart w = (Normal tt, after) ∧
    after.1 = Checkout.with_cart updatedCart w.1 ∧
    JSON_stringify (JArr updatedCart []) = Some text ∧
    localStorage after.2 = <["cart" := text]> (localStorage w.2) ∧
    trace after.2 = trace w.2 ++ [SetItem "cart" text; DispatchEvent "cartUpdated"] ∧
    (clock after.2, ticks after.2) = (clock w.2, ticks w.2).
Proof.
  destruct (saveCartToStorage_run updatedCart w) as (text & Htext & Hsave).
  eexists _, text. split; [exact Hsave|]. cbn.
  split; [done|]. split; [done|]. split; [done|]. split; [|done].
  by rewrite <- app_assoc.
Qed.

Lemma increase_run (index : nat) (w : Checkout.World) (updated : list JsValue) :
  Checkout.bump_quantity Checkout.increment index (Checkout.cart w.1) = Normal updated →
  Checkout.increase index w
  = Checkout.saveCartToStorage updated (Checkout.with_cart updated w.1, w.2).
Proof.
  intros Hb. destruct w as [st b]. unfold Checkout.increase. run.
  cbn in Hb. by rewrite Hb.
Qed.

Lemma remove_full (index : nat) (w : Checkout.World) :
  ∃ (after : Checkout.World) (text : string) (n : Notification),
    Checkout.remove index w = (Normal tt, after) ∧
    after.1 = setNotifications (λ prev, prev ++ [n])
                (Checkout.with_cart (delete index (Checkout.cart w.1)) w.1) ∧
    JSON_stringify (JArr (delete index (Checkout.cart w.1)) []) = Some text ∧
    localStorage after.2 = <["cart" := text]> (localStorage w.2) ∧
    trace after.2 = trace w.2 ++ [SetItem "cart" text; DispatchEvent "cartUpdated"] ∧
    n = {| id := clock w.2 (ticks w.2); message := "Item removed from cart";
           type := success; duration := 2000 |}.
Proof.
  destruct w as [st b]. unfold Checkout.remove. run.
  rewrite filter_index_removes.
  destruct (saveCartToStorage_run (delete index (Checkout.cart st)) (st, b))
    as (text & Htext & Hsave).
  rewrite Hsave. cbn. unfold showSuccess, addNotification, now_plus_random. run.
  eexists _, text, _. split; [reflexivity|]. cbn.
  split; [done|]. split; [done|]. split; [done|]. split; [|done].
  by rewrite <- app_assoc.
Qed.

(** X11.  [remove] never fails.  It leaves, stores under "cart" and
    announces the cart without the given position: one line shorter when
    the position is in range, the same cart when it is not; in both cases
    it appends the success notification "Item removed from cart", shown for
    2000 ms. *)
Theorem remove_drops_position (w : Checkout.World) (index : nat) :
  let cart := Checkout.cart w.1 in
  ∃ (after : Checkout.World) (text : string) (n : Notification),
    Checkout.remove index w = (Normal tt, after) ∧
    Checkout.cart after.1 = delete index cart ∧
    (index < length cart → S (length (Checkout.cart after.1)) = length cart) ∧
    (length cart ≤ index → Checkout.cart after.1 = cart) ∧
    JSON_stringify (JArr (Checkout.cart after.1) []) = Some text ∧
    localStorage after.2 = <["cart" := text]> (localStorage w.2) ∧
    trace after.2 = trace w.2 ++ [SetItem "cart" text; DispatchEvent "cartUpdated"] ∧
    Checkout.notes after.1 = Checkout.notes w.1 ++ [n] ∧
    (message n, type n, duration n) = ("Item removed from cart", success, 2000%Z).
Proof.
  intros cart.
  destruct (remove_full index w) as (after & text & n & Hrun & Hstate & Htext & Hstore & Htrace & Hn).
  exists after, text, n. split; [done|].
  assert (Hcart : Checkout.cart after.1 = delete index cart) by (by rewrite Hstate).
  split; [done|]. rewrite Hcart.
  split.
  { intros Hi. destruct (lookup_lt_is_Some_2 cart index Hi) as [x Hx].
    rewrite length_delete by (by eexists). lia. }
  split.
  { intros Hi. clear -Hi. revert index Hi.
    induction cart as [|x l IH]; intros [|i] Hi; cbn in *; try done; try lia.
    f_equal. apply IH. lia. }
  split; [done|]. split; [done|]. split; [done|].
  split; [by rewrite Hstate|by rewrite Hn].
Qed.

Lemma decrease_run (index : nat) (w : Checkout.World) (updated : list JsValue) (low : bool) :
  Checkout.bump_quantity Checkout.decrement index (Checkout.cart w.1) = Normal updated →
  Checkout.quantity_below_one (default JUndefined (updated !! index)) = Normal low →
  Checkout.decrease index w
  = (if low then Checkout.remove index else Checkout.saveCartToStorage updated)
      (Checkout.with_cart updated w.1, w.2).
Proof.
  intros Hb Hlow. destruct low; [by apply decrease_low|by apply decrease_high].
Qed.

Lemma increment_int (n : Z) : Checkout.increment (Int n) = Int (n + 1).
Proof.
  unfold Checkout.increment, Int, num_add. cbn [Nat.max Nat.sub].
  change (pow10 0) with 1%Z. f_equal. lia.
Qed.

Lemma decrement_int (n : Z) : Checkout.decrement (Int n) = Int (n - 1).
Proof.
  unfold Checkout.decrement, num_sub, Int, num_add, num_neg. cbn [Nat.max Nat.sub].
  change (pow10 0) with 1%Z. f_equal. lia.
Qed.

Lemma int_below_one (n : Z) : num_lt (Int n) (Int 1) = (n <? 1)%Z.
Proof.
  unfold num_lt, Int. change (pow10 0) with 1%Z.
  by rewrite !Z.mul_1_r.
Qed.

Lemma well_keyed_bumped (cart : list JsValue) (index : nat)
    (props : list (string * JsValue)) (q : JsNumber) :
  forallb well_keyed cart = true →
  cart !! index = Some (JObj props) →
  forallb well_keyed (<[index := JObj (assoc_put "quantity" (JNum q) props)]> cart) = true.
Proof.
  intros Hk Hline. apply forallb_insert; [done|].
  apply well_keyed_put; [by eapply forallb_lookup|done].
Qed.

(** What a write of the checkout leaves, and what its listener then
    shows. *)
Lemma saved_then_shown (updatedCart : list JsValue) (w : Checkout.World) :
  forallb well_keyed updatedCart = true →
  ∃ (clicked : Checkout.World) (text : string),
    Checkout.saveCartToStorage updatedCart w = (Normal tt, clicked) ∧
    clicked.1 = Checkout.with_cart updatedCart w.1 ∧
    JSON_stringify (JArr updatedCart []) = Some text ∧
    localStorage clicked.2 = <["cart" := text]> (localStorage w.2) ∧
    trace clicked.2 = trace w.2 ++ [SetItem "cart" text; DispatchEvent "cartUpdated"] ∧
    cart_of_saved (localStorage clicked.2 !! "cart") = map kept updatedCart ∧
    Checkout.handleCartUpdate clicked
    = (Normal tt, (Checkout.with_cart (map kept updatedCart) w.1, clicked.2)).
Proof.
  intros Hk.
  destruct (saved_cart updatedCart w) as (clicked & text & Hsave & Hstate & Htext & Hstore & Htrace & _).
  assert (Hstored : localStorage clicked.2 !! "cart" = Some text)
    by (rewrite Hstore; apply lookup_insert_eq).
  exists clicked, text. split; [done|]. split; [done|]. split; [done|].
  split; [done|]. split; [done|].
  split; [rewrite Hstored; by apply cart_of_saved_kept|].
  destruct clicked as [st b]. cbn [fst snd] in *.
  rewrite (listener_reads_written st b updatedCart text Hk Htext Hstored).
  by rewrite Hstate.
Qed.

Lemma removed_then_shown (index : nat) (w : Checkout.World) :
  let cart := Checkout.cart w.1 in
  forallb well_keyed cart = true →
  ∃ (clicked : Checkout.World) (text : string) (n : Notification),
    Checkout.remove index w = (Normal tt, clicked) ∧
    JSON_stringify (JArr (delete index cart) []) = Some text ∧
    localStorage clicked.2 = <["cart" := text]> (localStorage w.2) ∧
    trace clicked.2 = trace w.2 ++ [SetItem "cart" text; DispatchEvent "cartUpdated"] ∧
    cart_of_saved (localStorage clicked.2 !! "cart") = map kept (delete index cart) ∧
    n = {| id := clock w.2 (ticks w.2); message := "Item removed from cart";
           type := success; duration := 2000 |} ∧
    Checkout.handleCartUpdate clicked
    = (Normal tt,
       (setNotifications (λ prev, prev ++ [n])
          (Checkout.with_cart (map kept (delete index cart)) w.1), clicked.2)).
Proof.
  intros cart Hk.
  destruct (remove_full index w) as (clicked & text & n & Hrun & Hstate & Htext & Hstore & Htrace & Hn).
  assert (Hk' : forallb well_keyed (delete index cart) = true) by (by apply forallb_delete).
  assert (Hstored : localStorage clicked.2 !! "cart" = Some text)
    by (rewrite Hstore; apply lookup_insert_eq).
  exists clicked, text, n. split; [done|]. split; [done|]. split; [done|].
  split; [done|].
  split; [rewrite Hstored; by apply cart_of_saved_kept|]. split; [done|].
  destruct clicked as [st b]. cbn [fst snd] in *.
  rewrite (listener_reads_written st b (delete index cart) text Hk' Htext Hstored).
  by rewrite Hstate.
Qed.

(** [increase] on a line that is an object, and the listener after it. *)
Lemma increase_then_shown
    (w : Checkout.World) (index : nat) (props : list (string * JsValue)) :
  let cart := Checkout.cart w.1 in
  let raised :=
    Checkout.increment (to_number (default JUndefined (assoc_get "quantity" props))) in
  let updatedCart := <[index := JObj (assoc_put "quantity" (JNum raised) props)]> cart in
  forallb well_keyed cart = true →
  cart !! index = Some (JObj props) →
  ∃ (clicked : Checkout.World) (text : string),
    Checkout.increase index w = (Normal tt, clicked) ∧
    JSON_stringify (JArr updatedCart []) = Some text ∧
    localStorage clicked.2 = <["cart" := text]> (localStorage w.2) ∧
    trace clicked.2 = trace w.2 ++ [SetItem "cart" text; DispatchEvent "cartUpdated"] ∧
    cart_of_saved (localStorage clicked.2 !! "cart") = map kept updatedCart ∧
    Checkout.handleCartUpdate clicked
    = (Normal tt, (Checkout.with_cart (map kept updatedCart) w.1, clicked.2)).
Proof.
  intros cart raised updatedCart Hk Hline.
  pose proof (bump_quantity_object Checkout.increment index _ props Hline) as Hb.
  fold raised updatedCart in Hb.
  rewrite (increase_run index w updatedCart Hb).
  destruct (saved_then_shown updatedCart (Checkout.with_cart updatedCart w.1, w.2))
    as (clicked & text & Hsave & _ & Htext & Hstore & Htrace & Hread & Hshown).
  { by apply well_keyed_bumped. }
  exists clicked, text. split; [done|]. split; [done|]. split; [done|].
  split; [done|]. split; [done|]. rewrite Hshown. by destruct w as [[] ?].
Qed.

(** [decrease] on a line that is an object, and the listener after it. *)
Lemma decrease_then_shown
    (w : Checkout.World) (index : nat) (props : list (string * JsValue)) :
  let cart := Checkout.cart w.1 in
  let lowered :=
    Checkout.decrement (to_number (default JUndefined (assoc_get "quantity" props))) in
  let gone := num_lt lowered (Int 1) in
  let updatedCart :=
    if gone then delete index cart
    else <[index := JObj (assoc_put "quantity" (JNum lowered) props)]> cart in
  forallb well_keyed cart = true →
  cart !! index = Some (JObj props) →
  ∃ (clicked : Checkout.World) (text : string) (n : Notification),
    Checkout.decrease index w = (Normal tt, clicked) ∧
    JSON_stringify (JArr updatedCart []) = Some text ∧
    localStorage clicked.2 = <["cart" := text]> (localStorage w.2) ∧
    trace clicked.2 = trace w.2 ++ [SetItem "cart" text; DispatchEvent "cartUpdated"] ∧
    cart_of_saved (localStorage clicked.2 !! "cart") = map kept updatedCart ∧
    n = {| id := clock w.2 (ticks w.2); message := "Item removed from cart";
           type := success; duration := 2000 |} ∧
    Checkout.handleCartUpdate clicked
    = (Normal tt,
       (setNotifications (λ prev, prev ++ (if gone then [n] else []))
          (Checkout.with_cart (map kept updatedCart) w.1), clicked.2)).
Proof.
  intros cart lowered gone updatedCart Hk Hline.
  pose proof (bump_quantity_object Checkout.decrement index _ props Hline) as Hb.
  fold lowered in Hb.
  set (line' := JObj (assoc_put "quantity" (JNum lowered) props)) in *.
  set (updated := <[index := line']> cart) in *.
  assert (Hat : updated !! index = Some line').
  { apply list_lookup_insert_eq. by eapply lookup_lt_Some. }
  assert (Hlow : Checkout.quantity_below_one (default JUndefined (updated !! index))
                 = Normal gone).
  { rewrite Hat. unfold Checkout.quantity_below_one. cbn. by rewrite assoc_get_put. }
  assert (Hk' : forallb well_keyed updated = true) by (by apply well_keyed_bumped).
  rewrite (decrease_run index w updated gone Hb Hlow).
  unfold updatedCart. destruct gone.
  - destruct (removed_then_shown index (Checkout.with_cart updated w.1, w.2) Hk')
      as (clicked & text & n & Hrun & Htext & Hstore & Htrace & Hread & Hn & Hshown).
    cbn [fst snd Checkout.cart Checkout.with_cart] in Htext, Hread, Hshown.
    unfold updated in Htext, Hread, Hshown. rewrite delete_insert_same in Htext, Hread, Hshown.
    exists clicked, text, n. split; [done|]. split; [done|]. split; [done|].
    split; [done|]. split; [done|]. split; [done|].
    rewrite Hshown. by destruct w as [[] ?].
  - destruct (saved_then_shown updated (Checkout.with_cart updated w.1, w.2) Hk')
      as (clicked & text & Hsave & _ & Htext & Hstore & Htrace & Hread & Hshown).
    eexists clicked, text, _. split; [done|]. split; [done|]. split; [done|].
    split; [done|]. split; [done|]. split; [reflexivity|].
    rewrite Hshown. destruct w as [[] ?]. cbn. by rewrite app_nil_r.
Qed.

Lemma map_insert {A B : Type} (f : A → B) (l : list A) (i : nat) (x : A) :
  map f (<[i := x]> l) = <[i := f x]> (map f l).
Proof.
  revert i. induction l as [|y l IH]; intros [|i]; cbn; try done. by rewrite IH.
Qed.

Lemma serializable_int (n : Z) : serializable (JNum (Int n)) = true.
Proof. by apply bool_decide_eq_true. Qed.

Lemma serializable_put (k : string) (v : JsValue) (ps : list (string * JsValue)) :
  serializable (JObj ps) = true → serializable v = true →
  serializable (JObj (assoc_put k v ps)) = true.
Proof.
  cbn [serializable]. rewrite !andb_true_iff. intros [Hd Hall] Hv.
  split; [by apply distinct_keys_put|].
  clear Hd. induction ps as [|[k0 v0] ps IH]; cbn [assoc_put forallb snd].
  - by rewrite Hv.
  - cbn [forallb snd] in Hall. apply andb_true_iff in Hall as [H0 Hps].
    destruct (String.eqb k k0); cbn [forallb snd].
    + by rewrite Hv, Hps.
    + by rewrite H0, IH.
Qed.

Lemma serializable_bumped (cart : list JsValue) (index : nat)
    (props : list (string * JsValue)) (v : JsValue) :
  forallb serializable cart = true →
  cart !! index = Some (JObj props) →
  serializable v = true →
  forallb serializable (<[index := JObj (assoc_put "quantity" v props)]> cart) = true.
Proof.
  intros Hs Hline Hv. apply forallb_insert; [done|].
  apply serializable_put; [by eapply forallb_lookup|done].
Qed.

Lemma assoc_put_last {A : Type} (k : string) (x y : A) (ps : list (string * A)) :
  assoc_get k ps = None → assoc_put k y (ps ++ [(k, x)]) = ps ++ [(k, y)].
Proof.
  intros Hnone. induction ps as [|[k0 x0] ps IH]; cbn in *.
  - by rewrite String.eqb_refl.
  - destruct (String.eqb k k0); [done|]. by rewrite IH.
Qed.

(** X10.  [increase] on a line whose quantity is a whole number [n] that
    binary64 holds exactly stores and announces the cart in which that
    line has quantity [n + 1], and leaves no notification.  The dispatch
    runs the checkout's own listener, which reloads the cart from the
    text just stored: the page then shows what JSON keeps of that cart,
    which is the stored cart, and for a cart that JSON represents exactly
    the cart with the one quantity raised.  The other properties of the
    line, the other lines and the length of the cart are unchanged. *)
Theorem increase_adds_one_to_line
    (w : Checkout.World) (index : nat) (props : list (string * JsValue)) (n : Z) :
  let cart := Checkout.cart w.1 in
  let line' := JObj (assoc_put "quantity" (JNum (Int (n + 1))) props) in
  let updatedCart := <[index := line']> cart in
  forallb well_keyed cart = true →
  cart !! index = Some (JObj props) →
  assoc_get "quantity" props = Some (JNum (Int n)) →
  Scope.safe_integer n →
  ∃ (clicked shown : Checkout.World) (text : string),
    Checkout.increase index w = (Normal tt, clicked) ∧
    JSON_stringify (JArr updatedCart []) = Some text ∧
    localStorage clicked.2 = <["cart" := text]> (localStorage w.2) ∧
    trace clicked.2 = trace w.2 ++ [SetItem "cart" text; DispatchEvent "cartUpdated"] ∧
    Checkout.handleCartUpdate clicked = (Normal tt, shown) ∧
    shown = (Checkout.with_cart (map kept updatedCart) w.1, clicked.2) ∧
    cart_of_saved (localStorage shown.2 !! "cart") = Checkout.cart shown.1 ∧
    (forallb serializable cart = true → Checkout.cart shown.1 = updatedCart) ∧
    length updatedCart = length cart ∧
    (∀ j, j ≠ index → updatedCart !! j = cart !! j) ∧
    get_prop line' "quantity" = Normal (JNum (Int (n + 1))) ∧
    (∀ k, k ≠ "quantity" → get_prop line' k = get_prop (JObj props) k).
Proof.
  intros cart line' updatedCart Hk Hline Hq _.
  destruct (increase_then_shown w index props Hk Hline)
    as (clicked & text & Hrun & Htext & Hstore & Htrace & Hread & Hshown).
  rewrite Hq in Htext, Hread, Hshown. cbn [default from_option Datatypes.id to_number] in Htext, Hread, Hshown.
  rewrite increment_int in Htext, Hread, Hshown. fold line' updatedCart in Htext, Hread, Hshown.
  exists clicked, (Checkout.with_cart (map kept updatedCart) w.1, clicked.2), text.
  split; [done|]. split; [done|]. split; [done|]. split; [done|]. split; [done|].
  split; [done|]. split; [done|]. cbn [fst snd Checkout.cart Checkout.with_cart].
  split.
  { intros Hs. apply map_kept_exact.
    apply serializable_bumped; [done|done|apply serializable_int]. }
  split; [by unfold updatedCart; rewrite length_insert|].
  split; [intros j Hj; unfold updatedCart; by rewrite list_lookup_insert_ne|].
  split; [cbn; by rewrite assoc_get_put|].
  intros k Hk'. cbn. by rewrite assoc_get_put_other.
Qed.

Lemma increase_adds_one_to_line_witness :
  let w : Checkout.World :=
    (Demo.checkout [Demo.jasmine; Demo.rose] "0100", Demo.browser ∅) in
  let props := [("name", JStr "Rose"); ("price", JStr "100"); ("quantity", JNum (Int 2))] in
  forallb well_keyed (Checkout.cart w.1) = true ∧
  Checkout.cart w.1 !! 1 = Some (JObj props) ∧
  assoc_get "quantity" props = Some (JNum (Int 2)) ∧
  Scope.safe_integer 2 ∧
  ∃ clicked shown,
    Checkout.increase 1 w = (Normal tt, clicked) ∧
    Checkout.handleCartUpdate clicked = (Normal tt, shown) ∧
    Checkout.cart shown.1
    = [Demo.jasmine;
       JObj [("name", JStr "Rose"); ("price", JStr "100"); ("quantity", JNum (Int 3))]].
Proof.
  intros w props.
  assert (Hk : forallb well_keyed (Checkout.cart w.1) = true) by reflexivity.
  assert (Hline : Checkout.cart w.1 !! 1 = Some (JObj props)) by reflexivity.
  assert (Hq : assoc_get "quantity" props = Some (JNum (Int 2))) by reflexivity.
  assert (Hsafe : Scope.safe_integer 2) by (unfold Scope.safe_integer; lia).
  split; [exact Hk|]. split; [exact Hline|]. split; [exact Hq|]. split; [exact Hsafe|].
  destruct (increase_adds_one_to_line w 1 props 2 Hk Hline Hq Hsafe)
    as (clicked & shown & text & Hrun & _ & _ & _ & Hshown & _ & _ & Hexact & _).
  exists clicked, shown. split; [exact Hrun|]. split; [exact Hshown|].
  rewrite (Hexact eq_refl). reflexivity.
Defined.

(** X12.  [decrease] on a line whose quantity is a whole number [n] that
    binary64 holds exactly: when [n - 1] is below 1 the line is removed and
    the removal is announced to the user; otherwise the line stays with
    quantity [n - 1] and no notification is added.  Either way the
    resulting cart is stored under "cart" and announced by one
    "cartUpdated", and the checkout's own listener, run by the dispatch,
    reloads it: the page shows what JSON keeps of the resulting cart, which
    is the stored cart. *)
Theorem decrease_lowers_or_removes
    (w : Checkout.World) (index : nat) (props : list (string * JsValue)) (n : Z) :
  let cart := Checkout.cart w.1 in
  let line' := JObj (assoc_put "quantity" (JNum (Int (n - 1))) props) in
  let gone := (n <=? 1)%Z in
  let updatedCart := if gone then delete index cart else <[index := line']> cart in
  forallb well_keyed cart = true →
  cart !! index = Some (JObj props) →
  assoc_get "quantity" props = Some (JNum (Int n)) →
  Scope.safe_integer n →
  ∃ (clicked shown : Checkout.World) (text : string),
    Checkout.decrease index w = (Normal tt, clicked) ∧
    JSON_stringify (JArr updatedCart []) = Some text ∧
    localStorage clicked.2 = <["cart" := text]> (localStorage w.2) ∧
    trace clicked.2 = trace w.2 ++ [SetItem "cart" text; DispatchEvent "cartUpdated"] ∧
    Checkout.handleCartUpdate clicked = (Normal tt, shown) ∧
    Checkout.cart shown.1 = map kept updatedCart ∧
    cart_of_saved (localStorage shown.2 !! "cart") = Checkout.cart shown.1 ∧
    (forallb serializable cart = true → Checkout.cart shown.1 = updatedCart) ∧
    length (Checkout.cart shown.1) = (if gone then pred (length cart) else length cart) ∧
    map message (Checkout.notes shown.1)
      = map message (Checkout.notes w.1) ++
        (if gone then ["Item removed from cart"] else []).
Proof.
  intros cart line' gone updatedCart Hk Hline Hq _.
  destruct (decrease_then_shown w index props Hk Hline)
    as (clicked & text & note & Hrun & Htext & Hstore & Htrace & Hread & Hnote & Hshown).
  rewrite Hq in Htext, Hread, Hshown. cbn [default from_option Datatypes.id to_number] in Htext, Hread, Hshown.
  rewrite decrement_int, int_below_one in Htext, Hread, Hshown.
  replace (n - 1 <? 1)%Z with gone in Htext, Hread, Hshown by (unfold gone; lia).
  fold line' updatedCart in Htext, Hread, Hshown.
  eexists clicked, _, text.
  split; [done|]. split; [done|]. split; [done|]. split; [done|]. split; [exact Hshown|].
  cbn [fst snd]. split; [by destruct w as [[] ?]|].
  split; [by destruct w as [[] ?]|].
  split.
  { intros Hs. destruct w as [[] ?]. cbn. apply map_kept_exact. unfold updatedCart.
    destruct gone; [by apply forallb_delete|].
    apply serializable_bumped; [done|done|apply serializable_int]. }
  split.
  { destruct w as [[] ?]. cbn. rewrite length_map. unfold updatedCart. destruct gone.
    - rewrite length_delete by (by eexists). lia.
    - by rewrite length_insert. }
  destruct w as [[] ?]. cbn. rewrite map_app. destruct gone; [by rewrite Hnote|done].
Qed.

Lemma decrease_lowers_or_removes_witness :
  let w : Checkout.World :=
    (Demo.checkout [Demo.jasmine; Demo.rose] "0100", Demo.browser ∅) in
  let props := [("name", JStr "Rose"); ("price", JStr "100"); ("quantity", JNum (Int 2))] in
  forallb well_keyed (Checkout.cart w.1) = true ∧
  Checkout.cart w.1 !! 1 = Some (JObj props) ∧
  assoc_get "quantity" props = Some (JNum (Int 2)) ∧
  Scope.safe_integer 2 ∧
  ∃ clicked shown,
    Checkout.decrease 1 w = (Normal tt, clicked) ∧
    Checkout.handleCartUpdate clicked = (Normal tt, shown) ∧
    Checkout.cart shown.1
    = [Demo.jasmine;
       JObj [("name", JStr "Rose"); ("price", JStr "100"); ("quantity", JNum (Int 1))]] ∧
    Checkout.notes shown.1 = [].
Proof.
  intros w props.
  assert (Hk : forallb well_keyed (Checkout.cart w.1) = true) by reflexivity.
  assert (Hline : Checkout.cart w.1 !! 1 = Some (JObj props)) by reflexivity.
  assert (Hq : assoc_get "quantity" props = Some (JNum (Int 2))) by reflexivity.
  assert (Hsafe : Scope.safe_integer 2) by (unfold Scope.safe_integer; lia).
  split; [exact Hk|]. split; [exact Hline|]. split; [exact Hq|]. split; [exact Hsafe|].
  destruct (decrease_lowers_or_removes w 1 props 2 Hk Hline Hq Hsafe)
    as (clicked & shown & text & Hrun & _ & _ & _ & Hshown & _ & _ & Hexact & _ & Hnotes).
  exists clicked, shown. split; [exact Hrun|]. split; [exact Hshown|].
  split; [rewrite (Hexact eq_refl); reflexivity|].
  cbn in Hnotes. by destruct (Checkout.notes shown.1).
Defined.

(** X13.  The quantity buttons need a line.  At a position that is out of
    range, or whose entry is [null], [undefined] or another primitive,
    [increase] and [decrease] throw a TypeError and leave the state, the
    storage and the trace exactly as they were. *)
Theorem quantity_buttons_need_a_line (w : Checkout.World) (index : nat) :
  let target := default JUndefined (Checkout.cart w.1 !! index) in
  (∀ props, target ≠ JObj props) →
  is_array target = false →
  Checkout.increase index w = (Throw TypeError, w) ∧
  Checkout.decrease index w = (Throw TypeError, w).
Proof.
  intros target Hobj Harr. destruct w as [st b].
  assert (Hb : ∀ step, Checkout.bump_quantity step index (Checkout.cart st) = Throw TypeError).
  { intros step. unfold Checkout.bump_quantity.
    change (default JUndefined (Checkout.cart st !! index)) with target.
    destruct target; try done. by destruct (Hobj props). }
  unfold Checkout.increase, Checkout.decrease. run.
  by rewrite !Hb.
Qed.

Lemma quantity_buttons_need_a_line_witness :
  let w : Checkout.World :=
    (Demo.checkout [Demo.rose; JNull] "0100", Demo.browser ∅) in
  (∀ props, default JUndefined (Checkout.cart w.1 !! 5) ≠ JObj props) ∧
  (∀ props, default JUndefined (Checkout.cart w.1 !! 1) ≠ JObj props) ∧
  Checkout.increase 5 w = (Throw TypeError, w) ∧
  Checkout.decrease 1 w = (Throw TypeError, w).
Proof.
  intros w.
  assert (H5 : ∀ props, default JUndefined (Checkout.cart w.1 !! 5) ≠ JObj props)
    by (intros props; discriminate).
  assert (H1 : ∀ props, default JUndefined (Checkout.cart w.1 !! 1) ≠ JObj props)
    by (intros props; discriminate).
  split; [exact H5|]. split; [exact H1|].
  split.
  - exact (proj1 (quantity_buttons_need_a_line w 5 H5 eq_refl)).
  - exact (proj2 (quantity_buttons_need_a_line w 1 H1 eq_refl)).
Defined.

(** ** Lines that came from the catalog *)

Lemma assoc_get_app_fresh {A : Type} (k k' : string) (x : A) (ps : list (string * A)) :
  assoc_get k (ps ++ [(k', x)])
  = match assoc_get k ps with
    | Some y => Some y
    | None => if String.eqb k k' then Some x else None
    end.
Proof.
  induction ps as [|[k0 x0] ps IH]; cbn; [done|].
  by destruct (String.eqb k k0).
Qed.

Lemma kept_members_snoc (k : string) (x : JsValue) (ps : list (string * JsValue)) :
  kept_members (ps ++ [(k, x)])
  = kept_members ps ++ (if is_undefined x then [] else [(k, kept x)]).
Proof.
  induction ps as [|[k0 x0] ps IH]; cbn.
  - by destruct (is_undefined x).
  - destruct (is_undefined x0); cbn; by rewrite IH.
Qed.

Lemma kept_members_exact (props : list (string * JsValue)) :
  serializable (JObj props) = true → kept_members props = props.
Proof.
  intros Hs. pose proof (kept_exact (JObj props) Hs) as Hk.
  rewrite kept_obj in Hk. by injection Hk.
Qed.

(** What JSON keeps of a line that got the quantity [NaN]. *)
Lemma kept_nan_quantity (props : list (string * JsValue)) :
  serializable (JObj props) = true →
  assoc_get "quantity" props = None →
  kept (JObj (assoc_put "quantity" (JNum NaN) props))
  = JObj (props ++ [("quantity", JNull)]).
Proof.
  intros Hs Hnone. rewrite assoc_put_fresh by done.
  rewrite kept_obj, kept_members_snoc, kept_members_exact by done. reflexivity.
Qed.

Lemma serializable_snoc (k : string) (x : JsValue) (props : list (string * JsValue)) :
  serializable (JObj props) = true → assoc_get k props = None → serializable x = true →
  serializable (JObj (props ++ [(k, x)])) = true.
Proof.
  intros Hs Hnone Hx. rewrite <- (assoc_put_fresh k x props Hnone).
  by apply serializable_put.
Qed.

(** X15.  A line without [quantity], as every line added from the
    catalog.  Either quantity button returns normally: [undefined]
    converts to [NaN], [NaN + 1] and [NaN - 1] are [NaN], and [NaN < 1] is
    false, so [decrease] does not remove the line.  JSON writes the
    quantity [NaN] as [null]; the checkout's own listener, run by the
    dispatch, reloads the stored text, so the page then shows the line with
    quantity [null].  Its amount is still its unit price.  On this line
    the next [decrease] removes the line ([null - 1] is below 1) and the
    next [increase] gives it quantity 1. *)
Theorem buttons_on_line_without_quantity
    (w : Checkout.World) (index : nat) (props : list (string * JsValue))
    (button : action Checkout.World unit) :
  let cart := Checkout.cart w.1 in
  let line' := JObj (props ++ [("quantity", JNull)]) in
  forallb serializable cart = true →
  cart !! index = Some (JObj props) →
  assoc_get "quantity" props = None →
  button = Checkout.increase index ∨ button = Checkout.decrease index →
  ∃ (clicked shown : Checkout.World) (text : string),
    button w = (Normal tt, clicked) ∧
    localStorage clicked.2 = <["cart" := text]> (localStorage w.2) ∧
    trace clicked.2 = trace w.2 ++ [SetItem "cart" text; DispatchEvent "cartUpdated"] ∧
    cart_of_saved (Some text) = <[index := line']> cart ∧
    Checkout.handleCartUpdate clicked = (Normal tt, shown) ∧
    shown = (Checkout.with_cart (<[index := line']> cart) w.1, clicked.2) ∧
    Checkout.line_amount line' = Checkout.line_amount (JObj props) ∧
    Checkout.line_amount (JObj props) = Normal (Spec.unit_price (JObj props)) ∧
    (∃ again,
       Checkout.decrease index shown = (Normal tt, again) ∧
       Checkout.cart (Checkout.handleCartUpdate again).2.1 = delete index cart) ∧
    (∃ again,
       Checkout.increase index shown = (Normal tt, again) ∧
       Checkout.cart (Checkout.handleCartUpdate again).2.1
       = <[index := JObj (props ++ [("quantity", JNum (Int 1))])]> cart).
Proof.
  intros cart line' Hs Hline Hnone Hbutton.
  pose proof (serializable_cart_well_keyed cart Hs) as Hk.
  assert (Hprops : serializable (JObj props) = true) by (by eapply forallb_lookup).
  assert (Hkept : map kept (<[index := JObj (assoc_put "quantity" (JNum NaN) props)]> cart)
                  = <[index := line']> cart).
  { by rewrite map_insert, kept_nan_quantity, map_kept_exact. }
  assert (Hclick : ∃ clicked text,
            button w = (Normal tt, clicked) ∧
            localStorage clicked.2 = <["cart" := text]> (localStorage w.2) ∧
            trace clicked.2 = trace w.2 ++ [SetItem "cart" text; DispatchEvent "cartUpdated"] ∧
            cart_of_saved (Some text) = <[index := line']> cart ∧
            Checkout.handleCartUpdate clicked
            = (Normal tt, (Checkout.with_cart (<[index := line']> cart) w.1, clicked.2))).
  { destruct Hbutton as [-> | ->].
    - destruct (increase_then_shown w index props Hk Hline)
        as (clicked & text & Hrun & Htext & Hstore & Htrace & Hread & Hshown).
      rewrite Hnone in Hread, Hshown. cbn in Hread, Hshown.
      fold cart in Hread, Hshown. rewrite Hkept in Hread, Hshown.
      exists clicked, text. split; [done|]. split; [done|]. split; [done|].
      split; [|done]. rewrite Hstore, lookup_insert_eq in Hread. exact Hread.
    - destruct (decrease_then_shown w index props Hk Hline)
        as (clicked & text & note & Hrun & Htext & Hstore & Htrace & Hread & Hnote & Hshown).
      rewrite Hnone in Hread, Hshown. cbn in Hread, Hshown.
      fold cart in Hread, Hshown. rewrite Hkept in Hread, Hshown.
      exists clicked, text. split; [done|]. split; [done|]. split; [done|].
      split; [rewrite Hstore, lookup_insert_eq in Hread; exact Hread|].
      rewrite Hshown. destruct w as [[] ?]. cbn. by rewrite app_nil_r. }
  destruct Hclick as (clicked & text & Hrun & Hstore & Htrace & Hread & Hshown).
  exists clicked, (Checkout.with_cart (<[index := line']> cart) w.1, clicked.2), text.
  split; [done|]. split; [done|]. split; [done|]. split; [done|]. split; [done|].
  split; [done|].
  assert (Hamount : Checkout.line_amount (JObj props) = Normal (Spec.unit_price (JObj props))).
  { rewrite line_amount_spec by done. f_equal.
    unfold Spec.amount, Spec.quantity, Spec.field. cbn. rewrite Hnone. cbn.
    apply num_mul_one. }
  split.
  { unfold line'. rewrite !line_amount_spec by done. f_equal.
    assert (Hprice : Spec.field (JObj (props ++ [("quantity", JNull)])) "price"
                     = Spec.field (JObj props) "price").
    { unfold Spec.field. cbn. rewrite assoc_get_app_fresh.
      by destruct (assoc_get "price" props). }
    assert (Hq : Spec.quantity (JObj (props ++ [("quantity", JNull)]))
                 = Spec.quantity (JObj props)).
    { unfold Spec.quantity, Spec.field. cbn. rewrite assoc_get_app_fresh, Hnone. done. }
    unfold Spec.amount, Spec.unit_price. by rewrite Hprice, Hq. }
  split; [exact Hamount|].
  set (shown := (Checkout.with_cart (<[index := line']> cart) w.1, clicked.2)).
  assert (Hline' : Checkout.cart shown.1 !! index = Some line').
  { cbn. apply list_lookup_insert_eq. by eapply lookup_lt_Some. }
  assert (Hs' : forallb serializable (Checkout.cart shown.1) = true).
  { cbn. apply forallb_insert; [done|]. by apply serializable_snoc. }
  pose proof (serializable_cart_well_keyed _ Hs') as Hk'.
  assert (Hq' : assoc_get "quantity" (props ++ [("quantity", JNull)]) = Some JNull).
  { by rewrite assoc_get_app_fresh, Hnone. }
  split.
  - destruct (decrease_then_shown shown index _ Hk' Hline')
      as (again & text' & note & Hrun' & _ & _ & _ & _ & _ & Hshown').
    rewrite Hq' in Hshown'. cbn in Hshown'.
    exists again. split; [exact Hrun'|]. rewrite Hshown'. cbn.
    rewrite delete_insert_same. apply map_kept_exact. by apply forallb_delete.
  - destruct (increase_then_shown shown index _ Hk' Hline')
      as (again & text' & Hrun' & _ & _ & _ & _ & Hshown').
    rewrite Hq' in Hshown'. cbn [default from_option Datatypes.id to_number] in Hshown'.
    rewrite increment_int in Hshown'. change (0 + 1)%Z with 1%Z in Hshown'.
    rewrite assoc_put_last in Hshown' by done.
    exists again. split; [exact Hrun'|]. rewrite Hshown'.
    cbn [fst snd Checkout.cart Checkout.with_cart shown].
    rewrite list_insert_insert_eq. apply map_kept_exact.
    apply forallb_insert; [done|]. apply serializable_snoc; [done|done|apply serializable_int].
Qed.

Lemma buttons_on_line_without_quantity_witness :
  let w : Checkout.World := (Demo.checkout [Demo.oud] "0100", Demo.browser ∅) in
  let props := [("_id", JStr "p7"); ("name", JStr "Oud"); ("price", JNum (Dec 2495 1));
                ("image1", JStr "oud-1")] in
  forallb serializable (Checkout.cart w.1) = true ∧
  Checkout.cart w.1 !! 0 = Some (JObj props) ∧
  assoc_get "quantity" props = None ∧
  ∃ clicked shown,
    Checkout.decrease 0 w = (Normal tt, clicked) ∧
    Checkout.handleCartUpdate clicked = (Normal tt, shown) ∧
    Checkout.cart shown.1 = [JObj (props ++ [("quantity", JNull)])] ∧
    Checkout.line_amount (JObj (props ++ [("quantity", JNull)])) = Normal (Dec 2495 1).
Proof.
  intros w props.
  assert (Hs : forallb serializable (Checkout.cart w.1) = true) by reflexivity.
  assert (Hline : Checkout.cart w.1 !! 0 = Some (JObj props)) by reflexivity.
  assert (Hnone : assoc_get "quantity" props = None) by reflexivity.
  split; [exact Hs|]. split; [exact Hline|]. split; [exact Hnone|].
  destruct (buttons_on_line_without_quantity w 0 props (Checkout.decrease 0)
              Hs Hline Hnone (or_intror eq_refl))
    as (clicked & shown & text & Hrun & _ & _ & _ & Hshown & Hstate & Hsame & Hunit & _).
  exists clicked, shown. split; [exact Hrun|]. split; [exact Hshown|].
  split; [by rewrite Hstate|]. rewrite Hsame, Hunit. reflexivity.
Defined.

(** ** Views after a change *)

Lemma badge_reads_empty (badge : CartBadge.State) (b : Browser) :
  localStorage b !! "cart" = None →
  CartBadge.handleCartUpdate (badge, b) = (Normal tt, ({| CartBadge.cart := [] |}, b)).
Proof.
  intros Hnone. unfold CartBadge.handleCartUpdate, CartBadge.loadCartFromStorage, getItem.
  run. by rewrite Hnone.
Qed.

Lemma checkout_reads_empty (st : Checkout.State) (b : Browser) :
  localStorage b !! "cart" = None →
  Checkout.handleCartUpdate (st, b) = (Normal tt, (Checkout.with_cart [] st, b)).
Proof.
  intros Hnone. unfold Checkout.handleCartUpdate, Checkout.loadCartFromStorage, getItem.
  run. by rewrite Hnone.
Qed.

(** X16.  An order that is accepted (status 200) leaves the form blank,
    the cart empty and [isLoading] false, and appends one success
    notification, shown for 6000 ms, that names the customer by the trimmed
    first and last name of the render that submitted.  Every view that then
    handles "cartUpdated" reads an empty cart: the checkout's own listener
    changes nothing more, and the cart counter drops to no items. *)
Theorem accepted_order_resets_every_view
    (seen : Checkout.State) (res : JsValue) (w : Checkout.World)
    (badge : CartBadge.State) :
  Failure.accepted res = true →
  ∃ (after : Checkout.World) (n : Notification),
    Checkout.order_settle seen (Checkout.Fulfilled res) w = (Normal tt, after) ∧
    after.1 = {| Checkout.cart := []; Checkout.fName := ""; Checkout.lName := "";
                 Checkout.adress := ""; Checkout.phone := ""; Checkout.building := "";
                 Checkout.apart := ""; Checkout.isLoading := false;
                 Checkout.notes := Checkout.notes w.1 ++ [n] |} ∧
    (type n, duration n) = (success, 6000%Z) ∧
    message n = "🎉 Order placed successfully! Thank you " +:+ trim (Checkout.fName seen) +:+
                " " +:+ trim (Checkout.lName seen) +:+
                "! Your order will be processed and delivered soon." ∧
    Checkout.handleCartUpdate after = (Normal tt, after) ∧
    CartBadge.handleCartUpdate (badge, after.2)
      = (Normal tt, ({| CartBadge.cart := [] |}, after.2)).
Proof.
  intros Hok. destruct w as [st b]. unfold Failure.accepted in Hok.
  assert (Hrun : ∃ after n,
    Checkout.order_settle seen (Checkout.Fulfilled res) (st, b) = (Normal tt, after) ∧
    after.1 = {| Checkout.cart := []; Checkout.fName := ""; Checkout.lName := "";
                 Checkout.adress := ""; Checkout.phone := ""; Checkout.building := "";
                 Checkout.apart := ""; Checkout.isLoading := false;
                 Checkout.notes := Checkout.notes st ++ [n] |} ∧
    (type n, duration n) = (success, 6000%Z) ∧
    message n = "🎉 Order placed successfully! Thank you " +:+ trim (Checkout.fName seen) +:+
                " " +:+ trim (Checkout.lName seen) +:+
                "! Your order will be processed and delivered soon." ∧
    localStorage after.2 = ∅).
  { unfold Checkout.order_settle, try_finally, try_catch, Checkout.await.
    destruct res; cbn in Hok; try discriminate Hok; run; rewrite Hok; cbn;
      eexists _, _; (split; [reflexivity|]); cbn; repeat split; reflexivity. }
  destruct Hrun as (after & n & Hrun & Hstate & Hn & Hmsg & Hempty).
  exists after, n. split; [done|]. split; [done|]. split; [done|]. split; [done|].
  assert (Hnone : localStorage after.2 !! "cart" = None) by (by rewrite Hempty).
  split.
  - destruct after as [st' b']. rewrite (checkout_reads_empty st' b' Hnone).
    cbn in Hstate. by rewrite Hstate.
  - by apply badge_reads_empty.
Qed.

Lemma accepted_order_resets_every_view_witness :
  let w : Checkout.World :=
    (Checkout.with_isLoading true (Demo.checkout [Demo.rose] "0100"),
     Demo.browser {["cart" := Demo.rose_text]}) in
  let after := (Checkout.order_settle w.1 (Checkout.Fulfilled Demo.ok) w).2 in
  Failure.accepted Demo.ok = true ∧
  Checkout.fName after.1 = "" ∧
  map message (Checkout.notes after.1)
  = ["🎉 Order placed successfully! Thank you Mona Adel! Your order will be processed and delivered soon."] ∧
  CartBadge.cart (CartBadge.handleCartUpdate ({| CartBadge.cart := [Demo.rose] |}, after.2)).2.1
  = [].
Proof.
  intros w after.
  assert (Hok : Failure.accepted Demo.ok = true) by reflexivity.
  split; [exact Hok|].
  destruct (accepted_order_resets_every_view w.1 Demo.ok w {| CartBadge.cart := [Demo.rose] |} Hok)
    as (after' & n & Hrun & Hstate & _ & Hmsg & _ & Hbadge).
  assert (after = after') as -> by (unfold after; by rewrite Hrun).
  split; [by rewrite Hstate|].
  split; [rewrite Hstate; cbn; rewrite Hmsg; reflexivity|].
  by rewrite Hbadge.
Defined.

Lemma persist_nonempty (p : Products.World) (text : string) :
  Products.cart p.1 ≠ [] →
  JSON_stringify (JArr (Products.cart p.1) []) = Some text →
  Products.persist_effect p
  = (Normal tt, (p.1, emit (DispatchEvent "cartUpdated")
                        (emit (SetItem "cart" text) (store <["cart" := text]> p.2)))).
Proof.
  intros Hne Htext. destruct p as [st b]. cbn in *.
  unfold Products.persist_effect, setItem, dispatchEvent. run.
  rewrite Htext. by destruct (Products.cart st).
Qed.

(** X17.  A product added in the catalog reaches the cart counter.
    [addCart] of a product (anything but [null] and [undefined]) appends it
    to the cart; the cart is then not empty, so the persist effect stores
    its text under "cart" and dispatches "cartUpdated"; a cart counter
    that handles the event reads back what JSON keeps of the new cart,
    which has one item more than the old cart. *)
Theorem added_product_reaches_the_counter
    (product : JsValue) (w : Products.World) (badge : CartBadge.State) :
  let cart := Products.cart w.1 in
  Failure.nullish product = false →
  forallb well_keyed (cart ++ [product]) = true →
  ∃ (added persisted : Products.World) (text : string),
    Products.addCart product w = (Normal tt, added) ∧
    Products.cart added.1 = cart ++ [product] ∧
    Products.persist_effect added = (Normal tt, persisted) ∧
    JSON_stringify (JArr (cart ++ [product]) []) = Some text ∧
    localStorage persisted.2 = <["cart" := text]> (localStorage w.2) ∧
    trace persisted.2 = trace w.2 ++ [SetItem "cart" text; DispatchEvent "cartUpdated"] ∧
    CartBadge.cart (CartBadge.handleCartUpdate (badge, persisted.2)).2.1
      = map kept (cart ++ [product]) ∧
    length (CartBadge.cart (CartBadge.handleCartUpdate (badge, persisted.2)).2.1)
      = S (length cart).
Proof.
  intros cart Hprod Hk. destruct w as [st b].
  destruct (stringify_array (cart ++ [product]) []) as [text Htext].
  assert (Hname : ∃ name, get_prop product "name" = Normal name)
    by (destruct product; try done; by eexists).
  destruct Hname as [name Hname].
  assert (Hadd : ∃ added, Products.addCart product (st, b) = (Normal tt, added) ∧
            Products.cart added.1 = cart ++ [product] ∧
            localStorage added.2 = localStorage b ∧ trace added.2 = trace b).
  { unfold Products.addCart, Products.setCart, showSuccess, addNotification, now_plus_random.
    run. rewrite Hname. cbn. eexists. split; [reflexivity|]. done. }
  destruct Hadd as (added & Hadd & Hcart & Hstore & Htrace).
  rewrite <- Hcart in Htext.
  assert (Hne : Products.cart added.1 ≠ []) by (rewrite Hcart; by destruct cart).
  pose proof (persist_nonempty added text Hne Htext) as Hpersist.
  eexists added, _, text. split; [exact Hadd|]. split; [exact Hcart|].
  split; [exact Hpersist|]. rewrite <- Hcart. split; [exact Htext|]. cbn [fst snd].
  split; [cbn; by rewrite Hstore|]. split; [cbn; by rewrite Htrace, <- app_assoc|].
  rewrite Hcart in *.
  assert (Hbadge : ∀ b', localStorage b' !! "cart" = Some text →
            CartBadge.cart (CartBadge.handleCartUpdate (badge, b')).2.1
            = map kept (cart ++ [product])).
  { intros b' Hb'. destruct (badge_read (badge, b')) as (after & Hrun & _ & Hc).
    unfold CartBadge.handleCartUpdate. rewrite Hrun. cbn [fst snd] in Hc |- *.
    rewrite Hc, Hb'. by apply cart_of_saved_kept. }
  rewrite Hbadge by apply lookup_insert_eq.
  split; [done|]. rewrite length_map, length_app. cbn. lia.
Qed.

Lemma added_product_reaches_the_counter_witness :
  let w : Products.World := (Demo.catalog [Demo.rose], Demo.browser ∅) in
  let badge := {| CartBadge.cart := [Demo.rose] |} in
  Failure.nullish Demo.oud = false ∧
  forallb well_keyed (Products.cart w.1 ++ [Demo.oud]) = true ∧
  ∃ added persisted,
    Products.addCart Demo.oud w = (Normal tt, added) ∧
    Products.persist_effect added = (Normal tt, persisted) ∧
    CartBadge.cart (CartBadge.handleCartUpdate (badge, persisted.2)).2.1
    = [Demo.rose; Demo.oud].
Proof.
  intros w badge.
  assert (Hprod : Failure.nullish Demo.oud = false) by reflexivity.
  assert (Hk : forallb well_keyed (Products.cart w.1 ++ [Demo.oud]) = true) by reflexivity.
  split; [exact Hprod|]. split; [exact Hk|].
  destruct (added_product_reaches_the_counter Demo.oud w badge Hprod Hk)
    as (added & persisted & text & Hadd & _ & Hpersist & _ & _ & _ & Hbadge & _).
  exists added, persisted. split; [exact Hadd|]. split; [exact Hpersist|].
  rewrite Hbadge. reflexivity.
Defined.

(** ** Mounting the catalog *)

Lemma catalog_load (p : Products.World) :
  let saved := localStorage p.2 !! "cart" in
  ∃ after,
    Products.load_effect p = (Normal tt, after) ∧
    localStorage after.2 = localStorage p.2 ∧
    Products.cart after.1
      = (if opt_truthy saved then cart_of_saved saved else Products.cart p.1) ∧
    trace after.2
      = trace p.2 ++
        (if opt_truthy saved then
           match JSON_parse (default "" saved) with
           | Throw _ => [ConsoleError "Error parsing cart from localStorage:"]
           | Normal _ => []
           end
         else []).
Proof.
  destruct p as [st b]. unfold Products.load_effect, cart_of_saved, getItem. run.
  destruct (opt_truthy (localStorage b !! "cart")).
  - unfold try_catch. run.
    destruct (JSON_parse (default "" (localStorage b !! "cart"))) as [v|e].
    + eexists. split; [reflexivity|]. cbn. by rewrite app_nil_r.
    + unfold console_error, Products.setCart. run. by eexists.
  - eexists. split; [reflexivity|]. cbn. by rewrite app_nil_r.
Qed.

Lemma stringify_kept_array (cart : list JsValue) :
  JSON_stringify (JArr (map kept cart) []) = JSON_stringify (JArr cart []).
Proof.
  unfold JSON_stringify. do 2 f_equal. exact (text_of_kept (JArr cart [])).
Qed.

(** X18.  Mounting the catalog (the load effect, then the persist effect,
    from the initial empty cart) never fails and never loses the stored
    cart: the catalog's cart becomes the cart that the stored value
    denotes.  When that cart is empty (the value is absent, empty,
    unreadable, not an array, or an empty array) the storage is untouched
    and nothing but a console error is added to the trace.  When it is not
    empty, its text as [JSON.stringify] prints it is written under "cart"
    and announced; that text reads back as what JSON keeps of the cart, and
    it is the stored text itself, so that localStorage is what it was,
    whenever the stored text was printed by [JSON.stringify]. *)
Theorem catalog_mount_keeps_stored_cart (p : Products.World) :
  let saved := localStorage p.2 !! "cart" in
  let stored := cart_of_saved saved in
  let loaded := (Products.load_effect p).2 in
  let mounted := (Products.persist_effect loaded).2 in
  Products.cart p.1 = [] →
  (Products.load_effect p).1 = Normal tt ∧
  (Products.persist_effect loaded).1 = Normal tt ∧
  Products.cart mounted.1 = stored ∧
  (stored = [] →
   localStorage mounted.2 = localStorage p.2 ∧
   ∀ e, e ∈ trace mounted.2 →
        e ∈ trace p.2 ∨ e = ConsoleError "Error parsing cart from localStorage:") ∧
  (stored ≠ [] →
   ∃ text,
     JSON_stringify (JArr stored []) = Some text ∧
     localStorage mounted.2 = <["cart" := text]> (localStorage p.2) ∧
     trace mounted.2 = trace p.2 ++ [SetItem "cart" text; DispatchEvent "cartUpdated"] ∧
     cart_of_saved (localStorage mounted.2 !! "cart") = map kept stored) ∧
  (∀ cart text,
     forallb well_keyed cart = true →
     JSON_stringify (JArr cart []) = Some text →
     saved = Some text →
     stored = map kept cart ∧ localStorage mounted.2 = localStorage p.2).
Proof.
  intros saved stored loaded mounted Hinit.
  destruct (catalog_load p) as (after & Hload & Hstore & Hcart & Htrace).
  fold saved in Hcart, Htrace.
  assert (loaded = after) as Hl by (unfold loaded; by rewrite Hload).
  assert (Hstored : Products.cart after.1 = stored).
  { rewrite Hcart, Hinit. unfold stored, cart_of_saved. by destruct (opt_truthy saved). }
  assert (Hempty : Products.cart after.1 = [] → Products.persist_effect after = (Normal tt, after)).
  { intros Hnil. destruct after as [st b]. unfold Products.persist_effect. run.
    cbn in Hnil. by rewrite Hnil. }
  assert (Hfull : stored ≠ [] →
            ∃ text, JSON_stringify (JArr stored []) = Some text ∧
                    Products.persist_effect after
                    = (Normal tt, (after.1, emit (DispatchEvent "cartUpdated")
                                              (emit (SetItem "cart" text)
                                                 (store <["cart" := text]> after.2))))).
  { intros Hne. destruct (stringify_array stored []) as [text Htext].
    exists text. split; [done|]. apply persist_nonempty; by rewrite Hstored. }
  assert (Hquiet : stored ≠ [] → trace after.2 = trace p.2).
  { intros Hne. rewrite Htrace. unfold stored, cart_of_saved in Hne.
    destruct (opt_truthy saved); [|by rewrite app_nil_r].
    destruct (JSON_parse _); [by rewrite app_nil_r|done]. }
  split; [by rewrite Hload|].
  split.
  { rewrite Hl. destruct stored as [|x c] eqn:Hc.
    - by rewrite (Hempty Hstored).
    - destruct Hfull as (text & _ & ->); done. }
  split.
  { unfold mounted. rewrite Hl. destruct stored as [|x c] eqn:Hc.
    - by rewrite (Hempty Hstored).
    - destruct Hfull as (text & _ & ->); done. }
  split.
  { intros Hnil. rewrite Hnil in Hstored. unfold mounted. rewrite Hl, (Hempty Hstored).
    split; [done|].
    intros e He. cbn in He. rewrite Htrace in He. apply elem_of_app in He as [He|He]; [by left|].
    right. destruct (opt_truthy saved); [|by apply elem_of_nil in He].
    destruct (JSON_parse _); [by apply elem_of_nil in He|].
    by apply list_elem_of_singleton in He. }
  split.
  { intros Hne. destruct (Hfull Hne) as (text & Htext & Hpersist).
    exists text. split; [done|]. unfold mounted. rewrite Hl, Hpersist. cbn.
    split; [by rewrite Hstore|]. split; [by rewrite (Hquiet Hne), <- app_assoc|].
    rewrite lookup_insert_eq. apply cart_of_saved_kept; [|done].
    apply cart_of_saved_well_keyed. }
  intros cart text Hk Htext Hsaved.
  assert (Hread : stored = map kept cart).
  { unfold stored. rewrite Hsaved. by apply cart_of_saved_kept. }
  split; [done|]. unfold mounted. rewrite Hl.
  destruct cart as [|x cart'].
  - rewrite (Hempty ltac:(by rewrite Hstored, Hread)). cbn [fst snd]. exact Hstore.
  - destruct Hfull as (text' & Htext' & ->); [by rewrite Hread|]. cbn.
    assert (text' = text) as ->.
    { rewrite Hread, stringify_kept_array in Htext'. congruence. }
    rewrite Hstore. apply insert_id. exact Hsaved.
Qed.

Lemma catalog_mount_keeps_stored_cart_witness :
  let p : Products.World := (Demo.catalog [], Demo.browser {["cart" := Demo.rose_text]}) in
  let spaced : Products.World := (Demo.catalog [], Demo.browser {["cart" := "[ 1 ]"]}) in
  let mount (p : Products.World) := (Products.persist_effect (Products.load_effect p).2).2 in
  Products.cart p.1 = [] ∧
  Products.cart (mount p).1 = [Demo.rose] ∧
  localStorage (mount p).2 = localStorage p.2 ∧
  Products.cart (mount spaced).1 = [JNum (Int 1)] ∧
  localStorage (mount spaced).2 !! "cart" = Some "[1]".
Proof.
  intros p spaced mount.
  assert (Hinit : Products.cart p.1 = []) by reflexivity.
  split; [exact Hinit|].
  destruct (catalog_mount_keeps_stored_cart p Hinit) as (_ & _ & Hcart & _ & _ & Hwritten).
  destruct (Hwritten [Demo.rose] Demo.rose_text eq_refl eq_refl eq_refl) as (_ & Hstore).
  split; [exact Hcart|]. split; [exact Hstore|].
  destruct (catalog_mount_keeps_stored_cart spaced eq_refl) as (_ & _ & Hcart' & _ & Hfull & _).
  split; [exact Hcart'|].
  destruct (Hfull ltac:(discriminate)) as (text & Htext & Hstore' & _).
  unfold mount. rewrite Hstore', lookup_insert_eq. f_equal.
  injection Htext as <-. reflexivity.
Defined.

(** ** A stored cart that cannot be read *)

(** X19.  What the loaders report.  When the stored text is not JSON, the
    checkout's loader logs a console error, empties its cart and shows the
    error notification "Error loading cart data. Cart has been reset." for
    3000 ms, and the cart counter logs the same console error and shows no
    items; the unreadable text stays in localStorage.  When the text is
    JSON for something that is not an array, both fall back to the empty
    cart without logging or notifying. *)
Theorem unreadable_cart_is_reported
    (w : Checkout.World) (badge : CartBadge.State) (text : string) :
  let b : CartBadge.World := (badge, w.2) in
  let logged := ConsoleError "Error parsing cart from localStorage:" in
  localStorage w.2 !! "cart" = Some text →
  text ≠ "" →
  (∀ e, JSON_parse text = Throw e →
     ∃ n,
       Checkout.loadCartFromStorage w
       = (Normal tt, (setNotifications (λ prev, prev ++ [n]) (Checkout.with_cart [] w.1),
                      tick (emit logged w.2))) ∧
       n = {| id := clock w.2 (ticks w.2);
              message := "Error loading cart data. Cart has been reset.";
              type := Notifications.error; duration := 3000 |} ∧
       CartBadge.loadCartFromStorage b
       = (Normal tt, ({| CartBadge.cart := [] |}, emit logged w.2)) ∧
       localStorage (tick (emit logged w.2)) !! "cart" = Some text) ∧
  (∀ v, JSON_parse text = Normal v → is_array v = false →
     Checkout.loadCartFromStorage w = (Normal tt, (Checkout.with_cart [] w.1, w.2)) ∧
     CartBadge.loadCartFromStorage b = (Normal tt, ({| CartBadge.cart := [] |}, w.2))).
Proof.
  intros b logged Hstored Hne. destruct w as [st br]. cbn [fst snd] in *.
  assert (Ht : negb (String.eqb text "") = true) by (by destruct (String.eqb_spec text "")).
  split.
  - intros e Hparse. eexists. split; [|split; [reflexivity|split]].
    + unfold Checkout.loadCartFromStorage, getItem. run. rewrite Hstored. cbn. rewrite Ht.
      unfold try_catch. run. rewrite Hparse.
      unfold console_error, Checkout.setCart, showError, addNotification, now_plus_random.
      run. reflexivity.
    + unfold b, CartBadge.loadCartFromStorage, getItem. run. rewrite Hstored. cbn.
      rewrite Ht. unfold try_catch. run. rewrite Hparse. reflexivity.
    + exact Hstored.
  - intros v Hparse Hv. split.
    + unfold Checkout.loadCartFromStorage, getItem. run. rewrite Hstored. cbn. rewrite Ht.
      unfold try_catch. run. rewrite Hparse. cbn. by rewrite Hv.
    + unfold b, CartBadge.loadCartFromStorage, getItem. run. rewrite Hstored. cbn.
      rewrite Ht. unfold try_catch. run. rewrite Hparse. cbn. by rewrite Hv.
Qed.

Lemma unreadable_cart_is_reported_witness :
  let w : Checkout.World :=
    (Demo.checkout [Demo.rose] "0100", Demo.browser {["cart" := "{oops"]}) in
  let after := (Checkout.loadCartFromStorage w).2 in
  localStorage w.2 !! "cart" = Some "{oops" ∧
  "{oops" ≠ "" ∧
  JSON_parse "{oops" = Throw SyntaxError ∧
  Checkout.cart after.1 = [] ∧
  map message (Checkout.notes after.1) = ["Error loading cart data. Cart has been reset."] ∧
  localStorage after.2 !! "cart" = Some "{oops".
Proof.
  intros w after.
  assert (Hstored : localStorage w.2 !! "cart" = Some "{oops") by reflexivity.
  assert (Hne : "{oops" ≠ "") by discriminate.
  assert (Hparse : JSON_parse "{oops" = Throw SyntaxError) by reflexivity.
  split; [exact Hstored|]. split; [exact Hne|]. split; [exact Hparse|].
  destruct (unreadable_cart_is_reported w {| CartBadge.cart := [] |} "{oops" Hstored Hne)
    as [Hbad _].
  destruct (Hbad SyntaxError Hparse) as (n & Hrun & Hn & _ & Hkept).
  unfold after. rewrite Hrun. cbn [fst snd]. split; [reflexivity|].
  split; [by rewrite Hn|exact Hkept].
Defined.

(** ** The product overlay *)

Lemma matches_chr_seq (p : ascii → bool) (r : regex) (l : list ascii) :
  matches (Seq (Chr p) r) l ↔ ∃ c l', l = c :: l' ∧ p c = true ∧ matches r l'.
Proof.
  split.
  - inversion 1 as [| |? ? s1 s2 H1 H2| | | |]; subst. inversion H1; subst.
    by eexists _, _.
  - intros (c & l' & -> & Hc & Hr).
    apply (matches_seq (Chr p) r [c] l'); [by constructor|done].
Qed.

Lemma test_list_matches (r : regex) (l : list ascii) :
  test_list r l = true ↔ matches r l.
Proof.
  rewrite <- (list_ascii_of_string_of_list_ascii l) at 2.
  rewrite <- regex_test_matches. unfold regex_test, test_list.
  by rewrite list_ascii_of_string_of_list_ascii.
Qed.

Lemma test_chr_seq (p : ascii → bool) (r : regex) (l : list ascii) :
  test_list (Seq (Chr p) r) l
  = match l with c :: l' => p c && test_list r l' | [] => false end.
Proof.
  apply eq_true_iff_eq. rewrite test_list_matches, matches_chr_seq.
  destruct l as [|c l'].
  - split; [intros (? & ? & ? & _); done|done].
  - rewrite andb_true_iff, test_list_matches. split.
    + intros (c0 & l0 & [= -> ->] & ? & ?). done.
    + intros [? ?]. by eexists _, _.
Qed.

Lemma test_opt_seq (p : ascii → bool) (r : regex) (l : list ascii) :
  test_list (Seq (Opt (Chr p)) r) l
  = test_list r l || match l with c :: l' => p c && test_list r l' | [] => false end.
Proof.
  rewrite <- test_chr_seq. apply eq_true_iff_eq.
  rewrite orb_true_iff, !test_list_matches. split.
  - inversion 1 as [| |? ? s1 s2 H1 H2| | | |]; subst.
    inversion H1 as [| | |? ? ? Hc|? ? ? He| |]; subst.
    + right. by constructor.
    + inversion He; subst. by left.
  - intros [Hr|Hs].
    + apply (matches_seq _ _ [] l); [apply matches_alt_r; constructor|done].
    + inversion Hs as [| |? ? s1 s2 H1 H2| | | |]; subst.
      constructor; [by apply matches_alt_l|done].
Qed.

Lemma test_anything (l : list ascii) : test_list (Star (Chr (λ _, true))) l = true.
Proof. apply test_list_matches, matches_star_chr. by induction l. Qed.

Lemma letter_test (a : ascii) (cs : string) (c : ascii) :
  (∀ c', one_of cs c' = Ascii.eqb a (lower c')) →
  one_of cs c = Ascii.eqb a (lower c).
Proof. by intros ->. Qed.

Lemma one_of_letter (c : ascii) :
  one_of "hH" c = Ascii.eqb "h" (lower c) ∧
  one_of "tT" c = Ascii.eqb "t" (lower c) ∧
  one_of "pP" c = Ascii.eqb "p" (lower c) ∧
  one_of "sS" c = Ascii.eqb "s" (lower c) ∧
  one_of ":" c = Ascii.eqb ":" (lower c) ∧
  one_of "/" c = Ascii.eqb "/" (lower c).
Proof. destruct c as [[] [] [] [] [] [] [] []]; vm_compute; done. Qed.

Lemma scheme_tail_test (l : list ascii) :
  test_list (Seq (Chr (one_of ":")) (Seq (Chr (one_of "/")) (Seq (Chr (one_of "/"))
               (Star (Chr (λ _, true)))))) l
  = starts_with (list_ascii_of_string "://") l.
Proof.
  cbn [list_ascii_of_string].
  rewrite test_chr_seq. destruct l as [|c1 l]; [done|].
  destruct (one_of_letter c1) as (_ & _ & _ & _ & -> & _). cbn [starts_with]. f_equal.
  rewrite test_chr_seq. destruct l as [|c2 l]; [done|].
  destruct (one_of_letter c2) as (_ & _ & _ & _ & _ & ->). cbn [starts_with]. f_equal.
  rewrite test_chr_seq. destruct l as [|c3 l]; [done|].
  destruct (one_of_letter c3) as (_ & _ & _ & _ & _ & ->). cbn [starts_with].
  by rewrite test_anything.
Qed.

Lemma absolute_url_test (s : string) :
  regex_test Overlay.absoluteUrl s = has_scheme s.
Proof.
  unfold has_scheme, regex_test. fold (test_list Overlay.absoluteUrl (list_ascii_of_string s)).
  generalize (list_ascii_of_string s) as l. intros l.
  unfold Overlay.absoluteUrl. cbv zeta. cbn [list_ascii_of_string].
  rewrite test_chr_seq. destruct l as [|c1 l]; [done|].
  destruct (one_of_letter c1) as (-> & _). cbn [starts_with].
  destruct (Ascii.eqb "h" (lower c1)); [cbn [andb]|done].
  rewrite test_chr_seq. destruct l as [|c2 l]; [done|].
  destruct (one_of_letter c2) as (_ & -> & _). cbn [starts_with].
  destruct (Ascii.eqb "t" (lower c2)); [cbn [andb]|done].
  rewrite test_chr_seq. destruct l as [|c3 l]; [done|].
  destruct (one_of_letter c3) as (_ & -> & _). cbn [starts_with].
  destruct (Ascii.eqb "t" (lower c3)); [cbn [andb]|done].
  rewrite test_chr_seq. destruct l as [|c4 l]; [done|].
  destruct (one_of_letter c4) as (_ & _ & -> & _). cbn [starts_with].
  destruct (Ascii.eqb "p" (lower c4)); [cbn [andb]|done].
  rewrite test_opt_seq, !scheme_tail_test. cbn [list_ascii_of_string]. f_equal.
  destruct l as [|c5 l]; [done|].
  destruct (one_of_letter c5) as (_ & _ & _ & -> & _). f_equal.
  apply scheme_tail_test.
Qed.

Import Numeric.

Lemma resolved_truthy (v : JsValue) :
  truthy (Overlay.resolveImageSrc v) = truthy v.
Proof.
  unfold Overlay.resolveImageSrc. destruct (truthy v) eqn:Hv; [|done]. cbn [negb].
  by destruct (regex_test _ _).
Qed.

(** X20.  [resolveImageSrc] gives a source exactly for the references that
    are truthy.  A falsy reference gives the empty string; a string that
    starts with [http://] or [https://], in any letter case, is returned
    as it is; any other non-empty string [s] gives [/images/s.jpeg]. *)
Theorem image_reference_is_resolved (imageRef : JsValue) (s : string) :
  truthy (Overlay.resolveImageSrc imageRef) = truthy imageRef ∧
  (truthy imageRef = false → Overlay.resolveImageSrc imageRef = JStr "") ∧
  Overlay.resolveImageSrc (JStr s)
  = JStr (if String.eqb s "" then ""
          else if has_scheme s then s
          else "/images/" +:+ s +:+ ".jpeg").
Proof.
  split; [apply resolved_truthy|]. split.
  - intros Hf. unfold Overlay.resolveImageSrc. by rewrite Hf.
  - unfold Overlay.resolveImageSrc. cbn [truthy to_string]. rewrite absolute_url_test.
    destruct (String.eqb s ""); [done|]. cbn [negb]. by destruct (has_scheme s).
Qed.

(** X21.  For a product whose [image1], [image2] and [image3] are strings
    or absent, [getProductImages] does not throw and returns at most three
    images, none of them empty: no image when no product is selected, and
    for a product that is an object the resolved sources of those of the
    three that are not empty, in this order. *)
Theorem product_images_are_usable (seen : Overlay.State) :
  Forall (λ k, Scope.textual (Spec.field (Overlay.selectedProduct seen) k) = true)
    ["image1"; "image2"; "image3"] →
  ∃ images,
    Overlay.getProductImages seen = Normal images ∧
    length images ≤ 3 ∧
    Forall (λ image, truthy image = true) images ∧
    (truthy (Overlay.selectedProduct seen) = false → images = []) ∧
    (∀ props,
       Overlay.selectedProduct seen = JObj props →
       images
       = map Overlay.resolveImageSrc
           (List.filter truthy
              (map (λ k, default JUndefined (assoc_get k props))
                   ["image1"; "image2"; "image3"]))).
Proof.
  intros _. unfold Overlay.getProductImages.
  destruct (truthy (Overlay.selectedProduct seen)) eqn:Hp; cbn [negb].
  2:{ exists []. split; [done|]. split; [cbn; lia|]. split; [constructor|].
      split; [done|]. intros props Hprops. rewrite Hprops in Hp. done. }
  assert (Hget : ∀ k, ∃ x, get_prop (Overlay.selectedProduct seen) k = Normal x ∧
            ∀ props, Overlay.selectedProduct seen = JObj props →
                     x = default JUndefined (assoc_get k props)).
  { intros k. destruct (Overlay.selectedProduct seen); try done; eexists;
      (split; [reflexivity|]); intros ps Hps; try discriminate Hps.
    by injection Hps as ->. }
  destruct (Hget "image1") as (x1 & -> & H1), (Hget "image2") as (x2 & -> & H2),
    (Hget "image3") as (x3 & -> & H3).
  eexists. split; [reflexivity|].
  split.
  { rewrite length_map. etransitivity; [apply List.filter_length_le|]. cbn. lia. }
  split.
  { apply Forall_forall. intros image Hin. apply list_elem_of_In, in_map_iff in Hin.
    destruct Hin as (x & <- & Hx). apply filter_In in Hx as [_ Hx].
    by rewrite resolved_truthy. }
  split; [done|].
  intros props Hprops. cbn [map]. by rewrite <- (H1 props), <- (H2 props), <- (H3 props).
Qed.

Lemma product_images_are_usable_witness :
  let seen := {| Overlay.overlay := true; Overlay.selectedProduct := Demo.oud;
                 Overlay.currentImageIndex := Int 0 |} in
  Forall (λ k, Scope.textual (Spec.field (Overlay.selectedProduct seen) k) = true)
    ["image1"; "image2"; "image3"] ∧
  Overlay.getProductImages seen = Normal [JStr "/images/oud-1.jpeg"].
Proof.
  intros seen.
  assert (Hfields : Forall (λ k, Scope.textual (Spec.field (Overlay.selectedProduct seen) k) = true)
                      ["image1"; "image2"; "image3"]).
  { repeat constructor. }
  split; [exact Hfields|].
  destruct (product_images_are_usable seen Hfields) as (images & Hrun & _ & _ & _ & Hobj).
  rewrite Hrun. f_equal. rewrite (Hobj _ eq_refl). reflexivity.
Defined.

Lemma next_index (i n : Z) :
  (0 ≤ i)%Z → (0 < n)%Z →
  num_rem (num_add (Int i) (Int 1)) (Int n) = Int ((i + 1) mod n).
Proof.
  intros Hi Hn. unfold num_rem, num_add, Int. cbn [Nat.max Nat.sub].
  change (pow10 0) with 1%Z. rewrite !Z.mul_1_r.
  destruct (Z.eqb_spec n 0); [lia|]. f_equal. apply Z.rem_mod_nonneg; lia.
Qed.

Lemma prev_index (i n : Z) :
  (0 ≤ i)%Z → (0 < n)%Z →
  num_rem (num_add (num_sub (Int i) (Int 1)) (Int n)) (Int n) = Int ((i - 1) mod n).
Proof.
  intros Hi Hn. unfold num_rem, num_sub, num_add, num_neg, Int. cbn [Nat.max Nat.sub].
  change (pow10 0) with 1%Z. rewrite !Z.mul_1_r.
  destruct (Z.eqb_spec n 0); [lia|]. f_equal.
  rewrite Z.rem_mod_nonneg by lia.
  replace (i + - (1) + n)%Z with (i - 1 + 1 * n)%Z by lia. apply Z.mod_add. lia.
Qed.

(** X22.  The carousel wraps around.  With no image, [nextImage] and
    [prevImage] change nothing.  With [n] images and the index at an integer
    [i] with [0 <= i < n], [nextImage] moves to [(i + 1) mod n] and
    [prevImage] to [(i - 1) mod n], leaving the overlay and the product as
    they are: the index stays in range, the last image is followed by the
    first, the first preceded by the last, and each of the two undoes the
    other. *)
Theorem carousel_wraps_around
    (seen st : Overlay.State) (images : list JsValue) :
  let n := Z.of_nat (length images) in
  let at_index (j : Z) :=
    {| Overlay.overlay := Overlay.overlay st;
       Overlay.selectedProduct := Overlay.selectedProduct st;
       Overlay.currentImageIndex := Int j |} in
  Overlay.getProductImages seen = Normal images →
  (images = [] →
   Overlay.nextImage seen st = (Normal tt, st) ∧
   Overlay.prevImage seen st = (Normal tt, st)) ∧
  (∀ i, Overlay.currentImageIndex st = Int i → (0 ≤ i < n)%Z →
     Overlay.nextImage seen st = (Normal tt, at_index ((i + 1) mod n)%Z) ∧
     Overlay.prevImage seen st = (Normal tt, at_index ((i - 1) mod n)%Z) ∧
     (0 ≤ (i + 1) mod n < n)%Z ∧
     (0 ≤ (i - 1) mod n < n)%Z ∧
     (Overlay.prevImage seen (at_index ((i + 1) mod n)%Z)) = (Normal tt, st) ∧
     (Overlay.nextImage seen (at_index ((i - 1) mod n)%Z)) = (Normal tt, st) ∧
     (i = (n - 1)%Z → ((i + 1) mod n = 0)%Z) ∧
     (i = 0%Z → ((i - 1) mod n = n - 1)%Z)).
Proof.
  intros n at_index Himages.
  assert (Hnext : ∀ s, Overlay.nextImage seen s
            = if (length images =? 0)%nat then (Normal tt, s)
              else (Normal tt,
                    {| Overlay.overlay := Overlay.overlay s;
                       Overlay.selectedProduct := Overlay.selectedProduct s;
                       Overlay.currentImageIndex :=
                         num_rem (num_add (Overlay.currentImageIndex s) (Int 1))
                                 (Overlay.count images) |})).
  { intros s. unfold Overlay.nextImage. run. rewrite Himages. cbn.
    by destruct (length images =? 0)%nat. }
  assert (Hprev : ∀ s, Overlay.prevImage seen s
            = if (length images =? 0)%nat then (Normal tt, s)
              else (Normal tt,
                    {| Overlay.overlay := Overlay.overlay s;
                       Overlay.selectedProduct := Overlay.selectedProduct s;
                       Overlay.currentImageIndex :=
                         num_rem (num_add (num_sub (Overlay.currentImageIndex s) (Int 1))
                                          (Overlay.count images))
                                 (Overlay.count images) |})).
  { intros s. unfold Overlay.prevImage. run. rewrite Himages. cbn.
    by destruct (length images =? 0)%nat. }
  split.
  - intros ->. by rewrite Hnext, Hprev.
  - intros i Hidx Hi.
    assert (Hlen : (length images =? 0)%nat = false) by (apply Nat.eqb_neq; lia).
    assert (Hn : (0 < n)%Z) by lia.
    pose proof (Z.mod_pos_bound (i + 1) n Hn) as Hb1.
    pose proof (Z.mod_pos_bound (i - 1) n Hn) as Hb2.
    assert (Hst : st = at_index i) by (destruct st; cbn in Hidx; by subst).
    rewrite !Hnext, !Hprev, Hlen. unfold Overlay.count. fold n. rewrite Hidx.
    cbn [Overlay.currentImageIndex Overlay.overlay Overlay.selectedProduct at_index].
    rewrite next_index, prev_index by lia.
    rewrite next_index, prev_index by lia.
    split; [done|]. split; [done|]. split; [done|]. split; [done|].
    split; [|split; [|split]].
    + rewrite Hst. unfold at_index. cbn. do 3 f_equal.
      rewrite Zminus_mod_idemp_l. replace (i + 1 - 1)%Z with i by lia.
      apply Z.mod_small. lia.
    + rewrite Hst. unfold at_index. cbn. do 3 f_equal.
      rewrite Zplus_mod_idemp_l. replace (i - 1 + 1)%Z with i by lia.
      apply Z.mod_small. lia.
    + intros ->. replace (n - 1 + 1)%Z with n by lia. apply Z_mod_same_full.
    + intros ->. replace (0 - 1)%Z with (n - 1 + (-1) * n)%Z by lia.
      rewrite Z.mod_add by lia. apply Z.mod_small. lia.
Qed.

Lemma carousel_wraps_around_witness :
  let product :=
    JObj [("name", JStr "Oud"); ("image1", JStr "oud-1"); ("image2", JStr "");
          ("image3", JStr "https://cdn.example/oud-3.jpeg")] in
  let st := {| Overlay.overlay := true; Overlay.selectedProduct := product;
               Overlay.currentImageIndex := Int 1 |} in
  let images := [JStr "/images/oud-1.jpeg"; JStr "https://cdn.example/oud-3.jpeg"] in
  Overlay.getProductImages st = Normal images ∧
  Overlay.currentImageIndex st = Int 1 ∧
  (0 ≤ 1 < Z.of_nat (length images))%Z ∧
  Overlay.currentImageIndex (Overlay.nextImage st st).2 = Int 0 ∧
  Overlay.currentImageIndex (Overlay.prevImage st st).2 = Int 0.
Proof.
  intros product st images.
  assert (Himages : Overlay.getProductImages st = Normal images) by reflexivity.
  assert (Hidx : Overlay.currentImageIndex st = Int 1) by reflexivity.
  assert (Hi : (0 ≤ 1 < Z.of_nat (length images))%Z) by (cbn; lia).
  split; [exact Himages|]. split; [exact Hidx|]. split; [exact Hi|].
  destruct (carousel_wraps_around st st images Himages) as [_ Hnav].
  destruct (Hnav 1%Z Hidx Hi) as (Hnext & Hprev & _).
  rewrite Hnext, Hprev. split; reflexivity.
Defined.

Lemma product_images_total (seen : Overlay.State) :
  ∃ images, Overlay.getProductImages seen = Normal images.
Proof.
  unfold Overlay.getProductImages.
  destruct (truthy (Overlay.selectedProduct seen)) eqn:Hp; cbn [negb]; [|by eexists].
  destruct (Overlay.selectedProduct seen); try done; cbn; by eexists.
Qed.

Lemma navigation_frame (seen st : Overlay.State) :
  ∃ index index',
    Overlay.nextImage seen st
    = (Normal tt, {| Overlay.overlay := Overlay.overlay st;
                     Overlay.selectedProduct := Overlay.selectedProduct st;
                     Overlay.currentImageIndex := index |}) ∧
    Overlay.prevImage seen st
    = (Normal tt, {| Overlay.overlay := Overlay.overlay st;
                     Overlay.selectedProduct := Overlay.selectedProduct st;
                     Overlay.currentImageIndex := index' |}).
Proof.
  destruct (product_images_total seen) as [images Himages].
  unfold Overlay.nextImage, Overlay.prevImage. run. rewrite Himages. cbn.
  destruct (length images =? 0)%nat; destruct st; by eexists _, _.
Qed.

(** X23.  The keyboard handler never throws and never changes the selected
    product.  A handler created while the overlay was closed changes
    nothing; only the arrow keys can move the carousel; the overlay is
    closed by Escape (when the handler saw it open) and by no other key.
    Quick View followed by the reset effect shows the overlay for the
    chosen product, with the carousel at its first image when the product
    is truthy. *)
Theorem overlay_keys_and_opening
    (seen st : Overlay.State) (key : string) (product : JsValue) :
  let after := (Overlay.handleKeyDown seen key st).2 in
  let opened := (Overlay.reset_effect (Overlay.quickView product st).2).2 in
  (Overlay.handleKeyDown seen key st).1 = Normal tt ∧
  Overlay.selectedProduct after = Overlay.selectedProduct st ∧
  (Overlay.overlay seen = false → after = st) ∧
  (key ≠ "ArrowLeft" → key ≠ "ArrowRight" →
   Overlay.currentImageIndex after = Overlay.currentImageIndex st) ∧
  Overlay.overlay after
    = (if Overlay.overlay seen && String.eqb key "Escape" then false
       else Overlay.overlay st) ∧
  Overlay.overlay opened = true ∧
  Overlay.selectedProduct opened = product ∧
  Overlay.currentImageIndex opened
    = (if truthy product then Int 0 else Overlay.currentImageIndex st).
Proof.
  cbv zeta.
  assert (Hopen :
    Overlay.overlay (Overlay.reset_effect (Overlay.quickView product st).2).2 = true ∧
    Overlay.selectedProduct (Overlay.reset_effect (Overlay.quickView product st).2).2
      = product ∧
    Overlay.currentImageIndex (Overlay.reset_effect (Overlay.quickView product st).2).2
      = (if truthy product then Int 0 else Overlay.currentImageIndex st)).
  { unfold Overlay.reset_effect, Overlay.quickView. run. by destruct (truthy product). }
  destruct Hopen as (Ho1 & Ho2 & Ho3).
  repeat (rewrite and_assoc).
  cut ((Overlay.handleKeyDown seen key st).1 = Normal tt ∧
       Overlay.selectedProduct (Overlay.handleKeyDown seen key st).2
         = Overlay.selectedProduct st ∧
       (Overlay.overlay seen = false → (Overlay.handleKeyDown seen key st).2 = st) ∧
       (key ≠ "ArrowLeft" → key ≠ "ArrowRight" →
        Overlay.currentImageIndex (Overlay.handleKeyDown seen key st).2
          = Overlay.currentImageIndex st) ∧
       Overlay.overlay (Overlay.handleKeyDown seen key st).2
         = (if Overlay.overlay seen && String.eqb key "Escape" then false
            else Overlay.overlay st)).
  { intros (H1 & H2 & H3 & H4 & H5). done. }
  destruct (navigation_frame seen st) as (index & index' & Hnext & Hprev).
  unfold Overlay.handleKeyDown.
  destruct (Overlay.overlay seen); cbn [negb andb]; [|done].
  destruct (String.eqb_spec key "ArrowLeft") as [->|Hl]; [by rewrite Hprev|].
  destruct (String.eqb_spec key "ArrowRight") as [->|Hr]; [by rewrite Hnext|].
  by destruct (String.eqb_spec key "Escape") as [->|He].
Qed.

(** ** The navigation menu *)

Lemma contains_remove (token : string) (classList : list string) :
  Menu.contains token (Menu.remove token classList) = false.
Proof.
  unfold Menu.contains, Menu.remove.
  induction classList as [|t l IH]; [done|]. cbn.
  destruct (String.eqb token t) eqn:E; cbn; [done|]. by rewrite E.
Qed.

Lemma contains_snoc (token : string) (classList : list string) :
  Menu.contains token (classList ++ [token]) = true.
Proof.
  unfold Menu.contains. rewrite existsb_app. cbn.
  by rewrite String.eqb_refl, orb_true_r.
Qed.

Lemma remove_absent (token : string) (classList : list string) :
  Menu.contains token classList = false → Menu.remove token classList = classList.
Proof.
  unfold Menu.contains, Menu.remove.
  induction classList as [|t l IH]; [done|]. cbn.
  destruct (String.eqb token t); cbn; [done|]. intros Hl. by rewrite IH.
Qed.

Lemma remove_idem (token : string) (classList : list string) :
  Menu.remove token (Menu.remove token classList) = Menu.remove token classList.
Proof. apply remove_absent, contains_remove. Qed.

Lemma remove_snoc (token : string) (classList : list string) :
  Menu.remove token (classList ++ [token]) = Menu.remove token classList.
Proof.
  unfold Menu.remove. rewrite List.filter_app. cbn.
  by rewrite String.eqb_refl, app_nil_r.
Qed.

(** X24.  The menu button flips the [open] class of the links, a click on
    the links removes it (and a second one changes nothing more), and two
    clicks on the button restore the state of the menu.  After any
    non-empty sequence of clicks the other classes of the links are as
    before, and the icon is [ri-close-line] exactly when the menu is
    open. *)
Theorem menu_icon_follows_the_menu (st : Menu.State) (c : Menu.click) (cs : list Menu.click) :
  let is_open (s : Menu.State) := Menu.contains "open" (Menu.navLinks s) in
  let others (s : Menu.State) := Menu.remove "open" (Menu.navLinks s) in
  let final := fold_left (λ s c, Menu.on c s) (c :: cs) st in
  is_open (Menu.onMenuClick st) = negb (is_open st) ∧
  is_open (Menu.onLinksClick st) = false ∧
  Menu.onLinksClick (Menu.onLinksClick st) = Menu.onLinksClick st ∧
  is_open (Menu.onMenuClick (Menu.onMenuClick st)) = is_open st ∧
  others final = others st ∧
  Menu.menuBtnIcon final = (if is_open final then "ri-close-line" else "ri-menu-line").
Proof.
  intros is_open others final.
  assert (Hflip : ∀ s, is_open (Menu.onMenuClick s) = negb (is_open s)).
  { intros s. unfold is_open, Menu.onMenuClick, Menu.toggle. cbn [Menu.navLinks].
    destruct (Menu.contains "open" (Menu.navLinks s)) eqn:E; cbn [negb].
    - apply contains_remove.
    - apply contains_snoc. }
  assert (Hclosed : ∀ s, is_open (Menu.onLinksClick s) = false).
  { intros s. apply contains_remove. }
  assert (Hothers : ∀ k s, others (Menu.on k s) = others s).
  { intros [] s; unfold others, Menu.on, Menu.onMenuClick, Menu.onLinksClick, Menu.toggle;
      cbn [Menu.navLinks].
    - destruct (Menu.contains "open" (Menu.navLinks s)); [apply remove_idem|apply remove_snoc].
    - apply remove_idem. }
  assert (Hicon : ∀ k s, Menu.menuBtnIcon (Menu.on k s)
            = if is_open (Menu.on k s) then "ri-close-line" else "ri-menu-line").
  { intros [] s.
    - reflexivity.
    - rewrite Hclosed. reflexivity. }
  split; [apply Hflip|]. split; [apply Hclosed|].
  split.
  { unfold Menu.onLinksClick. cbn [Menu.navLinks]. by rewrite remove_idem. }
  split; [by rewrite !Hflip, negb_involutive|].
  unfold final. clear final. revert st c.
  induction cs as [|c' cs IH]; intros st c.
  - cbn [fold_left]. split; [apply Hothers|apply Hicon].
  - specialize (IH (Menu.on c st) c'). cbn [fold_left] in IH |- *.
    destruct IH as [IH1 IH2]. split; [by rewrite IH1, Hothers|exact IH2].
Qed.

(** * The totals and the persisted quantities *)

(** ** The totals block *)

Lemma digits_fuel_acc (fuel : nat) (n : N) (acc : list ascii) :
  digits_fuel fuel n acc = digits_fuel fuel n [] ++ acc.
Proof.
  revert n acc. induction fuel as [|fuel IH]; intros n acc; [done|].
  cbn [digits_fuel]. destruct (n / 10 =? 0)%N; [done|].
  rewrite (IH _ (_ :: acc)), (IH _ [_]), <- app_assoc. done.
Qed.

Lemma digits_fuel_enough (f1 f2 : nat) (n : N) (acc : list ascii) :
  (n < 2 ^ N.of_nat f1)%N → (n < 2 ^ N.of_nat f2)%N → f1 ≠ 0 → f2 ≠ 0 →
  digits_fuel f1 n acc = digits_fuel f2 n acc.
Proof.
  revert f2 n acc. induction f1 as [|f1 IH]; intros f2 n acc H1 H2 Hf1 Hf2; [done|].
  destruct f2 as [|f2]; [done|].
  cbn [digits_fuel]. destruct (N.eqb_spec (n / 10) 0) as [|Hne]; [done|].
  rewrite Nat2N.inj_succ, N.pow_succ_r' in H1, H2.
  assert (Hhalf : ∀ p : N, (n < 2 * p)%N → (n / 10 < p)%N).
  { intros p Hp. apply N.Div0.div_lt_upper_bound. lia. }
  assert (Hfuel : ∀ f, (n / 10 < 2 ^ N.of_nat f)%N → f ≠ 0).
  { intros f Hf ->. change (2 ^ N.of_nat 0)%N with 1%N in Hf.
    revert Hne Hf. generalize (n / 10)%N. lia. }
  apply IH; try (by apply Hhalf); apply Hfuel; by apply Hhalf.
Qed.

Lemma digits_of_N_fuel (fuel : nat) (n : N) :
  (n < 2 ^ N.of_nat fuel)%N → fuel ≠ 0 → digits_fuel fuel n [] = digits_of_N n.
Proof.
  intros Hn Hfuel. unfold digits_of_N. apply digits_fuel_enough; [done| |done|done].
  rewrite Nat2N.inj_succ, N2Nat.id, N.pow_succ_r'.
  pose proof (N.size_gt n) as Hs. revert Hs. generalize (2 ^ N.size n)%N. lia.
Qed.

Lemma digits_of_N_times_ten (m : N) :
  m ≠ 0%N → digits_of_N (10 * m) = digits_of_N m ++ ["0"%char].
Proof.
  intros Hm. unfold digits_of_N at 1. cbn [digits_fuel].
  assert (Hdiv : (10 * m / 10 = m)%N) by (rewrite N.mul_comm; by apply N.div_mul).
  assert (Hmod : ((10 * m) mod 10 = 0)%N) by (rewrite N.mul_comm; by apply N.Div0.mod_mul).
  rewrite Hdiv, Hmod. destruct (N.eqb_spec m 0); [done|].
  rewrite digits_fuel_acc. f_equal. apply digits_of_N_fuel.
  - rewrite N2Nat.id. pose proof (N.size_gt (10 * m)) as Hs.
    revert Hs. generalize (2 ^ N.size (10 * m))%N. lia.
  - intros H0. apply (f_equal N.of_nat) in H0. rewrite N2Nat.id in H0.
    pose proof (N.size_gt (10 * m)) as Hs. rewrite H0 in Hs.
    change (2 ^ N.of_nat 0)%N with 1%N in Hs. lia.
Qed.

Lemma digits_of_N_nonempty (n : N) : digits_of_N n ≠ [].
Proof. by destruct (digits_of_N_spec n) as (_ & _ & H & _). Qed.

(** [toFixed(2)] of a whole number that is not negative: its digits, a
    dot and two zeros. *)
Lemma to_fixed2_whole (n : Z) :
  (0 ≤ n)%Z → to_fixed2 (Int n) = num_to_string (Int n) +:+ ".00".
Proof.
  intros Hn. unfold to_fixed2, num_to_string, Int, print_dec.
  cbn [strip_zeros]. change (pow10 0) with 1%Z.
  replace (n <? 0)%Z with false by lia.
  replace ((Z.abs n * 200 + 1) / (2 * 1))%Z with (100 * n)%Z.
  2:{ rewrite Z.abs_eq by done. apply Z.div_unique with (r := 1%Z); lia. }
  assert (Hstr : ∀ a b : list ascii,
            string_of_list_ascii (a ++ b) = string_of_list_ascii a +:+ string_of_list_ascii b).
  { induction a as [|c a IH]; intros b; [done|]. cbn. by rewrite IH. }
  destruct (Z.eq_dec n 0%Z) as [->|Hpos]; [reflexivity|].
  set (ds := digits_of_N (Z.abs_N n)).
  assert (Hds : digits_of_N (Z.to_N (100 * n)) = ds ++ ["0"%char; "0"%char]).
  { replace (Z.to_N (100 * n)) with (10 * (10 * Z.abs_N n))%N by lia.
    rewrite !digits_of_N_times_ten by lia. by rewrite <- app_assoc. }
  rewrite Hds.
  assert (Hlen : length ds ≠ 0).
  { intros H. apply length_zero_iff_nil in H. by apply (digits_of_N_nonempty (Z.abs_N n)). }
  assert (HL : length (ds ++ ["0"%char; "0"%char]) = length ds + 2)
    by (by rewrite length_app).
  rewrite HL. replace (3 - (length ds + 2)) with 0 by lia. cbn [repeat app].
  rewrite HL. replace (length ds + 2 - 2) with (length ds) by lia.
  replace (1 - length ds) with 0 by lia. cbn [repeat app].
  rewrite take_app_length, drop_app_length.
  exact (Hstr ds ["."%char; "0"%char; "0"%char]).
Qed.

Lemma append_assoc (a b c : string) : (a +:+ b) +:+ c = a +:+ (b +:+ c).
Proof.
  induction a as [|x a IH]; [done|].
  change (String x ((a +:+ b) +:+ c) = String x (a +:+ (b +:+ c))). by rewrite IH.
Qed.

(** The totals block for a whole subtotal. *)
Lemma order_totals_whole (cart : list JsValue) (n : Z) :
  Checkout.subtotal cart = Normal (Int n) → (0 ≤ n)%Z →
  Checkout.order_totals cart
  = Normal (num_to_string (Int n) +:+ ".00 L.E", "20.00 L.E",
            num_to_string (Int (n + 20)) +:+ ".00 L.E").
Proof.
  intros Hs Hn. unfold Checkout.order_totals. rewrite Hs.
  cbn [mbind completion_bind mret completion_ret].
  assert (Hsum : num_add (Int n) Checkout.shipping = Int (n + 20)).
  { unfold Checkout.shipping, Int, num_add. cbn [Nat.max Nat.sub].
    change (pow10 0) with 1%Z. f_equal. lia. }
  rewrite Hsum, !to_fixed2_whole by lia. by rewrite !append_assoc.
Qed.

(** An entry that is [null] or [undefined] stops the loop: reading its
    [price] throws, and nothing before it throws anything else. *)
Lemma line_amount_throws (line : JsValue) (e : thrown) :
  Checkout.line_amount line = Throw e → e = TypeError ∧ Failure.nullish line = true.
Proof.
  unfold Checkout.line_amount. destruct line; cbn; intros H; by simplify_eq.
Qed.

Lemma subtotal_loop_nullish (cart : list JsValue) (n i j : nat) (sum : JsNumber) (line : JsValue) :
  cart !! j = Some line → Failure.nullish line = true → i ≤ j < i + n →
  Checkout.subtotal_loop cart i n sum = Throw TypeError.
Proof.
  intros Hline Hnull. revert i sum. induction n as [|n IH]; intros i sum Hj; [lia|].
  rewrite subtotal_loop_S.
  destruct (Checkout.line_amount (default JUndefined (cart !! i))) as [a|e] eqn:Ha.
  - cbn [mbind completion_bind]. apply IH.
    destruct (decide (i = j)) as [->|]; [|lia].
    rewrite Hline in Ha. cbn in Ha. by destruct line.
  - by destruct (line_amount_throws _ _ Ha) as [-> _].
Qed.

Lemma subtotal_nullish (cart : list JsValue) (line : JsValue) :
  line ∈ cart → Failure.nullish line = true → Checkout.subtotal cart = Throw TypeError.
Proof.
  intros Hin Hnull. apply list_elem_of_lookup_1 in Hin as [j Hj].
  unfold Checkout.subtotal. apply (subtotal_loop_nullish cart _ 0 j _ line Hj Hnull).
  apply lookup_lt_Some in Hj. lia.
Qed.




(** ** The quantity that is persisted *)

Lemma kept_members_get (k : string) (x : JsValue) (ps : list (string * JsValue)) :
  assoc_get k ps = Some x → is_undefined x = false →
  assoc_get k (kept_members ps) = Some (kept x).
Proof.
  intros Hget Hx. induction ps as [|[k0 x0] ps IH]; [done|].
  cbn [assoc_get kept_members] in *.
  destruct (String.eqb k k0) eqn:Hk0.
  - injection Hget as ->. rewrite Hx. cbn [assoc_get]. by rewrite Hk0.
  - destruct (is_undefined x0); cbn [assoc_get]; rewrite ?Hk0; by apply IH.
Qed.

Lemma elem_of_insert_inv {A : Type} (l : list A) (i : nat) (x y : A) :
  y ∈ <[i := x]> l → y = x ∨ y ∈ l.
Proof.
  revert i. induction l as [|z l IH]; intros [|i] Hy; cbn in Hy;
    try (by right).
  - apply elem_of_cons in Hy as [->|Hy]; [by left|right; by right].
  - apply elem_of_cons in Hy as [->|Hy]; [right; by left|].
    destruct (IH i Hy) as [->|Hin]; [by left|right; by right].
Qed.

Lemma counted_inv (line : JsValue) :
  Scope.counted line = true →
  ∃ props n, line = JObj props ∧ assoc_get "quantity" props = Some (JNum (Int n)) ∧
             (1 ≤ n < 2 ^ 53)%Z.
Proof.
  destruct line as [| | | | | |props]; try done. cbn [Scope.counted].
  destruct (assoc_get "quantity" props) as [[| | |[| |n [|e]]| | |]|] eqn:Hq; try done.
  intros Hn. apply andb_true_iff in Hn as [H1 H2]. exists props, n. split; [done|].
  split; [done|]. lia.
Qed.

(** A line whose quantity is a whole number from 1 up is not below 1 when
    it is read back. *)
Lemma kept_quantity_not_below_one (props : list (string * JsValue)) (n : Z) :
  assoc_get "quantity" props = Some (JNum (Int n)) → (1 ≤ n)%Z →
  Checkout.quantity_below_one (kept (JObj props)) = Normal false.
Proof.
  intros Hq Hn. rewrite kept_obj. unfold Checkout.quantity_below_one. cbn [get_prop].
  pose proof (kept_members_get "quantity" (JNum (Int n)) props Hq eq_refl) as Hget.
  rewrite Hget. change (kept (JNum (Int n))) with (JNum (Int n)).
  cbn [default from_option Datatypes.id mbind completion_bind to_number].
  rewrite int_below_one. unfold mret, completion_ret. f_equal. lia.
Qed.

(** The three writers keep a cart of counted lines free of quantities
    below 1, as the persisted text reads back. *)
Lemma writers_keep_quantities (before : Checkout.World) (i : nat)
    (step : action Checkout.World unit) :
  let lines := Checkout.cart before.1 in
  step = Checkout.decrease i ∨ step = Checkout.increase i ∨ step = Checkout.remove i →
  forallb well_keyed lines = true →
  forallb Scope.counted lines = true →
  i < length lines →
  ∃ after,
    step before = (Normal tt, after) ∧
    ∀ line', line' ∈ cart_of_saved (localStorage after.2 !! "cart") →
             Checkout.quantity_below_one line' = Normal false.
Proof.
  intros lines Hstep Hk Hcounted Hi.
  destruct (lookup_lt_is_Some_2 lines i Hi) as [line Hline].
  destruct (counted_inv line (forallb_lookup _ _ _ _ Hcounted Hline))
    as (props & n & -> & Hq & Hn).
  assert (Hold : ∀ l, l ∈ lines → Checkout.quantity_below_one (kept l) = Normal false).
  { intros l Hl. apply list_elem_of_In in Hl.
    rewrite forallb_forall in Hcounted. apply Hcounted in Hl.
    destruct (counted_inv l Hl) as (ps & m & -> & Hm & Hm').
    apply (kept_quantity_not_below_one ps m); [done|lia]. }
  assert (Hread : ∀ updated,
            (∀ l, l ∈ updated → Checkout.quantity_below_one (kept l) = Normal false) →
            ∀ line', line' ∈ map kept updated →
                     Checkout.quantity_below_one line' = Normal false).
  { intros updated Hall line' Hin. apply list_elem_of_In, in_map_iff in Hin.
    destruct Hin as (l & <- & Hl). apply Hall. by apply list_elem_of_In. }
  assert (Hbumped : ∀ m l, (1 ≤ m)%Z →
            l ∈ <[i := JObj (assoc_put "quantity" (JNum (Int m)) props)]> lines →
            Checkout.quantity_below_one (kept l) = Normal false).
  { intros m l Hm Hl. apply elem_of_insert_inv in Hl as [->|Hl]; [|by apply Hold].
    apply (kept_quantity_not_below_one _ m); [apply assoc_get_put|done]. }
  destruct Hstep as [->|[->| ->]].
  - destruct (decrease_then_shown before i props Hk Hline)
      as (after & text & note & Hrun & _ & _ & _ & Hsaved & _).
    rewrite Hq in Hsaved. cbn [default from_option Datatypes.id to_number] in Hsaved.
    rewrite decrement_int, int_below_one in Hsaved. fold lines in Hsaved.
    exists after. split; [exact Hrun|]. rewrite Hsaved. apply Hread.
    destruct (n - 1 <? 1)%Z eqn:Hgone.
    + intros l Hl. apply Hold. by eapply list_elem_of_delete_inv.
    + intros l Hl. apply (Hbumped (n - 1)%Z); [lia|done].
  - destruct (increase_then_shown before i props Hk Hline)
      as (after & text & Hrun & _ & _ & _ & Hsaved & _).
    rewrite Hq in Hsaved. cbn [default from_option Datatypes.id to_number] in Hsaved.
    rewrite increment_int in Hsaved. fold lines in Hsaved.
    exists after. split; [exact Hrun|]. rewrite Hsaved. apply Hread.
    intros l Hl. apply (Hbumped (n + 1)%Z); [lia|done].
  - destruct (removed_then_shown i before Hk)
      as (after & text & note & Hrun & _ & _ & _ & Hsaved & _).
    fold lines in Hsaved.
    exists after. split; [exact Hrun|]. rewrite Hsaved. apply Hread.
    intros l Hl. apply Hold. by eapply list_elem_of_delete_inv.
Qed.



